(** * Linear Inverse Modeling: [LIM_analysis.LIM] over binary64

    A shallow embedding of the single function [LIM(xDat, lag)] of
    [src/LIM_analysis.py].  Scalars are Rocq's primitive binary64 floats,
    which evaluate exactly like numpy's [float64]; a [complex128] value is a
    pair of them.  Python exceptions are the [Raise] results of a small error
    monad.  Elementwise arithmetic and [np.sum] are written out, the sum in
    the order numpy adds a contiguous array.  The routines numpy delegates
    to BLAS, LAPACK, libm, its sort kernels and the allocator (matrix
    product, inversion, eigen-decomposition, logarithm, argsort, room for
    an array) are the fields of a record [numpy], so every theorem says
    which documented property of those routines it relies on; [ref_numpy]
    is an executable instance for diagonal systems, used to run [LIM] on
    concrete inputs. *)

From Stdlib Require Import ZArith List Bool Lia Floats Permutation Sorted.
From Stdlib Require Uint63.
Import ListNotations.

(** * 1. Python exceptions and the error monad *)

Inductive LinAlgReason : Type :=
| SingularMatrix      (* LinAlgError("Singular matrix") *)
| NotFinite           (* LinAlgError("Array must not contain infs or NaNs") *)
| NoConvergence.      (* LinAlgError("Eigenvalues did not converge") *)

Inductive exc : Type :=
| ValueError
| IndexError
| MemoryError
| LinAlgError (r : LinAlgReason).

Inductive result (A : Type) : Type :=
| Ok (a : A)
| Raise (e : exc).

Arguments Ok {A} a.
Arguments Raise {A} e.

Definition bind {A B : Type} (r : result A) (k : A -> result B) : result B :=
  match r with
  | Ok a => k a
  | Raise e => Raise e
  end.

Notation "x <- r ;; k" := (bind r (fun x => k))
  (at level 61, r at next level, right associativity).
Notation "' p <- r ;; k" := (bind r (fun p => k))
  (at level 61, p pattern, r at next level, right associativity).

Fixpoint mapM {A B : Type} (f : A -> result B) (l : list A) : result (list B) :=
  match l with
  | [] => Ok []
  | a :: l' => b <- f a ;; bs <- mapM f l' ;; Ok (b :: bs)
  end.

(** * 2. Scalars: float64 and complex128 *)

Open Scope float_scope.

Record complex : Type := Cx { re : float; im : float }.

(** numpy's [CDOUBLE_add], [CDOUBLE_negative] and [CDOUBLE_multiply] loops:
    componentwise sum and negation, and the textbook product without any
    recovery of infinities. *)
Definition cadd (a b : complex) : complex := Cx (re a + re b) (im a + im b).
Definition cneg (a : complex) : complex := Cx (- re a) (- im a).
Definition cmul (a b : complex) : complex :=
  Cx (re a * re b - im a * im b) (re a * im b + im a * re b).

(** numpy's [CDOUBLE_divide] loop (Smith's method). *)
Definition cdiv (a b : complex) : complex :=
  let in2r_abs := PrimFloat.abs (re b) in
  let in2i_abs := PrimFloat.abs (im b) in
  if in2i_abs <=? in2r_abs then
    if (in2r_abs =? 0) && (in2i_abs =? 0) then
      Cx (re a / in2r_abs) (im a / in2r_abs)
    else
      let rat := im b / re b in
      let scl := 1 / (re b + im b * rat) in
      Cx ((re a + im a * rat) * scl) ((im a - re a * rat) * scl)
  else
    let rat := re b / im b in
    let scl := 1 / (im b + re b * rat) in
    Cx ((re a * rat + im a) * scl) ((im a * rat - re a) * scl).

(** Casting float64 to complex128. *)
Definition to_c (x : float) : complex := Cx x 0.

(** Python [int] to float64, as numpy converts an integer operand of a
    floating-point ufunc (exact below 2^53 in magnitude). *)
Definition float_of_Z (z : Z) : float :=
  if (z <? 0)%Z then - of_uint63 (Uint63.of_Z (- z)) else of_uint63 (Uint63.of_Z z).

Definition float_of_count (n : nat) : float := float_of_Z (Z.of_nat n).

Definition np_pi : float := 0x1.921fb54442d18p+1.

(** The arithmetic the generic array code needs, at either dtype. *)
Class Scalar (A : Type) : Type := {
  s_zero : A;
  s_nan  : A;
  s_add  : A -> A -> A;
  s_mul  : A -> A -> A;
  s_finite : A -> bool
}.

#[export] Instance Scalar_float : Scalar float := {
  s_zero := 0;
  s_nan  := nan;
  s_add  := PrimFloat.add;
  s_mul  := PrimFloat.mul;
  s_finite := is_finite
}.

#[export] Instance Scalar_complex : Scalar complex := {
  s_zero := Cx 0 0;
  s_nan  := Cx nan nan;
  s_add  := cadd;
  s_mul  := cmul;
  s_finite := fun z => is_finite (re z) && is_finite (im z)
}.

(** * 3. Arrays *)

(** The input: a rectangular float64 array of shape [(nrow, ncol)], read
    through [cell].  Shape [(0, T)] is representable. *)
Record ndarray : Type := NdArray {
  nrow : nat;
  ncol : nat;
  cell : nat -> nat -> float
}.

(** [np.transpose] of a 2-D array. *)
Definition np_transpose (X : ndarray) : ndarray :=
  NdArray (ncol X) (nrow X) (fun t i => cell X i t).

(** [X[i,:]] and [X[:,j]]. *)
Definition row (X : ndarray) (i : nat) : list float :=
  map (fun t => cell X i t) (seq 0 (ncol X)).
Definition column (X : ndarray) (j : nat) : list float :=
  map (fun t => cell X t j) (seq 0 (nrow X)).

(** Computed matrices are lists of rows. *)
Definition matrix (A : Type) : Type := list (list A).

Definition mat_ncols {A : Type} (M : matrix A) : nat :=
  match M with
  | [] => 0
  | r :: _ => length r
  end.

Definition mat_col {A : Type} `{Scalar A} (M : matrix A) (j : nat) : list A :=
  map (fun r => nth j r s_nan) M.

Definition mat_transpose {A : Type} `{Scalar A} (M : matrix A) : matrix A :=
  map (mat_col M) (seq 0 (mat_ncols M)).

Definition is_shape {A : Type} (n m : nat) (M : matrix A) : Prop :=
  length M = n /\ Forall (fun r => length r = m) M.

Definition entry {A : Type} `{Scalar A} (M : matrix A) (i j : nat) : A :=
  nth j (nth i M []) s_nan.

(** [a[idx]] and [M[:,idx]] for an index list produced by [argsort]. *)
Definition take {A : Type} `{Scalar A} (idx : list nat) (l : list A) : list A :=
  map (fun k => nth k l s_nan) idx.
Definition take_cols {A : Type} `{Scalar A} (idx : list nat) (M : matrix A) : matrix A :=
  map (take idx) M.

(** A negative Python index counts from the end; anything else out of
    [-n .. n-1] raises [IndexError]. *)
Definition py_index (n : nat) (k : Z) : result nat :=
  if ((0 <=? k) && (k <? Z.of_nat n))%Z then Ok (Z.to_nat k)
  else if ((- Z.of_nat n <=? k) && (k <? 0))%Z then Ok (Z.to_nat (k + Z.of_nat n))
  else Raise IndexError.

(** The stop position of the slice [a[:stop]] on an axis of length [n]. *)
Definition slice_stop (n : nat) (stop : Z) : nat :=
  if (stop <? 0)%Z then Z.to_nat (Z.max (stop + Z.of_nat n) 0)
  else Nat.min (Z.to_nat stop) n.

(** Elementwise product of two 1-D arrays with numpy's broadcasting. *)
Definition np_multiply (a b : list float) : result (list float) :=
  if Nat.eqb (length a) (length b) then Ok (map (fun p => fst p * snd p) (combine a b))
  else match a, b with
       | [x], _ => Ok (map (fun y => x * y) b)
       | _, [y] => Ok (map (fun x => x * y) a)
       | _, _ => Raise ValueError
       end.

(** [np.sum] of a contiguous 1-D float64 array is [np.add.reduce]: the
    result starts as the identity [+0.0] and the inner loop adds to it the
    pairwise sum of the whole array ([DOUBLE_pairwise_sum]).  Fewer than 8
    entries are added one after the other; up to 128 entries are added
    into 8 interleaved accumulators, which are then combined as
    [((r0+r1)+(r2+r3)) + ((r4+r5)+(r6+r7))] before the remaining entries
    are added one by one; a longer array is split in two near the middle,
    at a multiple of 8, and the two sums are added. *)
Definition add8 (r a : list float) : list float :=
  map (fun p => fst p + snd p) (combine r a).

Fixpoint blocks8 (k : nat) (r l : list float) : list float * list float :=
  match k with
  | O => (r, l)
  | S k' => blocks8 k' (add8 r (firstn 8 l)) (skipn 8 l)
  end.

Definition reduce8 (r : list float) : float :=
  let e := fun k => nth k r 0 in
  ((e 0%nat + e 1%nat) + (e 2%nat + e 3%nat))
  + ((e 4%nat + e 5%nat) + (e 6%nat + e 7%nat)).

(** The unrolled loop, for 8 entries or more. *)
Definition unrolled_sum (l : list float) : float :=
  let '(r, rest) := blocks8 (length l / 8 - 1) (firstn 8 l) (skipn 8 l) in
  fold_left PrimFloat.add rest (reduce8 r).

(** The short loop starts from a zero, [-0.0] in current numpy and [+0.0]
    in older releases; after the final [0 + ...] of [np_sum] the two give
    the same value ([np_sum_short_start] below).  [fuel] bounds the depth
    of the splitting; the length of the array is always enough
    ([pairwise_sum_unfold]). *)
Fixpoint pairwise_sum_rec (fuel : nat) (l : list float) : float :=
  let n := length l in
  if (n <? 8)%nat then fold_left PrimFloat.add l (-0)
  else if (n <=? 128)%nat then unrolled_sum l
  else match fuel with
       | O => unrolled_sum l
       | S fuel' =>
           let n2 := (n / 2 - (n / 2) mod 8)%nat in
           pairwise_sum_rec fuel' (firstn n2 l) + pairwise_sum_rec fuel' (skipn n2 l)
       end.

Definition pairwise_sum (l : list float) : float :=
  pairwise_sum_rec (length l) l.

Definition np_sum (l : list float) : float := 0 + pairwise_sum l.

(** [np.nansum]: NaNs are replaced by 0, then [np.sum]. *)
Definition replace_nan (x : float) : float := if is_nan x then 0 else x.
Definition np_nansum (l : list float) : float := np_sum (map replace_nan l).

(** [np.nansum(np.isfinite(a))]: the number of finite entries, an integer. *)
Definition count_finite (l : list float) : nat :=
  length (filter is_finite l).

(** * 4. STEP 1 of [LIM]: the covariance matrices *)

(** [xLagged]: the shape check of [np.full] (a negative number of columns
    is refused) and the copy loop, column [iT] being read from
    [xDat[:, iT+lag]].  Whether there is room for an [xLagged] wider than
    twice the record is decided before, by [np_full_room] in [LIM]. *)
Definition lagged (xDat : ndarray) (lag : Z) : result ndarray :=
  let nT := ncol xDat in
  if (Z.of_nat nT - lag <? 0)%Z then Raise ValueError
  else
    cols <- mapM (fun iT => py_index nT (Z.of_nat iT + lag))
                 (seq 0 (Z.to_nat (Z.of_nat nT - lag))) ;;
    Ok (NdArray (nrow xDat) (length cols)
                (fun i iT => cell xDat i (nth iT cols O))).

(** One ratio [np.nansum(p) / np.nansum(np.isfinite(p))]. *)
Definition nan_mean (p : list float) : float :=
  np_nansum p / float_of_count (count_finite p).

(** The body of the double loop for one [(iR, iC)]. *)
Definition cov_cell (xDat xDat_T xLagged : ndarray) (lag : Z) (iR iC : nat)
  : result (float * float) :=
  p0 <- np_multiply (row xDat iR) (column xDat_T iC) ;;
  pT <- np_multiply (row xLagged iR)
                    (firstn (slice_stop (nrow xDat_T) (- lag)) (column xDat_T iC)) ;;
  Ok (nan_mean p0, nan_mean pT).

(** Lines 48-62, once line 48 has its memory: [xLagged], then the double
    loop over the pairs of variables. *)
Definition covariances (xDat : ndarray) (lag : Z)
  : result (matrix float * matrix float) :=
  let xDat_T := np_transpose xDat in
  let nDat := nrow xDat in
  xLagged <- lagged xDat lag ;;
  cells <- mapM (fun iR => mapM (fun iC => cov_cell xDat xDat_T xLagged lag iR iC)
                                (seq 0 nDat))
                (seq 0 nDat) ;;
  Ok (map (map fst) cells, map (map snd) cells).

(** * 5. The numpy routines backed by LAPACK, libm and the sort kernels *)

(** An array whose dtype is decided at run time: [LA.eig] returns float64
    arrays when every eigenvalue has a zero imaginary part and complex128
    arrays otherwise, and everything computed from them inherits the dtype. *)
Inductive dvec : Type :=
| VR (l : list float)
| VC (l : list complex).

Inductive dmat : Type :=
| MR (M : matrix float)
| MC (M : matrix complex).

Record numpy : Type := {
  np_log    : float -> float;          (* [np.log], float64 loop *)
  np_clog   : complex -> complex;      (* [np.log], complex128 loop *)
  inv_d     : matrix float -> result (matrix float);      (* [LA.inv], float64 *)
  inv_z     : matrix complex -> result (matrix complex);  (* [LA.inv], complex128 *)
  geev      : matrix float -> result (list complex * matrix complex);
                                       (* the [_umath_linalg.eig] kernel *)
  argsort_d : list float -> list nat;  (* [ndarray.argsort], float64 *)
  argsort_z : list complex -> list nat; (* [ndarray.argsort], complex128 *)
  dot_d     : matrix float -> matrix float -> nat -> nat -> float;
                                       (* entry [(i, j)] of [np.dot], float64 *)
  dot_z     : matrix complex -> matrix complex -> nat -> nat -> complex;
                                       (* entry [(i, j)] of [np.dot], complex128 *)
  can_allocate : nat -> Z -> bool      (* room for a float64 array of that shape *)
}.

(** [np.dot] of two 2-D arrays has the rows of the first and the columns
    of the second.  What is stored in each entry is computed by the BLAS
    routine numpy hands the product to (a scalar product for 1x1 operands,
    [gemv], [gemm] or [syrk] otherwise); its order of accumulation, fused
    operations and signs of zero differ between BLAS builds, so the
    entries are left to the library.  Every product in [LIM] is between
    two [N x N] arrays (LAPACK returns inverses and eigenvector matrices
    of the shape of its argument), so the shape check of [np.dot] never
    fails there. *)
Definition np_dot (np : numpy) (M1 M2 : matrix float) : matrix float :=
  map (fun i => map (fun j => dot_d np M1 M2 i j) (seq 0 (mat_ncols M2)))
      (seq 0 (length M1)).

Definition np_dot_z (np : numpy) (M1 M2 : matrix complex) : matrix complex :=
  map (fun i => map (fun j => dot_z np M1 M2 i j) (seq 0 (mat_ncols M2)))
      (seq 0 (length M1)).

Definition cast (M : matrix float) : matrix complex := map (map to_c) M.

Definition dv_complex (a : dvec) : list complex :=
  match a with
  | VR l => map to_c l
  | VC l => l
  end.

Definition dm_complex (M : dmat) : matrix complex :=
  match M with
  | MR M => cast M
  | MC M => M
  end.

Definition dv_length (a : dvec) : nat :=
  match a with
  | VR l => length l
  | VC l => length l
  end.

Definition dm_shape (n m : nat) (M : dmat) : Prop :=
  match M with
  | MR M => is_shape n m M
  | MC M => is_shape n m M
  end.

(** [a.real] and [a.imag]; the imaginary part of a float64 array is zeros. *)
Definition dv_real (a : dvec) : list float :=
  match a with
  | VR l => l
  | VC l => map re l
  end.

Definition dv_imag (a : dvec) : list float :=
  match a with
  | VR l => map (fun _ => 0) l
  | VC l => map im l
  end.

Definition dv_take (idx : list nat) (a : dvec) : dvec :=
  match a with
  | VR l => VR (take idx l)
  | VC l => VC (take idx l)
  end.

Definition dm_take_cols (idx : list nat) (M : dmat) : dmat :=
  match M with
  | MR M => MR (take_cols idx M)
  | MC M => MC (take_cols idx M)
  end.

Definition dm_transpose (M : dmat) : dmat :=
  match M with
  | MR M => MR (mat_transpose M)
  | MC M => MC (mat_transpose M)
  end.

(** [np.dot] promotes to complex128 as soon as one operand is complex. *)
Definition dm_dot (np : numpy) (M1 M2 : dmat) : dmat :=
  match M1, M2 with
  | MR A, MR B => MR (np_dot np A B)
  | _, _ => MC (np_dot_z np (dm_complex M1) (dm_complex M2))
  end.

Definition dv_argsort (np : numpy) (a : dvec) : list nat :=
  match a with
  | VR l => argsort_d np l
  | VC l => argsort_z np l
  end.

Definition dv_log (np : numpy) (a : dvec) : dvec :=
  match a with
  | VR l => VR (map (np_log np) l)
  | VC l => VC (map (np_clog np) l)
  end.

(** [a / lag] for a Python integer [lag]. *)
Definition dv_div_int (a : dvec) (lag : Z) : dvec :=
  match a with
  | VR l => VR (map (fun x => x / float_of_Z lag) l)
  | VC l => VC (map (fun z => cdiv z (to_c (float_of_Z lag))) l)
  end.

Definition dm_inv (np : numpy) (M : dmat) : result dmat :=
  match M with
  | MR M => M' <- inv_d np M ;; Ok (MR M')
  | MC M => M' <- inv_z np M ;; Ok (MC M')
  end.

(** [LA.eig] on a float64 matrix: the finiteness check, the LAPACK kernel,
    and the cast back to float64 when [all(w.imag == 0.0)]. *)
Definition all_finite (M : matrix float) : bool := forallb (forallb is_finite) M.

Definition LA_eig (np : numpy) (a : matrix float) : result (dvec * dmat) :=
  if all_finite a then
    ' (w, vt) <- geev np a ;;
    if forallb (fun z => im z =? 0) w
    then Ok (VR (map re w), MR (map (map re) vt))
    else Ok (VC w, MC vt)
  else Raise (LinAlgError NotFinite).

(** [beta = np.zeros((n, n), complex); np.fill_diagonal(beta, vals)]: the
    values are written along the diagonal, cycling when they run short. *)
Definition fill_diagonal (n : nat) (vals : list complex) : matrix complex :=
  map (fun i => map (fun j =>
        if Nat.eqb i j
        then match vals with
             | [] => s_zero
             | _ => nth (i mod length vals) vals s_zero
             end
        else s_zero) (seq 0 n)) (seq 0 n).

Definition mat_add (M1 M2 : matrix complex) : matrix complex :=
  map (fun p => map (fun q => cadd (fst q) (snd q)) (combine (fst p) (snd p)))
      (combine M1 M2).

Definition mat_neg (M : matrix complex) : matrix complex := map (map cneg) M.

(** * 6. STEP 2 and STEP 3 of [LIM] *)

(** The per-mode table: eigenvalues, modes, adjoints and rates. *)
Record modes : Type := Modes {
  m_g : dvec;
  m_u : dmat;
  m_v : dmat;
  m_b : dvec
}.

(** Lines 70-86: both eigen-decompositions, each sorted on its own in
    decreasing eigenvalue order, and [b_alpha = log(g) / lag]. *)
Definition eigenmodes (np : numpy) (G : matrix float) (lag : Z) : result modes :=
  ' (g, u) <- LA_eig np G ;;
  let iSort := rev (dv_argsort np g) in
  let g := dv_take iSort g in
  let u := dm_take_cols iSort u in
  ' (eigVal_T, v) <- LA_eig np (mat_transpose G) ;;
  let iSortT := rev (dv_argsort np eigVal_T) in
  let v := dm_take_cols iSortT v in
  let b_tau := dv_log np g in
  let b_alpha := dv_div_int b_tau lag in
  Ok (Modes g u v b_alpha).

(** Lines 89-95: the decay-time key and the joint re-sort. *)
Definition decay_time (b_alpha : dvec) : list float :=
  map (fun x => (-1) / x) (dv_real b_alpha).

Definition iSort2 (np : numpy) (m : modes) : list nat :=
  rev (argsort_d np (decay_time (m_b m))).

Definition decay_sort (np : numpy) (m : modes) : modes :=
  let idx := iSort2 np m in
  Modes (dv_take idx (m_g m)) (dm_take_cols idx (m_u m))
        (dm_take_cols idx (m_v m)) (dv_take idx (m_b m)).

(** The eleven returned fields, in the order of the [return] statement:
    [(b_alpha, L, Q, G, c0, cT, normU, v, g, periods, decayT)]. *)
Definition lim_output : Type :=
  (dvec * matrix complex * matrix complex * matrix float * matrix float *
   matrix float * dmat * dmat * dvec * list float * list float)%type.

Definition out_b_alpha (o : lim_output) : dvec :=
  let '(b, _, _, _, _, _, _, _, _, _, _) := o in b.
Definition out_L (o : lim_output) : matrix complex :=
  let '(_, L, _, _, _, _, _, _, _, _, _) := o in L.
Definition out_Q (o : lim_output) : matrix complex :=
  let '(_, _, Q, _, _, _, _, _, _, _, _) := o in Q.
Definition out_G (o : lim_output) : matrix float :=
  let '(_, _, _, G, _, _, _, _, _, _, _) := o in G.
Definition out_c0 (o : lim_output) : matrix float :=
  let '(_, _, _, _, c0, _, _, _, _, _, _) := o in c0.
Definition out_cT (o : lim_output) : matrix float :=
  let '(_, _, _, _, _, cT, _, _, _, _, _) := o in cT.
Definition out_normU (o : lim_output) : dmat :=
  let '(_, _, _, _, _, _, nU, _, _, _, _) := o in nU.
Definition out_v (o : lim_output) : dmat :=
  let '(_, _, _, _, _, _, _, v, _, _, _) := o in v.
Definition out_g (o : lim_output) : dvec :=
  let '(_, _, _, _, _, _, _, _, g, _, _) := o in g.
Definition out_periods (o : lim_output) : list float :=
  let '(_, _, _, _, _, _, _, _, _, p, _) := o in p.
Definition out_decayT (o : lim_output) : list float :=
  let '(_, _, _, _, _, _, _, _, _, _, d) := o in d.

(** [Q_negative = np.dot(L, c0) + np.dot(c0, np.transpose(L))]. *)
Definition Q_negative (np : numpy) (L : matrix complex) (c0 : matrix float)
  : matrix complex :=
  mat_add (np_dot_z np L (cast c0)) (np_dot_z np (cast c0) (mat_transpose L)).

(** Lines 98-110: [beta], [normFactors] and [L]. *)
Definition beta_matrix (nDat : nat) (m : modes) : matrix complex :=
  fill_diagonal nDat (dv_complex (m_b m)).

Definition norm_factors (np : numpy) (m : modes) : dmat :=
  dm_dot np (dm_transpose (m_u m)) (m_v m).

Definition L_matrix (np : numpy) (nDat : nat) (normU : dmat) (m : modes)
  : matrix complex :=
  np_dot_z np (dm_complex normU)
    (np_dot_z np (beta_matrix nDat m) (dm_complex (dm_transpose (m_v m)))).

(** Lines 117-118. *)
Definition periods_of (b_alpha : dvec) : list float :=
  map (fun y => (2 * np_pi) / y) (dv_imag b_alpha).

(** Lines 98-122: normalisation, [L], [Q], periods and decay times. *)
Definition reconstruct (np : numpy) (nDat : nat)
    (G c0 cT : matrix float) (m : modes) : result lim_output :=
  invNorm <- dm_inv np (norm_factors np m) ;;
  let normU := dm_dot np (m_u m) invNorm in
  let L := L_matrix np nDat normU m in
  let Q := mat_neg (Q_negative np L c0) in
  Ok (m_b m, L, Q, G, c0, cT, normU, m_v m, m_g m,
      periods_of (m_b m), decay_time (m_b m)).

(** Line 48 asks numpy for [nDat x (nT - lag)] float64 cells.  Arrays whose
    shape follows from the shape of [xDat] (the [N x N] matrices, the
    products, and an [xLagged] of up to [2 nT] columns, which covers every
    lag from [-nT] on) are taken to fit, as [xDat] itself does.  A lag below
    [-nT] asks for arbitrarily more: numpy then refuses with ValueError a
    request whose size in bytes exceeds the index range, and raises
    MemoryError when the platform cannot provide the memory.  A negative
    number of columns passes here and is refused with ValueError by the
    shape check in [lagged]. *)
Definition max_intp : Z := 2 ^ 63 - 1.

Definition np_full_room (np : numpy) (nDat nT : nat) (lag : Z) : result unit :=
  let ncols := (Z.of_nat nT - lag)%Z in
  if (ncols <=? 2 * Z.of_nat nT)%Z then Ok tt
  else if (max_intp <? 8 * Z.max 1 (Z.of_nat nDat) * ncols)%Z then Raise ValueError
  else if can_allocate np nDat ncols then Ok tt
  else Raise MemoryError.

Definition LIM (np : numpy) (xDat : ndarray) (lag : Z) : result lim_output :=
  ' tt <- np_full_room np (nrow xDat) (ncol xDat) lag ;;
  ' (c0, cT) <- covariances xDat lag ;;
  ic0 <- inv_d np c0 ;;
  let G := np_dot np cT ic0 in
  m <- eigenmodes np G lag ;;
  reconstruct np (nrow xDat) G c0 cT (decay_sort np m).

(** * 7. A reference instance of the library, for diagonal systems *)

(** The order of numpy's sort kernels: ascending, NaN last
    ([npy::double_tag::less] and [npy::cdouble_tag::less]). *)
Definition np_less (a b : float) : bool :=
  (a <? b) || (is_nan b && negb (is_nan a)).

Definition np_cless (a b : complex) : bool :=
  if re a <? re b then negb (is_nan (im a)) || is_nan (im b)
  else if re b <? re a then is_nan (im b) && negb (is_nan (im a))
  else if (re a =? re b) || (is_nan (re a) && is_nan (re b))
       then (im a <? im b) || (is_nan (im b) && negb (is_nan (im a)))
       else is_nan (re b).

(** A stable insertion argsort: index [k] goes before the first index
    whose key is not below the key of [k]. *)
Fixpoint insert_index (below : nat -> nat -> bool) (k : nat) (idx : list nat)
  : list nat :=
  match idx with
  | [] => [k]
  | h :: t => if below h k then h :: insert_index below k t else k :: idx
  end.

Definition argsort_by {A : Type} `{Scalar A} (less : A -> A -> bool) (l : list A)
  : list nat :=
  fold_right (insert_index (fun i j => less (nth i l s_nan) (nth j l s_nan)))
             [] (seq 0 (length l)).

(** The logarithm at the arguments where IEEE 754 and C99 (Annex F and G)
    fix the result exactly, and at [1/2] and [2], where it is [-ln 2] and
    [ln 2] rounded to nearest; every other argument needs libm's rounding
    and is left undetermined ([nan]) by this instance. *)
Definition ln2 : float := 0x1.62e42fefa39efp-1.

Definition ref_log (x : float) : float :=
  if is_nan x then nan
  else if x <? 0 then nan
  else if x =? 0 then neg_infinity
  else if x =? 1 then 0
  else if x =? 0.5 then - ln2
  else if x =? 2 then ln2
  else if x =? infinity then infinity
  else nan.

Definition ref_clog (z : complex) : complex :=
  if (re z =? 1) && (im z =? 0) then Cx 0 (im z)
  else if (re z =? -1) && (im z =? 0)
       then Cx 0 (if Leibniz.eqb (im z) 0 then np_pi else - np_pi)
  else if (re z =? 0) && (im z =? 0)
       then Cx neg_infinity (if Leibniz.eqb (re z) 0 then im z
                             else if Leibniz.eqb (im z) 0 then np_pi else - np_pi)
  else Cx nan nan.

(** LAPACK on a diagonal system: every pivot is a diagonal entry, so the
    matrix is singular exactly when one of them is zero and the inverse is
    the diagonal of reciprocals; the eigenvalues are the diagonal entries
    in order, with the unit vectors as eigenvectors (LAPACK may return some
    of the zero entries as [-0]).  For a 1x1 system this is the whole of
    LAPACK's answer.  Systems that are not diagonal are outside this
    instance and are reported as failures. *)
Definition diag_matrix {A : Type} `{Scalar A} (vals : list A) : matrix A :=
  map (fun i => map (fun j => if Nat.eqb i j then nth i vals s_zero else s_zero)
                    (seq 0 (length vals)))
      (seq 0 (length vals)).

Definition diagonal_of {A : Type} `{Scalar A} (M : matrix A) : list A :=
  map (fun i => entry M i i) (seq 0 (length M)).

Definition is_diagonal {A : Type} `{Scalar A} (is_zero : A -> bool) (M : matrix A)
  : bool :=
  forallb (fun i =>
    Nat.eqb (length (nth i M [])) (length M) &&
    forallb (fun j => Nat.eqb i j || is_zero (entry M i j)) (seq 0 (length M)))
    (seq 0 (length M)).

Definition czero (z : complex) : bool := (re z =? 0) && (im z =? 0).

Definition ref_inv_d (M : matrix float) : result (matrix float) :=
  if is_diagonal (fun x => x =? 0) M
  then if existsb (fun d => d =? 0) (diagonal_of M)
       then Raise (LinAlgError SingularMatrix)
       else Ok (diag_matrix (map (fun d => 1 / d) (diagonal_of M)))
  else Raise (LinAlgError SingularMatrix).

Definition ref_inv_z (M : matrix complex) : result (matrix complex) :=
  if is_diagonal czero M
  then if existsb czero (diagonal_of M)
       then Raise (LinAlgError SingularMatrix)
       else Ok (diag_matrix (map (fun d => cdiv (Cx 1 0) d) (diagonal_of M)))
  else Raise (LinAlgError SingularMatrix).

Definition ref_geev (M : matrix float) : result (list complex * matrix complex) :=
  if is_diagonal (fun x => x =? 0) M
  then Ok (map to_c (diagonal_of M),
           diag_matrix (map (fun _ => Cx 1 0) (diagonal_of M)))
  else Raise (LinAlgError NoConvergence).

(** The product of a row and a column as the scalar path of [np.dot]
    forms it for 1x1 operands, continued in index order for longer rows:
    the first product, then each further product added to it.  The
    machine of this instance holds arrays of up to [2^28] cells. *)
Definition ref_inner {A : Type} `{Scalar A} (a b : list A) : A :=
  match map (fun p => s_mul (fst p) (snd p)) (combine a b) with
  | [] => s_zero
  | p :: ps => fold_left s_add ps p
  end.

Definition ref_dot {A : Type} `{Scalar A} (M1 M2 : matrix A) (i j : nat) : A :=
  ref_inner (nth i M1 []) (mat_col M2 j).

Definition ref_numpy : numpy := {|
  np_log    := ref_log;
  np_clog   := ref_clog;
  inv_d     := ref_inv_d;
  inv_z     := ref_inv_z;
  geev      := ref_geev;
  argsort_d := argsort_by np_less;
  argsort_z := argsort_by np_cless;
  dot_d     := ref_dot;
  dot_z     := ref_dot;
  can_allocate := fun n m => (Z.of_nat n * m <=? 2 ^ 28)%Z
|}.

(** An array literal: [of_rows T rows] has one row per list, [T] columns. *)
Definition of_rows (T : nat) (rows : list (list float)) : ndarray :=
  NdArray (length rows) T (fun i t => nth t (nth i rows []) nan).

(** * 8. Vocabulary of the statements *)

(** The products [x[t] * y[t]] for [t = 0 .. T-1]. *)
Definition products (T : nat) (x y : nat -> float) : list float :=
  map (fun t => x t * y t) (seq 0 T).

(** The pairwise-complete raw second moment of two series of length [T], in
    the words of the specification: the sum of [x t * y t] over exactly the
    positions where both values are finite, divided by the number of such
    positions.  Nothing is centred.

    In binary64 a sum is fixed only up to the order and grouping of its
    additions: [is_float_sum l s] says that [s] is obtained by adding the
    entries of [l], each exactly once and nothing else, in some order and
    grouping; the empty sum is [+0]. *)
Definition both_finite (x y : nat -> float) (t : nat) : bool :=
  is_finite (x t) && is_finite (y t).

Definition complete_products (T : nat) (x y : nat -> float) : list float :=
  map (fun t => x t * y t) (filter (both_finite x y) (seq 0 T)).

Inductive is_float_sum : list float -> float -> Prop :=
| fs_nil : is_float_sum [] 0
| fs_one (x : float) : is_float_sum [x] x
| fs_add (l1 l2 : list float) (s1 s2 : float) :
    is_float_sum l1 s1 -> is_float_sum l2 s2 -> is_float_sum (l1 ++ l2) (s1 + s2)
| fs_perm (l l' : list float) (s : float) :
    Permutation l l' -> is_float_sum l s -> is_float_sum l' s.

(** [zero_dropped l l']: [l'] is [l] without some of its [+0] entries. *)
Inductive zero_dropped : list float -> list float -> Prop :=
| zd_nil : zero_dropped [] []
| zd_keep (x : float) (l l' : list float) :
    zero_dropped l l' -> zero_dropped (x :: l) (x :: l')
| zd_drop (l l' : list float) :
    zero_dropped l l' -> zero_dropped (0 :: l) l'.

Definition is_pairwise_moment (T : nat) (x y : nat -> float) (c : float) : Prop :=
  exists s,
    is_float_sum (complete_products T x y) s /\
    c = s / float_of_count (length (complete_products T x y)).

(** [x] advanced by [k] samples: position [t] holds [x (t + k)]. *)
Definition shifted (k : nat) (x : nat -> float) : nat -> float :=
  fun t => x (t + k)%nat.

(** The pair [(x, y)] has no position where both values are finite. *)
Definition no_overlap (T : nat) (x y : nat -> float) : Prop :=
  forall t, t < T -> both_finite x y t = false.

(** A valid input in the sense of the specification: every sample is a real
    number or the missing-value marker NaN, and [0 < lag < T]. *)
Definition real_or_missing (X : ndarray) : Prop :=
  forall i t, i < nrow X -> t < ncol X ->
    is_finite (cell X i t) || is_nan (cell X i t) = true.

Definition valid_lag (X : ndarray) (lag : Z) : Prop :=
  (0 < lag < Z.of_nat (ncol X))%Z.

(** What numpy documents about the library routines and the theorems
    below rely on: inversion and eigen-decomposition of an [n x n] matrix
    return [n x n] matrices and [n] eigenvalues; [argsort] returns the
    indices [0 .. n-1] in some order, and that order sorts a float64 array
    ascending with NaN last. *)
Definition inv_keeps_shape (np : numpy) : Prop :=
  (forall n M M', is_shape n n M -> inv_d np M = Ok M' -> is_shape n n M') /\
  (forall n M M', is_shape n n M -> inv_z np M = Ok M' -> is_shape n n M').

Definition geev_shapes (np : numpy) : Prop :=
  forall n M w vt,
    is_shape n n M -> geev np M = Ok (w, vt) -> length w = n /\ is_shape n n vt.

Definition argsort_permutes (np : numpy) : Prop :=
  (forall l, Permutation (argsort_d np l) (seq 0 (length l))) /\
  (forall l, Permutation (argsort_z np l) (seq 0 (length l))).

Definition ascending (l : list float) : Prop :=
  StronglySorted (fun a b => np_less b a = false) l.

Definition non_increasing (l : list float) : Prop :=
  StronglySorted (fun a b => np_less a b = false) l.

Definition argsort_sorts (np : numpy) : Prop :=
  forall l, ascending (take (argsort_d np l) l).

(** What is left of [a + (-a)] at one complex entry: [+0] in each part
    that is finite, NaN in each part that is infinite or NaN. *)
Definition cancelled (a : complex) : complex :=
  Cx (if is_finite (re a) then 0 else nan) (if is_finite (im a) then 0 else nan).





(** A NaN or an infinity in a factor reaches every entry of [np.dot] that
    it takes part in: a product with a non-finite factor is not finite,
    and neither is a sum with such a term. *)
Definition dot_spreads_non_finite (np : numpy) : Prop :=
  forall n M1 M2 i j k,
    is_shape n n M1 -> is_shape n n M2 -> i < n -> j < n -> k < n ->
    is_finite (entry M1 i k) = false ->
    is_finite (dot_d np M1 M2 i j) = false.

(** Entry [k] of a vector and entry [(r, k)] of a matrix of either dtype,
    as complex numbers. *)
Definition dv_nth (a : dvec) (k : nat) : complex := nth k (dv_complex a) s_nan.
Definition dm_entry (M : dmat) (r k : nat) : complex := entry (dm_complex M) r k.

(** Whether an array of either dtype is a float64 array. *)
Definition dv_is_real (a : dvec) : bool :=
  match a with VR _ => true | VC _ => false end.
Definition dm_is_real (M : dmat) : bool :=
  match M with MR _ => true | MC _ => false end.

(** [P] is the product [np.dot(M1, M2)]: it has the rows of [M1] and the
    columns of [M2], and its entry [(i, j)] is the one the library
    computes from row [i] of [M1] and column [j] of [M2]. *)
Definition is_dot_d (np : numpy) (M1 M2 P : matrix float) : Prop :=
  is_shape (length M1) (mat_ncols M2) P /\
  forall i j, i < length M1 -> j < mat_ncols M2 ->
    entry P i j = dot_d np M1 M2 i j.

Definition is_dot_z (np : numpy) (M1 M2 P : matrix complex) : Prop :=
  is_shape (length M1) (mat_ncols M2) P /\
  forall i j, i < length M1 -> j < mat_ncols M2 ->
    entry P i j = dot_z np M1 M2 i j.

(** The same at a dtype known at run time: the product of two float64
    matrices is float64, any other product is complex128, a float64 factor
    being cast first. *)
Definition is_dm_dot (np : numpy) (M1 M2 P : dmat) : Prop :=
  match M1, M2, P with
  | MR A, MR B, MR C => is_dot_d np A B C
  | MR _, MR _, MC _ => False
  | _, _, MC C => is_dot_z np (dm_complex M1) (dm_complex M2) C
  | _, _, MR _ => False
  end.

(** [Mt] is the transpose of the [n x n] matrix [M]. *)
Definition is_transpose (n : nat) (M Mt : matrix complex) : Prop :=
  is_shape n n Mt /\
  forall i j, i < n -> j < n -> entry Mt i j = entry M j i.

(** [B] is the [n x n] complex matrix with the entries of [b] on its
    diagonal and [0] elsewhere. *)
Definition is_diagonal_of (n : nat) (b : dvec) (B : matrix complex) : Prop :=
  is_shape n n B /\
  forall i j, i < n -> j < n ->
    entry B i j = if Nat.eqb i j then dv_nth b i else Cx 0 0.

(** The rate the specification asks for: the principal complex logarithm
    of each eigenvalue, divided by the lag. *)
Definition principal_log_rates (np : numpy) (lag : Z) (g : dvec) : list complex :=
  map (fun z => cdiv (np_clog np z) (to_c (float_of_Z lag))) (dv_complex g).

(** The classes of [spec_float] values. *)
Definition SF_finite (s : spec_float) : bool :=
  match s with
  | S754_zero _ | S754_finite _ _ _ => true
  | _ => false
  end.

Definition SF_nan (s : spec_float) : bool :=
  match s with
  | S754_nan => true
  | _ => false
  end.


(** A rank whose lexicographic order is the order of [np_less]. *)
Definition rank (s : spec_float) : Z * Z * Z :=
  match s with
  | S754_nan => (3, 0, 0)
  | S754_infinity true => (-2, 0, 0)
  | S754_infinity false => (2, 0, 0)
  | S754_zero _ => (0, 0, 0)
  | S754_finite false m e => (1, e, Z.pos m)
  | S754_finite true m e => (-1, - e, - Z.pos m)
  end%Z.

Definition lex_ltb (a b : Z * Z * Z) : bool :=
  let '(a1, a2, a3) := a in
  let '(b1, b2, b3) := b in
  ((a1 <? b1) || ((a1 =? b1) && ((a2 <? b2) || ((a2 =? b2) && (a3 <? b3)))))%Z.

(** The input with every sample negated. *)
Definition neg_array (X : ndarray) : ndarray :=
  NdArray (nrow X) (ncol X) (fun i t => - cell X i t).

(** A [spec_float] that is NaN or carries a positive sign. *)
Definition SF_not_neg (s : spec_float) : bool :=
  match s with
  | S754_nan => true
  | S754_zero b | S754_infinity b | S754_finite b _ _ => negb b
  end.

(** A [spec_float] that is not NaN and carries a positive sign: [+0], a
    positive number or [+inf]. *)
Definition SF_plus (s : spec_float) : bool :=
  match s with
  | S754_nan => false
  | S754_zero b | S754_infinity b | S754_finite b _ _ => negb b
  end.

(** What numpy documents for the float64 loop of [np.log]: the logarithm
    of a negative number is NaN. *)
Definition real_log_of_negative (np : numpy) : Prop :=
  forall x, (x <? 0) = true -> is_nan (np_log np x) = true.

(** The NaNs of a list come before everything else. *)
Definition nan_first (l : list float) : Prop :=
  forall i j, i < j -> j < length l ->
    is_nan (nth j l nan) = true -> is_nan (nth i l nan) = true.

(** * 9. Binary64 facts, from the specification of the primitive floats *)

Section Rounding.
Local Open Scope Z_scope.

Lemma digits2_size (p : positive) : digits2_pos p = Pos.size p.
Proof. induction p; simpl; congruence. Qed.

Lemma Zdigits2_bound (z k : Z) : 0 <= k -> 0 <= z < 2 ^ k -> Zdigits2 z <= k.
Proof.
  intros Hk [H0 Hz]. destruct z as [| p | p]; simpl; try lia.
  rewrite digits2_size.
  assert (Hs := Pos.size_le p).
  assert (Hle : 2 ^ Z.pos (Pos.size p) <= 2 * Z.pos p).
  { change (2 * Z.pos p) with (Z.pos p~0). rewrite <- Pos2Z.inj_pow.
    apply Pos2Z.pos_le_pos. exact Hs. }
  assert (Hlt : 2 ^ Z.pos (Pos.size p) < 2 ^ (k + 1)).
  { rewrite (Z.pow_add_r 2 k 1) by lia. lia. }
  apply Z.pow_lt_mono_r_iff in Hlt; lia.
Qed.

Lemma digits2_gt (p : positive) : Z.pos p < 2 ^ Z.pos (digits2_pos p).
Proof.
  rewrite digits2_size, <- Pos2Z.inj_pow. apply Pos2Z.pos_lt_pos, Pos.size_gt.
Qed.

Lemma shr_1_bounds (mrs : shr_record) :
  0 <= shr_m mrs -> 0 <= shr_m (shr_1 mrs) <= shr_m mrs.
Proof.
  destruct mrs as [m r s]. simpl. intros H.
  destruct m as [| p | p]; simpl; try lia.
  destruct p; simpl; lia.
Qed.

Lemma iter_shr_1_bounds (p : positive) (mrs : shr_record) :
  0 <= shr_m mrs -> 0 <= shr_m (iter_pos shr_1 p mrs) <= shr_m mrs.
Proof.
  revert mrs. induction p as [p IH | p IH |]; intros mrs H; simpl.
  - pose proof (shr_1_bounds mrs H) as H1.
    pose proof (IH _ (proj1 H1)) as H2.
    pose proof (IH _ (proj1 H2)) as H3. lia.
  - pose proof (IH _ H) as H2.
    pose proof (IH _ (proj1 H2)) as H3. lia.
  - apply shr_1_bounds, H.
Qed.

Lemma shr_fexp_bounds (prec emax m e : Z) (l : location) :
  0 <= m ->
  let '(mrs, e') := shr_fexp prec emax m e l in
  0 <= shr_m mrs <= m /\ (e' = e \/ e' = fexp prec emax (Zdigits2 m + e)).
Proof.
  intros Hm. unfold shr_fexp, shr.
  assert (Hr : shr_m (shr_record_of_loc m l) = m).
  { destruct l as [| c]; [reflexivity | destruct c; reflexivity]. }
  destruct (fexp prec emax (Zdigits2 m + e) - e) as [| p | p] eqn:E.
  - rewrite Hr. lia.
  - pose proof (iter_shr_1_bounds p (shr_record_of_loc m l)) as H.
    rewrite Hr in H. split; [apply H, Hm | lia].
  - rewrite Hr. lia.
Qed.

Lemma round_nearest_even_bounds (m : Z) (l : location) :
  0 <= m -> m <= round_nearest_even m l <= m + 1.
Proof.
  intros H. destruct l as [| c]; simpl; [lia |].
  destruct c; try lia. destruct (Z.even m); lia.
Qed.

(** Rounding a non-negative mantissa never produces a NaN, and keeps the sign. *)
Lemma binary_round_aux_sign (sx : bool) (mx ex : Z) (lx : location) :
  0 <= mx ->
  match binary_round_aux prec emax sx mx ex lx with
  | S754_zero s | S754_infinity s | S754_finite s _ _ => s = sx
  | S754_nan => False
  end.
Proof.
  intros Hm. unfold binary_round_aux.
  pose proof (shr_fexp_bounds prec emax mx ex lx Hm) as H1.
  destruct (shr_fexp prec emax mx ex lx) as [mrs' e'].
  pose proof (round_nearest_even_bounds (shr_m mrs') (loc_of_shr_record mrs') (proj1 (proj1 H1))) as H2.
  set (m1 := round_nearest_even (shr_m mrs') (loc_of_shr_record mrs')) in *.
  assert (Hm1 : 0 <= m1) by lia.
  pose proof (shr_fexp_bounds prec emax m1 e' loc_Exact Hm1) as H3.
  destruct (shr_fexp prec emax m1 e' loc_Exact) as [mrs'' e''].
  destruct (shr_m mrs'') as [| p | p]; try reflexivity.
  - destruct (e'' <=? emax - prec); reflexivity.
  - lia.
Qed.

(** A mantissa below 2^64 with a non-positive exponent stays in range. *)
Lemma binary_round_aux_small (sx : bool) (mx ex : Z) (lx : location) :
  0 <= mx < 2 ^ 64 -> ex <= 0 ->
  match binary_round_aux prec emax sx mx ex lx with
  | S754_zero s | S754_finite s _ _ => s = sx
  | _ => False
  end.
Proof.
  intros [Hm Hlt] He. unfold binary_round_aux.
  pose proof (shr_fexp_bounds prec emax mx ex lx Hm) as H1.
  pose proof (Zdigits2_bound mx 64 ltac:(lia) (conj Hm Hlt)) as D1.
  destruct (shr_fexp prec emax mx ex lx) as [mrs' e'].
  pose proof (round_nearest_even_bounds (shr_m mrs') (loc_of_shr_record mrs') (proj1 (proj1 H1))) as H2.
  set (m1 := round_nearest_even (shr_m mrs') (loc_of_shr_record mrs')) in *.
  assert (Hm1 : 0 <= m1) by lia.
  assert (D2 : Zdigits2 m1 <= 65).
  { apply Zdigits2_bound; [lia |]. change (2 ^ 65) with (2 * 2 ^ 64). lia. }
  pose proof (shr_fexp_bounds prec emax m1 e' loc_Exact Hm1) as H3.
  destruct (shr_fexp prec emax m1 e' loc_Exact) as [mrs'' e''].
  unfold fexp, SpecFloat.emin, prec, emax in *.
  destruct (shr_m mrs'') as [| p | p]; try reflexivity.
  - destruct (Z.leb_spec e'' (1024 - 53)); [reflexivity | lia].
  - lia.
Qed.

Lemma iter_xO_value (m : positive) (k : positive) :
  Z.pos (Pos.iter xO m k) = Z.pos m * 2 ^ Z.pos k.
Proof.
  induction k as [| k IH] using Pos.peano_ind.
  - simpl. lia.
  - rewrite Pos.iter_succ, Pos2Z.inj_succ, Z.pow_succ_r by lia.
    rewrite Pos2Z.inj_xO, IH. lia.
Qed.

Lemma binary_normalize_nonneg (z : Z) :
  0 <= z < 2 ^ 63 ->
  match binary_normalize prec emax z 0 false with
  | S754_zero s | S754_finite s _ _ => s = false
  | _ => False
  end.
Proof.
  intros [H0 Hlt]. destruct z as [| m | m]; try lia; [reflexivity |].
  unfold binary_normalize, binary_round.
  pose proof (digits2_gt m) as Hd.
  remember (Z.pos (digits2_pos m)) as D eqn:HD.
  assert (HD1 : 1 <= D) by lia.
  assert (Hf : fexp prec emax (D + 0) = D - 53).
  { unfold fexp, SpecFloat.emin, prec, emax. lia. }
  rewrite Hf. unfold shl_align.
  destruct (D - 53 - 0) as [| d | d] eqn:Ed;
    apply binary_round_aux_small; try lia.
  split; [lia |]. rewrite iter_xO_value.
  assert (Hpow : 2 ^ D * 2 ^ Z.pos d = 2 ^ 53).
  { rewrite <- Z.pow_add_r by lia. f_equal. lia. }
  assert (0 < 2 ^ Z.pos d) by (apply Z.pow_pos_nonneg; lia).
  change (2 ^ 64) with (2048 * 2 ^ 53). nia.
Qed.






End Rounding.

Lemma SFcompare_refl (s : spec_float) :
  s <> S754_nan -> SFcompare s s = Some Eq.
Proof.
  destruct s as [b | b | | b m e]; simpl; intros H; try congruence.
  - destruct b; reflexivity.
  - rewrite Z.compare_refl, Pos.compare_cont_refl. destruct b; reflexivity.
Qed.

Lemma is_nan_SF (x : float) : is_nan x = SF_nan (Prim2SF x).
Proof.
  unfold is_nan. rewrite FloatAxioms.eqb_spec. unfold SFeqb.
  destruct (Prim2SF x) as [b | b | | b m e] eqn:E; try reflexivity;
    rewrite SFcompare_refl by discriminate; reflexivity.
Qed.

Lemma is_finite_spec (x : float) : is_finite x = SF_finite (Prim2SF x).
Proof.
  unfold is_finite, is_infinity, is_nan.
  rewrite !FloatAxioms.eqb_spec, abs_spec.
  change (Prim2SF infinity) with (S754_infinity false). unfold SFeqb.
  destruct (Prim2SF x) as [b | b | | b m e]; simpl; try reflexivity.
  - destruct b; reflexivity.
  - rewrite Z.compare_refl, Pos.compare_cont_refl. destruct b; reflexivity.
Qed.

Lemma mul_comm (x y : float) : x * y = y * x.
Proof.
  apply Prim2SF_inj. rewrite !mul_spec. unfold SF64mul.
  destruct (Prim2SF x) as [a | a | | a m e], (Prim2SF y) as [b | b | | b n f];
    simpl; try reflexivity; try (rewrite xorb_comm; reflexivity).
  rewrite xorb_comm, Pos.mul_comm, Z.add_comm. reflexivity.
Qed.

Lemma mul_nan_l (x y : float) : is_nan x = true -> x * y = nan.
Proof.
  rewrite is_nan_SF. intros H. apply Prim2SF_inj. rewrite mul_spec.
  destruct (Prim2SF x); try discriminate. reflexivity.
Qed.

Lemma mul_nan_r (x y : float) : is_nan y = true -> x * y = nan.
Proof. intros H. rewrite mul_comm. now apply mul_nan_l. Qed.

Lemma mul_finite_not_nan (x y : float) :
  is_finite x = true -> is_finite y = true -> is_nan (x * y) = false.
Proof.
  rewrite !is_finite_spec, is_nan_SF, mul_spec. unfold SF64mul.
  destruct (Prim2SF x) as [a | a | | a m e], (Prim2SF y) as [b | b | | b n f];
    simpl; try discriminate; try reflexivity; intros _ _.
  pose proof (binary_round_aux_sign (xorb a b) (Z.pos (m * n)) (e + f) loc_Exact
                ltac:(lia)) as H.
  destruct (binary_round_aux prec emax (xorb a b) (Z.pos (m * n)) (e + f) loc_Exact);
    simpl; tauto.
Qed.

Lemma add_nan_l (x y : float) : is_nan x = true -> x + y = nan.
Proof.
  rewrite is_nan_SF. intros H. apply Prim2SF_inj. rewrite add_spec.
  destruct (Prim2SF x); try discriminate. reflexivity.
Qed.

Lemma add_not_finite_l (x y : float) :
  is_finite x = false -> is_finite (x + y) = false.
Proof.
  rewrite !is_finite_spec, add_spec. unfold SF64add.
  destruct (Prim2SF x) as [a | a | | a m e]; simpl; try discriminate; intros _.
  - destruct (Prim2SF y) as [b | b | | b n f]; simpl; try reflexivity.
    destruct a, b; reflexivity.
  - reflexivity.
Qed.

Lemma add_not_finite_r (x y : float) :
  is_finite y = false -> is_finite (x + y) = false.
Proof.
  rewrite !is_finite_spec, add_spec. unfold SF64add.
  destruct (Prim2SF y) as [b | b | | b n f]; simpl; try discriminate; intros _.
  - destruct (Prim2SF x) as [a | a | | a m e]; simpl; try reflexivity.
    destruct a, b; reflexivity.
  - destruct (Prim2SF x) as [a | a | | a m e]; reflexivity.
Qed.

(** A finite value and its negation cancel to [+0] exactly. *)
Lemma add_opp_diag (x : float) : is_finite x = true -> x + - x = 0.
Proof.
  rewrite is_finite_spec. intros H. apply Prim2SF_inj.
  rewrite add_spec, opp_spec. change (Prim2SF 0) with (S754_zero false).
  unfold SF64add.
  destruct (Prim2SF x) as [a | a | | a m e]; simpl in *; try discriminate.
  - destruct a; reflexivity.
  - rewrite Z.min_id. unfold shl_align. rewrite Z.sub_diag. simpl.
    destruct a; simpl; rewrite ?Z.pos_sub_diag; reflexivity.
Qed.

(** Without finiteness the cancellation fails with a NaN. *)
Lemma add_opp_not_finite (x : float) : is_finite x = false -> x + - x = nan.
Proof.
  rewrite is_finite_spec. intros H. apply Prim2SF_inj.
  rewrite add_spec, opp_spec. unfold SF64add.
  destruct (Prim2SF x) as [a | a | | a m e]; simpl in *; try discriminate.
  - destruct a; reflexivity.
  - reflexivity.
Qed.

(** A count converts to [+0] or to a positive finite float. *)
Lemma float_of_count_spec (n : nat) :
  match Prim2SF (float_of_count n) with
  | S754_zero s | S754_finite s _ _ => s = false
  | _ => False
  end.
Proof.
  unfold float_of_count, float_of_Z.
  destruct (Z.ltb_spec (Z.of_nat n) 0) as [H | _]; [lia |].
  rewrite of_uint63_spec. apply binary_normalize_nonneg.
  apply Uint63.to_Z_bounded.
Qed.

Lemma div_count_not_finite (a : float) (n : nat) :
  is_finite a = false -> a / float_of_count n = a.
Proof.
  rewrite is_finite_spec. intros H. apply Prim2SF_inj. rewrite div_spec.
  pose proof (float_of_count_spec n) as Hc. unfold SF64div.
  destruct (Prim2SF a) as [s | s | | s m e]; simpl in H; try discriminate;
    destruct (Prim2SF (float_of_count n)) as [c | c | | c k f]; simpl;
    try tauto; subst c; rewrite xorb_false_r; reflexivity.
Qed.

Section Order.
Local Open Scope Z_scope.

Lemma np_less_rank (a b : float) :
  np_less a b = lex_ltb (rank (Prim2SF a)) (rank (Prim2SF b)).
Proof.
  unfold np_less. rewrite ltb_spec, !is_nan_SF. unfold SFltb.
  destruct (Prim2SF a) as [s | s | | s m e], (Prim2SF b) as [t | t | | t n f];
    simpl; try (destruct s); try (destruct t); try reflexivity.
  all: unfold lex_ltb; rewrite Pos.compare_cont_spec; simpl;
    change (Pos.compare m n) with (Z.compare (Z.pos m) (Z.pos n));
    destruct (Z.compare_spec e f), (Z.compare_spec (Z.pos m) (Z.pos n)); simpl;
    repeat match goal with
           | |- context [Z.ltb ?a ?b] => destruct (Z.ltb_spec a b)
           | |- context [Z.eqb ?a ?b] => destruct (Z.eqb_spec a b)
           end; simpl; try reflexivity; try lia.
Qed.

Lemma lex_ltb_spec (a b : Z * Z * Z) :
  lex_ltb a b = true <->
  fst (fst a) < fst (fst b) \/
  (fst (fst a) = fst (fst b) /\
   (snd (fst a) < snd (fst b) \/ (snd (fst a) = snd (fst b) /\ snd a < snd b))).
Proof.
  destruct a as [[a1 a2] a3], b as [[b1 b2] b3]. unfold lex_ltb. simpl.
  rewrite !orb_true_iff, !andb_true_iff, !orb_true_iff, !andb_true_iff,
    !Z.ltb_lt, !Z.eqb_eq.
  reflexivity.
Qed.

Lemma np_less_asym (a b : float) : np_less a b = true -> np_less b a = false.
Proof.
  rewrite !np_less_rank. intros H. apply not_true_is_false. revert H.
  rewrite !lex_ltb_spec. lia.
Qed.

Lemma np_less_negtrans (a b c : float) :
  np_less b a = false -> np_less c b = false -> np_less c a = false.
Proof.
  rewrite !np_less_rank. intros H1 H2.
  apply not_true_iff_false in H1, H2. apply not_true_is_false.
  revert H1 H2. rewrite !lex_ltb_spec. lia.
Qed.
End Order.

(** * 10. The error monad and list plumbing *)

Lemma bind_ok_inv {A B : Type} (r : result A) (k : A -> result B) (b : B) :
  bind r k = Ok b -> exists a, r = Ok a /\ k a = Ok b.
Proof. destruct r as [a | e]; simpl; intros H; [now exists a | discriminate]. Qed.

Lemma mapM_length {A B : Type} (f : A -> result B) (l : list A) (bs : list B) :
  mapM f l = Ok bs -> length bs = length l.
Proof.
  revert bs. induction l as [| a l IH]; simpl; intros bs H.
  - inversion H. reflexivity.
  - apply bind_ok_inv in H. destruct H as [b [_ H]].
    apply bind_ok_inv in H. destruct H as [bs' [Hbs H]].
    inversion H. simpl. now rewrite (IH _ Hbs).
Qed.

Lemma mapM_nth {A B : Type} (f : A -> result B) (l : list A) (bs : list B)
    (da : A) (db : B) (i : nat) :
  mapM f l = Ok bs -> i < length l -> f (nth i l da) = Ok (nth i bs db).
Proof.
  revert bs i. induction l as [| a l IH]; simpl; intros bs i H Hi; [lia |].
  apply bind_ok_inv in H. destruct H as [b [Hb H]].
  apply bind_ok_inv in H. destruct H as [bs' [Hbs H]].
  inversion H. subst bs. destruct i as [| i]; simpl; [exact Hb |].
  apply IH; [exact Hbs | lia].
Qed.

Lemma mapM_ok {A B : Type} (f : A -> result B) (g : A -> B) (l : list A) :
  (forall a, In a l -> f a = Ok (g a)) -> mapM f l = Ok (map g l).
Proof.
  induction l as [| a l IH]; simpl; intros H; [reflexivity |].
  rewrite (H a) by now left. simpl. rewrite IH by (intros; apply H; now right).
  reflexivity.
Qed.

Lemma combine_map_seq {A B : Type} (f : nat -> A) (g : nat -> B) (l : list nat) :
  combine (map f l) (map g l) = map (fun t => (f t, g t)) l.
Proof. induction l as [| a l IH]; simpl; [reflexivity | now rewrite IH]. Qed.

Lemma filter_map_length {A B : Type} (p : B -> bool) (f : A -> B) (l : list A) :
  length (filter p (map f l)) = length (filter (fun a => p (f a)) l).
Proof.
  induction l as [| a l IH]; simpl; [reflexivity |].
  destruct (p (f a)); simpl; now rewrite IH.
Qed.

Lemma filter_ext_length {A : Type} (p q : A -> bool) (l : list A) :
  (forall a, In a l -> p a = q a) ->
  length (filter p l) = length (filter q l).
Proof.
  intros H. rewrite (filter_ext_in p q l H). reflexivity.
Qed.

Lemma nth_map_map {A B : Type} (f : A -> B) (cells : list (list A))
    (i j : nat) (da : A) :
  nth j (nth i (map (map f) cells) []) (f da) = f (nth j (nth i cells []) da).
Proof.
  change (@nil B) with (map f []). now rewrite !map_nth.
Qed.

Lemma nth_map_nan (f : float -> float) (l : list float) (k : nat) :
  f nan = nan -> nth k (map f l) nan = f (nth k l nan).
Proof.
  intros E. transitivity (nth k (map f l) (f nan)); [now rewrite E | apply map_nth].
Qed.

Lemma nth_map_seq {B : Type} (f : nat -> B) (n j : nat) (d : B) :
  j < n -> nth j (map f (seq 0 n)) d = f j.
Proof.
  intros Hj. rewrite (nth_indep _ d (f O)) by now rewrite length_map, length_seq.
  rewrite (map_nth f (seq 0 n) O j). now rewrite seq_nth.
Qed.

Lemma nth_map_in_range {A B : Type} (f : A -> B) (l : list A) (k : nat)
    (da : A) (db : B) :
  k < length l -> nth k (map f l) db = f (nth k l da).
Proof.
  intros Hk. rewrite (nth_indep _ db (f da)) by now rewrite length_map.
  apply map_nth.
Qed.

(** * 11. Sums of floats *)

(** Adding to [-0] changes nothing; adding to [+0] changes only [-0]. *)
Lemma add_negzero_l (x : float) : - 0 + x = x.
Proof.
  apply Prim2SF_inj. rewrite add_spec.
  change (Prim2SF (- 0)) with (S754_zero true). unfold SF64add, SFadd.
  destruct (Prim2SF x) as [b | b | | b m e]; try reflexivity.
  destruct b; reflexivity.
Qed.

Lemma add_zero_l (x : float) : Prim2SF x <> S754_zero true -> 0 + x = x.
Proof.
  intros H. apply Prim2SF_inj. rewrite add_spec.
  change (Prim2SF 0) with (S754_zero false). unfold SF64add, SFadd.
  destruct (Prim2SF x) as [b | b | | b m e]; try reflexivity.
  destruct b; [congruence | reflexivity].
Qed.

(** ** What every order of summation has in common *)

Lemma float_sum_closed (P : float -> Prop) (l : list float) (s : float) :
  P 0 -> (forall x y, P x -> P y -> P (x + y)) ->
  is_float_sum l s -> (forall x, In x l -> P x) -> P s.
Proof.
  intros P0 Padd Hs. induction Hs as [| x | l1 l2 s1 s2 _ IH1 _ IH2 | l l' s Hp _ IH];
    intros Hl.
  - exact P0.
  - apply Hl. now left.
  - apply Padd; [apply IH1 | apply IH2]; intros x Hx; apply Hl, in_or_app; tauto.
  - apply IH. intros x Hx. apply Hl. exact (Permutation_in x Hp Hx).
Qed.

Lemma float_sum_not_finite (l : list float) (s : float) :
  is_float_sum l s -> (exists x, In x l /\ is_finite x = false) ->
  is_finite s = false.
Proof.
  intros Hs. induction Hs as [| x | l1 l2 s1 s2 _ IH1 _ IH2 | l l' s Hp _ IH];
    intros [y [Hin Hy]].
  - destruct Hin.
  - destruct Hin as [<- | []]. exact Hy.
  - apply in_app_or in Hin. destruct Hin as [Hin | Hin].
    + apply add_not_finite_l, IH1. now exists y.
    + apply add_not_finite_r, IH2. now exists y.
  - apply IH. exists y. split; [| exact Hy].
    exact (Permutation_in y (Permutation_sym Hp) Hin).
Qed.

Lemma float_sum_fold (l la : list float) (a : float) :
  is_float_sum la a -> is_float_sum (la ++ l) (fold_left PrimFloat.add l a).
Proof.
  revert la a. induction l as [| x l IH]; intros la a Ha; simpl.
  - now rewrite app_nil_r.
  - replace (la ++ x :: l) with ((la ++ [x]) ++ l)
      by (rewrite <- app_assoc; reflexivity).
    apply IH. apply fs_add; [exact Ha | apply fs_one].
Qed.

(** An entry [+0] may be left out: the empty sum is [+0] as well. *)
Lemma zero_dropped_app_inv (l1 l2 l' : list float) :
  zero_dropped (l1 ++ l2) l' ->
  exists l1' l2', l' = l1' ++ l2' /\ zero_dropped l1 l1' /\ zero_dropped l2 l2'.
Proof.
  revert l'. induction l1 as [| x l1 IH]; simpl; intros l' H.
  - exists [], l'. repeat split; [constructor | exact H].
  - inversion H as [| ? ? l0 H0 | ? l0 H0]; subst.
    + destruct (IH _ H0) as [l1' [l2' [-> [H1 H2]]]].
      exists (x :: l1'), l2'. repeat split; [now constructor | exact H2].
    + destruct (IH _ H0) as [l1' [l2' [-> [H1 H2]]]].
      exists l1', l2'. repeat split; [now constructor | exact H2].
Qed.

Lemma zero_dropped_perm (l l2 : list float) :
  Permutation l l2 ->
  forall l', zero_dropped l2 l' ->
  exists l0, zero_dropped l l0 /\ Permutation l0 l'.
Proof.
  induction 1 as [| x l1 l3 _ IH | x y l1 | l1 l3 l4 _ IH1 _ IH2]; intros l' H.
  - inversion H; subst. exists []. split; constructor.
  - inversion H as [| ? ? l0 H0 | ? l0 H0]; subst.
    + destruct (IH _ H0) as [l1' [Hz Hp]].
      exists (x :: l1'). split; [now constructor | now constructor].
    + destruct (IH _ H0) as [l1' [Hz Hp]].
      exists l1'. split; [now constructor | exact Hp].
  - inversion H as [| ? ? l0 H0 | ? l0 H0]; subst;
      inversion H0 as [| ? ? l5 H5 | ? l5 H5]; subst.
    + exists (y :: x :: l5). split; [now repeat constructor | apply perm_swap].
    + eexists. split; [apply zd_drop, zd_keep; eassumption | apply Permutation_refl].
    + eexists. split; [apply zd_keep, zd_drop; eassumption | apply Permutation_refl].
    + eexists. split; [apply zd_drop, zd_drop; eassumption | apply Permutation_refl].
  - destruct (IH2 _ H) as [l0 [Hz Hp]].
    destruct (IH1 _ Hz) as [l00 [Hz' Hp']].
    exists l00. split; [exact Hz' | eapply perm_trans; eassumption].
Qed.

Lemma float_sum_drop_zeros (l : list float) (s : float) :
  is_float_sum l s -> forall l', zero_dropped l l' -> is_float_sum l' s.
Proof.
  intros Hs. induction Hs as [| x | l1 l2 s1 s2 _ IH1 _ IH2 | l l2 s Hp _ IH];
    intros l' Hz.
  - inversion Hz; subst. apply fs_nil.
  - inversion Hz as [| ? ? l0 H0 | ? l0 H0]; subst; inversion H0; subst.
    + apply fs_one.
    + apply fs_nil.
  - destruct (zero_dropped_app_inv _ _ _ Hz) as [l1' [l2' [-> [H1 H2]]]].
    apply fs_add; [now apply IH1 | now apply IH2].
  - destruct (zero_dropped_perm _ _ Hp _ Hz) as [l0 [Hz0 Hp0]].
    apply (fs_perm l0); [exact Hp0 | now apply IH].
Qed.

(** ** numpy's order is one of them *)

Lemma add8_sums (Ls : list (list float)) (r a : list float) :
  Forall2 is_float_sum Ls r -> length a = length r ->
  Forall2 is_float_sum (map (fun p => fst p ++ [snd p]) (combine Ls a)) (add8 r a).
Proof.
  intros H. revert a. unfold add8.
  induction H as [| L x Ls r HL _ IH]; intros [| y a] Hlen; simpl in *;
    try discriminate; constructor.
  - apply fs_add; [exact HL | apply fs_one].
  - apply IH. lia.
Qed.

Lemma concat_append_each (Ls : list (list float)) (a : list float) :
  length Ls = length a ->
  Permutation (concat (map (fun p => fst p ++ [snd p]) (combine Ls a)))
              (concat Ls ++ a).
Proof.
  revert a. induction Ls as [| L Ls IH]; intros [| x a] Hlen; simpl in *;
    try discriminate; [constructor |].
  rewrite <- !app_assoc. apply Permutation_app_head. simpl.
  eapply perm_trans; [apply perm_skip, IH; lia |].
  apply Permutation_middle.
Qed.

Lemma blocks8_sums (k : nat) :
  forall (Ls : list (list float)) (r l r' rest : list float),
    Forall2 is_float_sum Ls r -> length r = 8%nat -> (8 * k <= length l)%nat ->
    blocks8 k r l = (r', rest) ->
    exists Ls',
      Forall2 is_float_sum Ls' r' /\ length r' = 8%nat /\
      Permutation (concat Ls' ++ rest) (concat Ls ++ l).
Proof.
  induction k as [| k IH]; intros Ls r l r' rest HF Hr Hl E; simpl in E.
  - injection E as <- <-. exists Ls. repeat split; [exact HF | exact Hr |].
    apply Permutation_refl.
  - assert (Ha : length (firstn 8 l) = 8%nat) by (rewrite length_firstn; lia).
    assert (HLs : length Ls = 8%nat) by (rewrite (Forall2_length HF); exact Hr).
    assert (Hr1 : length (add8 r (firstn 8 l)) = 8%nat)
      by (unfold add8; rewrite length_map, length_combine; lia).
    assert (Hl1 : (8 * k <= length (skipn 8 l))%nat)
      by (rewrite length_skipn; lia).
    destruct (IH _ (add8 r (firstn 8 l)) (skipn 8 l) r' rest
                (add8_sums Ls r (firstn 8 l) HF ltac:(lia)) Hr1 Hl1 E)
      as [Ls' [HF' [Hr' Hp]]].
    exists Ls'. repeat split; [exact HF' | exact Hr' |].
    eapply perm_trans; [exact Hp |].
    rewrite <- (firstn_skipn 8 l) at 3. rewrite app_assoc.
    apply Permutation_app_tail, concat_append_each. lia.
Qed.

Lemma reduce8_sum (Ls : list (list float)) (r : list float) :
  Forall2 is_float_sum Ls r -> length r = 8%nat ->
  is_float_sum (concat Ls) (reduce8 r).
Proof.
  intros HF Hr.
  destruct r as [| r0 [| r1 [| r2 [| r3 [| r4 [| r5 [| r6 [| r7 [| ? ?]]]]]]]]];
    try discriminate.
  inversion HF as [| L0 ? Ls0 ? H0 F0]; subst.
  inversion F0 as [| L1 ? Ls1 ? H1 F1]; subst.
  inversion F1 as [| L2 ? Ls2 ? H2 F2]; subst.
  inversion F2 as [| L3 ? Ls3 ? H3 F3]; subst.
  inversion F3 as [| L4 ? Ls4 ? H4 F4]; subst.
  inversion F4 as [| L5 ? Ls5 ? H5 F5]; subst.
  inversion F5 as [| L6 ? Ls6 ? H6 F6]; subst.
  inversion F6 as [| L7 ? Ls7 ? H7 F7]; subst.
  inversion F7; subst.
  replace (concat [L0; L1; L2; L3; L4; L5; L6; L7])
    with (((L0 ++ L1) ++ (L2 ++ L3)) ++ ((L4 ++ L5) ++ (L6 ++ L7)))
    by (simpl; rewrite app_nil_r, <- !app_assoc; reflexivity).
  unfold reduce8. simpl.
  repeat apply fs_add; assumption.
Qed.

Lemma concat_singletons (a : list float) : concat (map (fun x => [x]) a) = a.
Proof. induction a as [| x a IH]; simpl; [reflexivity | now rewrite IH]. Qed.

Lemma unrolled_sum_float_sum (l : list float) :
  (8 <= length l)%nat -> is_float_sum l (unrolled_sum l).
Proof.
  intros Hn. unfold unrolled_sum.
  destruct (blocks8 (length l / 8 - 1) (firstn 8 l) (skipn 8 l)) as [r rest] eqn:E.
  assert (H0 : Forall2 is_float_sum (map (fun x => [x]) (firstn 8 l)) (firstn 8 l)).
  { generalize (firstn 8 l). intros a. induction a; simpl; constructor;
      [apply fs_one | assumption]. }
  assert (Hdiv : (8 * (length l / 8) <= length l)%nat)
    by (apply Nat.Div0.mul_div_le).
  assert (Hr0 : length (firstn 8 l) = 8%nat) by (rewrite length_firstn; lia).
  assert (Hl0 : (8 * (length l / 8 - 1) <= length (skipn 8 l))%nat)
    by (rewrite length_skipn; lia).
  destruct (blocks8_sums _ _ _ _ _ _ H0 Hr0 Hl0 E) as [Ls [HF [Hr Hp]]].
  apply (fs_perm (concat Ls ++ rest)).
  - eapply perm_trans; [exact Hp |].
    rewrite concat_singletons, firstn_skipn. apply Permutation_refl.
  - apply float_sum_fold, reduce8_sum; assumption.
Qed.

Lemma pairwise_sum_rec_eq (fuel : nat) (l : list float) :
  pairwise_sum_rec fuel l =
  if (length l <? 8)%nat then fold_left PrimFloat.add l (- 0)
  else if (length l <=? 128)%nat then unrolled_sum l
  else match fuel with
       | O => unrolled_sum l
       | S fuel' =>
           let n2 := (length l / 2 - (length l / 2) mod 8)%nat in
           pairwise_sum_rec fuel' (firstn n2 l) + pairwise_sum_rec fuel' (skipn n2 l)
       end.
Proof. destruct fuel; reflexivity. Qed.

Lemma split_point (n : nat) :
  (128 < n)%nat ->
  (1 <= n / 2 - (n / 2) mod 8 /\ n / 2 - (n / 2) mod 8 < n)%nat.
Proof.
  intros Hn.
  pose proof (Nat.mod_upper_bound (n / 2) 8 ltac:(lia)) as Hm.
  pose proof (Nat.Div0.mul_div_le n 2) as Hd.
  pose proof (Nat.mul_succ_div_gt n 2 ltac:(lia)) as Hu.
  lia.
Qed.

Lemma pairwise_sum_rec_float_sum (fuel : nat) :
  forall l, l <> [] -> is_float_sum l (pairwise_sum_rec fuel l).
Proof.
  induction fuel as [| fuel IH]; intros l Hl; rewrite pairwise_sum_rec_eq.
  - destruct (Nat.ltb_spec (length l) 8) as [H8 | H8].
    + destruct l as [| x l]; [congruence |]. simpl. rewrite add_negzero_l.
      apply (float_sum_fold l [x] x), fs_one.
    + destruct (length l <=? 128)%nat; now apply unrolled_sum_float_sum.
  - destruct (Nat.ltb_spec (length l) 8) as [H8 | H8].
    + destruct l as [| x l]; [congruence |]. simpl. rewrite add_negzero_l.
      apply (float_sum_fold l [x] x), fs_one.
    + destruct (Nat.leb_spec (length l) 128) as [H128 | H128];
        [now apply unrolled_sum_float_sum |].
      cbv zeta. destruct (split_point (length l) H128) as [Hlo Hhi].
      set (n2 := (length l / 2 - (length l / 2) mod 8)%nat) in *.
      rewrite <- (firstn_skipn n2 l) at 1.
      apply fs_add; apply IH; intros E;
        apply (f_equal (@length float)) in E;
        rewrite ?length_firstn, ?length_skipn in E; simpl in E; lia.
Qed.

(** [np.sum] adds every entry of the array exactly once and nothing else. *)
Lemma np_sum_float_sum (l : list float) : is_float_sum l (np_sum l).
Proof.
  unfold np_sum, pairwise_sum. destruct l as [| x l].
  - apply fs_nil.
  - apply (fs_add [] (x :: l)); [apply fs_nil |].
    now apply pairwise_sum_rec_float_sum.
Qed.

(** [np.nansum] adds the entries that are not NaN, each exactly once. *)
Lemma replace_nan_dropped (p : list float) :
  zero_dropped (map replace_nan p) (filter (fun x => negb (is_nan x)) p).
Proof.
  induction p as [| x p IH]; simpl; [constructor |].
  unfold replace_nan at 1. destruct (is_nan x); simpl; now constructor.
Qed.

Lemma np_nansum_float_sum (p : list float) :
  is_float_sum (filter (fun x => negb (is_nan x)) p) (np_nansum p).
Proof.
  unfold np_nansum.
  exact (float_sum_drop_zeros _ _ (np_sum_float_sum _) _ (replace_nan_dropped p)).
Qed.

Lemma np_sum_not_finite (l : list float) :
  (exists x, In x l /\ is_finite x = false) -> is_finite (np_sum l) = false.
Proof. apply float_sum_not_finite, np_sum_float_sum. Qed.

Lemma np_sum_zeros (l : list float) :
  (forall x, In x l -> x = 0) -> np_sum l = 0.
Proof.
  intros H.
  apply (float_sum_closed (fun s => s = 0) l (np_sum l)); try assumption.
  - reflexivity.
  - intros x y -> ->. reflexivity.
  - apply np_sum_float_sum.
Qed.

(** ** The fuel and the starting zero *)

Lemma pairwise_sum_rec_fuel (f1 : nat) :
  forall (f2 : nat) (l : list float),
    (length l <= f1)%nat -> (length l <= f2)%nat ->
    pairwise_sum_rec f1 l = pairwise_sum_rec f2 l.
Proof.
  induction f1 as [| f1 IH]; intros f2 l H1 H2; rewrite !pairwise_sum_rec_eq.
  - destruct (Nat.ltb_spec (length l) 8); [reflexivity | lia].
  - destruct (Nat.ltb_spec (length l) 8); [reflexivity |].
    destruct (Nat.leb_spec (length l) 128) as [H128 | H128]; [reflexivity |].
    destruct f2 as [| f2]; [lia |]. cbv zeta.
    destruct (split_point (length l) H128) as [Hlo Hhi].
    f_equal; apply IH; rewrite ?length_firstn, ?length_skipn; lia.
Qed.

(** Above 128 entries the array is split at [n/2] rounded down to a
    multiple of 8, whatever the fuel: the length is always enough. *)
Lemma pairwise_sum_unfold (l : list float) :
  (128 < length l)%nat ->
  let n2 := (length l / 2 - (length l / 2) mod 8)%nat in
  pairwise_sum l = pairwise_sum (firstn n2 l) + pairwise_sum (skipn n2 l).
Proof.
  intros H128 n2. unfold pairwise_sum at 1.
  rewrite (pairwise_sum_rec_fuel (length l) (S (length l)) l) by lia.
  rewrite pairwise_sum_rec_eq.
  destruct (Nat.ltb_spec (length l) 8); [lia |].
  destruct (Nat.leb_spec (length l) 128); [lia |].
  cbv zeta. fold n2.
  destruct (split_point (length l) H128) as [Hlo Hhi]. fold n2 in Hlo, Hhi.
  unfold pairwise_sum.
  f_equal; apply pairwise_sum_rec_fuel;
    rewrite ?length_firstn, ?length_skipn; lia.
Qed.

Lemma np_sum_short_start (l : list float) :
  0 + fold_left PrimFloat.add l (- 0) = 0 + fold_left PrimFloat.add l 0.
Proof.
  induction l as [| x l IH]; simpl; [reflexivity |].
  rewrite add_negzero_l.
  destruct (Prim2SF x) as [b | b | | b m e] eqn:E;
    try (rewrite (add_zero_l x) by (rewrite E; discriminate); reflexivity).
  destruct b.
  - assert (Hx : x = - 0) by (apply Prim2SF_inj; rewrite E; reflexivity).
    subst x. change (0 + - 0) with 0. exact IH.
  - rewrite (add_zero_l x) by (rewrite E; discriminate). reflexivity.
Qed.

(** * 12. STEP 1: what [covariances] computes *)

Lemma np_multiply_same (T : nat) (x y : nat -> float) :
  np_multiply (map x (seq 0 T)) (map y (seq 0 T)) = Ok (products T x y).
Proof.
  unfold np_multiply. rewrite !length_map, Nat.eqb_refl, combine_map_seq, map_map.
  reflexivity.
Qed.

Lemma column_transpose (X : ndarray) (j : nat) :
  column (np_transpose X) j = row X j.
Proof. reflexivity. Qed.

(** The contemporaneous product is always defined: both operands have
    length [T]. *)
Lemma cov_cell_inv (X xl : ndarray) (lag : Z) (i j : nat) (a b : float) :
  cov_cell X (np_transpose X) xl lag i j = Ok (a, b) ->
  a = nan_mean (products (ncol X) (cell X i) (cell X j)) /\
  exists pT,
    np_multiply (row xl i)
      (firstn (slice_stop (ncol X) (- lag)) (row X j)) = Ok pT /\
    b = nan_mean pT.
Proof.
  unfold cov_cell. rewrite column_transpose. unfold row at 1 2.
  rewrite np_multiply_same. simpl. intros H.
  apply bind_ok_inv in H. destruct H as [pT [HpT H]]. inversion H.
  split; [reflexivity |]. exists pT. split; [exact HpT | reflexivity].
Qed.

Lemma covariances_inv (X : ndarray) (lag : Z) (c0 cT : matrix float) :
  covariances X lag = Ok (c0, cT) ->
  exists xl,
    lagged X lag = Ok xl /\
    is_shape (nrow X) (nrow X) c0 /\ is_shape (nrow X) (nrow X) cT /\
    forall i j, i < nrow X -> j < nrow X ->
      cov_cell X (np_transpose X) xl lag i j = Ok (entry c0 i j, entry cT i j).
Proof.
  unfold covariances. intros H.
  apply bind_ok_inv in H. destruct H as [xl [Hxl H]].
  apply bind_ok_inv in H. destruct H as [cells [Hcells H]].
  inversion H. subst c0 cT. clear H. exists xl. split; [exact Hxl |].
  pose proof (mapM_length _ _ _ Hcells) as Hlen. rewrite length_seq in Hlen.
  assert (Hrows : forall i, i < nrow X ->
            mapM (fun iC => cov_cell X (np_transpose X) xl lag i iC)
                 (seq 0 (nrow X)) = Ok (nth i cells [])).
  { intros i Hi.
    pose proof (mapM_nth _ _ _ O [] i Hcells) as Hn.
    rewrite length_seq, seq_nth in Hn by exact Hi. now apply Hn. }
  assert (Hshape : forall (A : Type) (f : float * float -> A),
            is_shape (nrow X) (nrow X) (map (map f) cells)).
  { intros A f. split; [now rewrite length_map |].
    apply Forall_forall. intros r Hr. apply in_map_iff in Hr.
    destruct Hr as [r' [<- Hr']]. rewrite length_map.
    destruct (In_nth _ _ [] Hr') as [i [Hi Hnth]]. rewrite Hlen in Hi.
    pose proof (mapM_length _ _ _ (Hrows i Hi)) as Hl.
    rewrite length_seq in Hl. now rewrite <- Hnth. }
  split; [apply Hshape | split; [apply Hshape |]].
  intros i j Hi Hj. pose proof (Hrows i Hi) as Hr.
  pose proof (mapM_nth _ _ _ O (nan, nan) j Hr) as Hn.
  rewrite length_seq, seq_nth in Hn by exact Hj. simpl in Hn. rewrite (Hn Hj).
  unfold entry.
  change (@s_nan float Scalar_float) with (fst (nan, nan)) at 1.
  change (@s_nan float Scalar_float) with (snd (nan, nan)).
  rewrite (nth_map_map fst cells i j (nan, nan)).
  rewrite (nth_map_map snd cells i j (nan, nan)).
  now destruct (nth j (nth i cells []) (nan, nan)).
Qed.

Lemma lagged_valid (X : ndarray) (lag : Z) :
  valid_lag X lag ->
  exists xl,
    lagged X lag = Ok xl /\ nrow xl = nrow X /\
    ncol xl = (ncol X - Z.to_nat lag)%nat /\
    forall i t, t < (ncol X - Z.to_nat lag)%nat ->
      cell xl i t = cell X i (t + Z.to_nat lag)%nat.
Proof.
  unfold valid_lag, lagged. intros Hlag.
  destruct (Z.ltb_spec (Z.of_nat (ncol X) - lag) 0) as [H | _]; [lia |].
  assert (HT : Z.to_nat (Z.of_nat (ncol X) - lag) = (ncol X - Z.to_nat lag)%nat) by lia.
  rewrite HT.
  rewrite (mapM_ok _ (fun iT => (iT + Z.to_nat lag)%nat)).
  - simpl. eexists. split; [reflexivity |]. simpl.
    rewrite length_map, length_seq. repeat split.
    intros i t Ht.
    rewrite (nth_indep _ O (O + Z.to_nat lag)%nat) by now rewrite length_map, length_seq.
    rewrite (map_nth (fun iT => (iT + Z.to_nat lag)%nat)), seq_nth by exact Ht.
    reflexivity.
  - intros t Ht. apply in_seq in Ht. unfold py_index.
    destruct (Z.leb_spec 0 (Z.of_nat t + lag)); [| lia].
    destruct (Z.ltb_spec (Z.of_nat t + lag) (Z.of_nat (ncol X))); [| lia].
    simpl. f_equal. lia.
Qed.

Lemma slice_stop_valid (X : ndarray) (lag : Z) :
  valid_lag X lag -> slice_stop (ncol X) (- lag) = (ncol X - Z.to_nat lag)%nat.
Proof.
  unfold valid_lag, slice_stop. intros H.
  destruct (Z.ltb_spec (- lag) 0); lia.
Qed.

Lemma firstn_row (X : ndarray) (j k : nat) :
  k <= ncol X -> firstn k (row X j) = map (cell X j) (seq 0 k).
Proof.
  intros Hk. unfold row. rewrite firstn_map. f_equal.
  replace (ncol X) with (k + (ncol X - k))%nat by lia.
  rewrite seq_app, firstn_app, length_seq, Nat.sub_diag, firstn_O, app_nil_r.
  apply firstn_all2. now rewrite length_seq.
Qed.

(** With [0 < lag < T] the covariance stage never raises, and the lagged
    products pair [X[i, t+lag]] with [X[j, t]] for [t = 0 .. T-lag-1]. *)
Lemma covariances_valid (X : ndarray) (lag : Z) :
  valid_lag X lag ->
  exists c0 cT,
    covariances X lag = Ok (c0, cT) /\
    forall i j, i < nrow X -> j < nrow X ->
      entry c0 i j = nan_mean (products (ncol X) (cell X i) (cell X j)) /\
      entry cT i j =
        nan_mean (products (ncol X - Z.to_nat lag)%nat
                           (fun t => cell X i (t + Z.to_nat lag)%nat) (cell X j)).
Proof.
  intros Hlag. destruct (lagged_valid X lag Hlag) as [xl [Hxl [Hn [Hc Hcell]]]].
  assert (Hcc : forall i j,
            cov_cell X (np_transpose X) xl lag i j =
            Ok (nan_mean (products (ncol X) (cell X i) (cell X j)),
                nan_mean (products (ncol X - Z.to_nat lag)%nat
                           (fun t => cell X i (t + Z.to_nat lag)%nat) (cell X j)))).
  { intros i j. unfold cov_cell. rewrite column_transpose. unfold row at 1 2.
    rewrite np_multiply_same. simpl.
    rewrite slice_stop_valid, firstn_row by (exact Hlag || lia).
    unfold row. rewrite Hc.
    rewrite (map_ext_in (fun t => cell xl i t)
                        (fun t => cell X i (t + Z.to_nat lag)%nat)).
    - rewrite np_multiply_same. reflexivity.
    - intros t Ht. apply in_seq in Ht. apply Hcell. lia. }
  pose (cells := map (fun i => map (fun j =>
            (nan_mean (products (ncol X) (cell X i) (cell X j)),
             nan_mean (products (ncol X - Z.to_nat lag)%nat
                        (fun t => cell X i (t + Z.to_nat lag)%nat) (cell X j))))
            (seq 0 (nrow X))) (seq 0 (nrow X))).
  assert (Hcov : covariances X lag = Ok (map (map fst) cells, map (map snd) cells)).
  { unfold covariances. rewrite Hxl. simpl.
    rewrite (mapM_ok _ (fun i => map (fun j =>
            (nan_mean (products (ncol X) (cell X i) (cell X j)),
             nan_mean (products (ncol X - Z.to_nat lag)%nat
                        (fun t => cell X i (t + Z.to_nat lag)%nat) (cell X j))))
            (seq 0 (nrow X)))).
    - reflexivity.
    - intros i _. apply mapM_ok. intros j _. apply Hcc. }
  exists (map (map fst) cells), (map (map snd) cells). split; [exact Hcov |].
  intros i j Hi Hj.
  destruct (covariances_inv X lag _ _ Hcov) as [xl' [Hxl' [_ [_ Hent]]]].
  rewrite Hxl in Hxl'. inversion Hxl'. subst xl'.
  specialize (Hent i j Hi Hj). rewrite Hcc in Hent.
  injection Hent as E0 ET. split; congruence.
Qed.

Lemma forallb_false_witness {A : Type} (p : A -> bool) (l : list A) :
  forallb p l = false -> exists a, In a l /\ p a = false.
Proof.
  induction l as [| a l IH]; simpl; intros H; [discriminate |].
  destruct (p a) eqn:E.
  - destruct (IH H) as [b [Hb Hp]]. exists b. split; [now right | exact Hp].
  - exists a. split; [now left | exact E].
Qed.

Lemma missing_product (x y : float) :
  is_finite x || is_nan x = true -> is_finite y || is_nan y = true ->
  is_finite x && is_finite y = false ->
  x * y = nan.
Proof.
  intros Hx Hy Hb. destruct (is_finite x) eqn:Ex; simpl in *.
  - rewrite Hb in Hy. simpl in Hy. now apply mul_nan_r.
  - now apply mul_nan_l.
Qed.

Lemma filter_map_comm {A B : Type} (p : B -> bool) (f : A -> B) (l : list A) :
  filter p (map f l) = map f (filter (fun a => p (f a)) l).
Proof.
  induction l as [| a l IH]; simpl; [reflexivity |].
  destruct (p (f a)); simpl; now rewrite IH.
Qed.

(** On real-or-missing data a product is NaN exactly where the pair is
    not complete. *)
Lemma product_nan_iff (T : nat) (x y : nat -> float) (t : nat) :
  (forall t, t < T -> is_finite (x t) || is_nan (x t) = true) ->
  (forall t, t < T -> is_finite (y t) || is_nan (y t) = true) ->
  t < T -> negb (is_nan (x t * y t)) = both_finite x y t.
Proof.
  intros Hx Hy Ht. unfold both_finite.
  destruct (is_finite (x t) && is_finite (y t)) eqn:Eb.
  - apply andb_true_iff in Eb. destruct Eb as [E1 E2].
    now rewrite (mul_finite_not_nan _ _ E1 E2).
  - rewrite (missing_product (x t) (y t)); [reflexivity | | | exact Eb];
      [apply Hx | apply Hy]; exact Ht.
Qed.

Lemma non_nan_products (T : nat) (x y : nat -> float) :
  (forall t, t < T -> is_finite (x t) || is_nan (x t) = true) ->
  (forall t, t < T -> is_finite (y t) || is_nan (y t) = true) ->
  filter (fun v => negb (is_nan v)) (products T x y) = complete_products T x y.
Proof.
  intros Hx Hy. unfold products, complete_products.
  rewrite filter_map_comm. f_equal. apply filter_ext_in.
  intros t Ht. apply in_seq in Ht. apply (product_nan_iff T); try assumption. lia.
Qed.

(** The ratio computed by the code is a pairwise-complete moment: the
    numerator adds exactly the products of the complete pairs, and the
    two counts can differ only when a product of two finite samples
    overflows, in which case the numerator is already infinite or NaN and
    the count is irrelevant. *)
Lemma nan_mean_pairwise (T : nat) (x y : nat -> float) :
  (forall t, t < T -> is_finite (x t) || is_nan (x t) = true) ->
  (forall t, t < T -> is_finite (y t) || is_nan (y t) = true) ->
  is_pairwise_moment T x y (nan_mean (products T x y)).
Proof.
  intros Hx Hy. exists (np_nansum (products T x y)). split.
  - rewrite <- (non_nan_products T x y Hx Hy). apply np_nansum_float_sum.
  - unfold nan_mean.
    destruct (forallb is_finite (complete_products T x y)) eqn:E.
    + f_equal. f_equal. unfold count_finite.
      rewrite <- (non_nan_products T x y Hx Hy).
      rewrite (non_nan_products T x y Hx Hy).
      unfold products, complete_products.
      rewrite filter_map_comm, !length_map.
      apply filter_ext_length. intros t Ht.
      pose proof Ht as Ht'. apply in_seq in Ht'.
      destruct (both_finite x y t) eqn:Eb.
      * rewrite forallb_forall in E. apply E.
        unfold complete_products. apply in_map_iff. exists t.
        split; [reflexivity |]. apply filter_In. now split.
      * pose proof (product_nan_iff T x y t Hx Hy ltac:(lia)) as Hn.
        rewrite Eb in Hn. apply negb_false_iff in Hn.
        unfold is_finite. rewrite Hn. reflexivity.
    + apply forallb_false_witness in E. destruct E as [v [Hv Hinf]].
      assert (Hs : is_finite (np_nansum (products T x y)) = false).
      { apply (float_sum_not_finite _ _ (np_nansum_float_sum _)).
        exists v. split; [| exact Hinf].
        now rewrite (non_nan_products T x y Hx Hy). }
      now rewrite !div_count_not_finite.
Qed.

(** With no complete pair every product is NaN: the sum and the count are
    both zero, and their ratio is NaN. *)
Lemma nan_mean_no_overlap (T : nat) (x y : nat -> float) :
  (forall t, t < T -> is_finite (x t) || is_nan (x t) = true) ->
  (forall t, t < T -> is_finite (y t) || is_nan (y t) = true) ->
  no_overlap T x y -> nan_mean (products T x y) = nan.
Proof.
  intros Hx Hy Hno. unfold nan_mean.
  assert (Hnan : forall v, In v (products T x y) -> v = nan).
  { intros v Hv. unfold products in Hv. apply in_map_iff in Hv.
    destruct Hv as [t [<- Ht]]. apply in_seq in Ht.
    apply missing_product; [apply Hx | apply Hy | apply Hno]; lia. }
  unfold np_nansum. rewrite np_sum_zeros.
  - assert (Hc : count_finite (products T x y) = 0%nat).
    { unfold count_finite. generalize (products T x y) Hnan. intros l Hl.
      induction l as [| v l IH]; simpl; [reflexivity |].
      rewrite (Hl v) by now left. simpl. apply IH.
      intros w Hw. apply Hl. now right. }
    rewrite Hc. reflexivity.
  - intros v Hv. apply in_map_iff in Hv. destruct Hv as [w [<- Hw]].
    now rewrite (Hnan w Hw).
Qed.

(** * 13. The shape of a successful run *)

(** From lag [-T] on, [xLagged] has at most [2 T] columns and line 48 goes
    through. *)
Lemma np_full_room_ok (np : numpy) (nDat nT : nat) (lag : Z) :
  (- Z.of_nat nT <= lag)%Z -> np_full_room np nDat nT lag = Ok tt.
Proof.
  intros H. unfold np_full_room. cbv zeta.
  destruct (Z.leb_spec (Z.of_nat nT - lag) (2 * Z.of_nat nT)); [reflexivity | lia].
Qed.

Lemma LIM_from_covariances (np : numpy) (X : ndarray) (lag : Z) :
  (- Z.of_nat (ncol X) <= lag)%Z ->
  LIM np X lag =
  (' (c0, cT) <- covariances X lag ;;
   ic0 <- inv_d np c0 ;;
   m <- eigenmodes np (np_dot np cT ic0) lag ;;
   reconstruct np (nrow X) (np_dot np cT ic0) c0 cT (decay_sort np m)).
Proof. intros H. unfold LIM. now rewrite np_full_room_ok. Qed.

(** The copy loop of a lag below [-T] stops at its first column. *)
Lemma lagged_below_minus_T (X : ndarray) (lag : Z) :
  (lag < - Z.of_nat (ncol X))%Z -> lagged X lag = Raise IndexError.
Proof.
  intros H. unfold lagged.
  destruct (Z.ltb_spec (Z.of_nat (ncol X) - lag) 0); [lia |].
  destruct (Z.to_nat (Z.of_nat (ncol X) - lag)) as [| k] eqn:E; [lia |].
  simpl. unfold py_index. simpl.
  destruct (Z.leb_spec 0 lag); [lia |]. simpl.
  destruct (Z.leb_spec (- Z.of_nat (ncol X)) lag); [lia |]. reflexivity.
Qed.

Lemma covariances_lag_bound (X : ndarray) (lag : Z) (c : matrix float * matrix float) :
  covariances X lag = Ok c -> (- Z.of_nat (ncol X) <= lag)%Z.
Proof.
  intros H. destruct (Z.le_gt_cases (- Z.of_nat (ncol X)) lag) as [Hle | Hlt];
    [exact Hle |].
  unfold covariances in H. cbv zeta in H.
  rewrite (lagged_below_minus_T X lag) in H by lia. discriminate.
Qed.

Lemma LIM_inv (np : numpy) (X : ndarray) (lag : Z) (out : lim_output) :
  LIM np X lag = Ok out ->
  exists c0 cT ic0 m invNorm,
    covariances X lag = Ok (c0, cT) /\
    inv_d np c0 = Ok ic0 /\
    eigenmodes np (np_dot np cT ic0) lag = Ok m /\
    dm_inv np (norm_factors np (decay_sort np m)) = Ok invNorm /\
    let ms := decay_sort np m in
    let normU := dm_dot np (m_u ms) invNorm in
    let L := L_matrix np (nrow X) normU ms in
    out = (m_b ms, L, mat_neg (Q_negative np L c0), np_dot np cT ic0, c0, cT,
           normU, m_v ms, m_g ms, periods_of (m_b ms), decay_time (m_b ms)).
Proof.
  unfold LIM. intros H.
  apply bind_ok_inv in H. destruct H as [[] [_ H]].
  apply bind_ok_inv in H. destruct H as [[c0 cT] [Hcov H]].
  apply bind_ok_inv in H. destruct H as [ic0 [Hinv H]].
  apply bind_ok_inv in H. destruct H as [m [Hm H]].
  unfold reconstruct in H.
  apply bind_ok_inv in H. destruct H as [invNorm [Hn H]].
  exists c0, cT, ic0, m, invNorm. repeat split; try assumption.
  simpl. now inversion H.
Qed.

Lemma LIM_covariances (np : numpy) (X : ndarray) (lag : Z) (out : lim_output) :
  LIM np X lag = Ok out -> covariances X lag = Ok (out_c0 out, out_cT out).
Proof.
  intros H. destruct (LIM_inv np X lag out H)
    as [c0 [cT [ic0 [m [invNorm [Hcov [_ [_ [_ Hout]]]]]]]]].
  simpl in Hout. subst out. exact Hcov.
Qed.

(** * 14. The covariance matrices (claims C1, C6, C10) *)

Lemma covariances_moments (X : ndarray) (lag : Z) :
  real_or_missing X -> valid_lag X lag ->
  exists c0 cT,
    covariances X lag = Ok (c0, cT) /\
    forall i j, i < nrow X -> j < nrow X ->
      is_pairwise_moment (ncol X) (cell X i) (cell X j) (entry c0 i j) /\
      is_pairwise_moment (ncol X - Z.to_nat lag)
                         (shifted (Z.to_nat lag) (cell X i)) (cell X j)
                         (entry cT i j).
Proof.
  intros Hreal Hlag.
  destruct (covariances_valid X lag Hlag) as [c0 [cT [Hcov Hent]]].
  exists c0, cT. split; [exact Hcov |].
  intros i j Hi Hj. destruct (Hent i j Hi Hj) as [E0 ET].
  rewrite E0, ET. unfold valid_lag in Hlag. split.
  - apply nan_mean_pairwise; intros t Ht; now apply Hreal.
  - apply nan_mean_pairwise; intros t Ht; unfold shifted; apply Hreal; lia.
Qed.

Lemma covariances_no_overlap (X : ndarray) (lag : Z) :
  real_or_missing X -> valid_lag X lag ->
  exists c0 cT,
    covariances X lag = Ok (c0, cT) /\
    forall i j, i < nrow X -> j < nrow X ->
      (no_overlap (ncol X) (cell X i) (cell X j) -> entry c0 i j = nan) /\
      (no_overlap (ncol X - Z.to_nat lag)
                  (shifted (Z.to_nat lag) (cell X i)) (cell X j) ->
       entry cT i j = nan).
Proof.
  intros Hreal Hlag.
  destruct (covariances_valid X lag Hlag) as [c0 [cT [Hcov Hent]]].
  exists c0, cT. split; [exact Hcov |].
  intros i j Hi Hj. destruct (Hent i j Hi Hj) as [E0 ET].
  rewrite E0, ET. unfold valid_lag in Hlag. split; intros Hno.
  - apply nan_mean_no_overlap; [| | exact Hno]; intros t Ht; now apply Hreal.
  - apply (nan_mean_no_overlap _ (shifted (Z.to_nat lag) (cell X i)));
      [| | exact Hno]; intros t Ht; unfold shifted; apply Hreal; lia.
Qed.

(** C1.  For every valid input -- every sample a finite number or NaN, and
    0 < lag < T -- the covariance stage succeeds and the matrices it hands
    to the rest of [LIM] (hence the returned [c0] and [cT]) are the
    pairwise-complete raw second moments: [c0[i,j]] is a binary64 sum of
    the products [X[i,t] * X[j,t]] at exactly the positions where both
    samples are finite, each product added once and nothing else, divided
    by the number of those positions; [cT[i,j]] is the same ratio between
    row [i] advanced by [lag] and row [j], over [t = 0 .. T-lag-1].  No mean
    is subtracted.  The order in which the products are added is numpy's
    and is not part of the claim. *)
Theorem covariances_pairwise_complete (X : ndarray) (lag : Z) :
  real_or_missing X -> valid_lag X lag ->
  exists c0 cT,
    covariances X lag = Ok (c0, cT) /\
    (forall np out, LIM np X lag = Ok out -> out_c0 out = c0 /\ out_cT out = cT) /\
    forall i j, i < nrow X -> j < nrow X ->
      is_pairwise_moment (ncol X) (cell X i) (cell X j) (entry c0 i j) /\
      is_pairwise_moment (ncol X - Z.to_nat lag)
                         (shifted (Z.to_nat lag) (cell X i)) (cell X j)
                         (entry cT i j).
Proof.
  intros Hreal Hlag.
  destruct (covariances_moments X lag Hreal Hlag) as [c0 [cT [Hcov Hent]]].
  exists c0, cT. split; [exact Hcov | split; [| exact Hent]].
  intros np out Hout. apply LIM_covariances in Hout.
  rewrite Hcov in Hout. inversion Hout. split; reflexivity.
Qed.

(** Two series of eight samples, the second with a missing first
    sample, at lag 1.  The squares of the first series are [2^54] and
    seven ones; numpy adds eight products in its unrolled order and
    [c0[0,0]] is [(2^54 + 4) / 8]. *)
Lemma covariances_pairwise_complete_witness :
  let X := of_rows 8 [[0x1p27; 1; 1; 1; 1; 1; 1; 1];
                      [nan; 1; 1; 1; 1; 1; 1; 1]] in
  real_or_missing X /\ valid_lag X 1 /\
  exists c0 cT,
    covariances X 1 = Ok (c0, cT) /\
    entry c0 0 0 = 0x1.0000000000001p+51 /\ entry c0 0 1 = 1 /\
    (forall np out, LIM np X 1 = Ok out -> out_c0 out = c0 /\ out_cT out = cT) /\
    forall i j, i < nrow X -> j < nrow X ->
      is_pairwise_moment (ncol X) (cell X i) (cell X j) (entry c0 i j) /\
      is_pairwise_moment (ncol X - Z.to_nat 1)
                         (shifted (Z.to_nat 1) (cell X i)) (cell X j)
                         (entry cT i j).
Proof.
  intros X.
  assert (Hreal : real_or_missing X).
  { intros i t Hi Ht. simpl in Hi, Ht.
    destruct i as [| [| i]]; [| | lia];
      (do 8 (destruct t as [| t]; [reflexivity |])); lia. }
  assert (Hlag : valid_lag X 1) by (unfold valid_lag; simpl; lia).
  split; [exact Hreal | split; [exact Hlag |]].
  destruct (covariances_pairwise_complete X 1 Hreal Hlag) as [c0 [cT [Hcov H]]].
  exists c0, cT. split; [exact Hcov |].
  assert (E : c0 = [[0x1.0000000000001p+51; 1]; [1; 1]])
    by (vm_compute in Hcov; now injection Hcov as <- _).
  split; [rewrite E; reflexivity |]. split; [rewrite E; reflexivity |].
  exact H.
Defined.

Lemma c0_entry_sym (X : ndarray) (lag : Z) (c0 cT : matrix float) (i j : nat) :
  covariances X lag = Ok (c0, cT) -> i < nrow X -> j < nrow X ->
  entry c0 i j = entry c0 j i.
Proof.
  intros Hcov Hi Hj.
  destruct (covariances_inv X lag c0 cT Hcov) as [xl' [_ [_ [_ Hent]]]].
  destruct (cov_cell_inv _ _ _ _ _ _ _ (Hent i j Hi Hj)) as [E1 _].
  destruct (cov_cell_inv _ _ _ _ _ _ _ (Hent j i Hj Hi)) as [E2 _].
  rewrite E1, E2. f_equal. unfold products. apply map_ext. intros t.
  apply mul_comm.
Qed.

(** The lagged matrix of [[1; 2]; [3; 4]] at lag 1 is not symmetric:
    [cT[0,1] = X[0,1] * X[1,0] = 6] and [cT[1,0] = X[1,1] * X[0,0] = 4]. *)
Lemma cT_not_symmetric :
  ~ (forall X lag c0 cT i j,
        covariances X lag = Ok (c0, cT) -> i < nrow X -> j < nrow X ->
        entry cT i j = entry cT j i).
Proof.
  intros H.
  specialize (H (of_rows 2 [[1; 2]; [3; 4]]) 1%Z
                [[2.5; 5.5]; [5.5; 12.5]] [[2; 6]; [4; 12]] 0%nat 1%nat).
  assert (E : entry [[2; 6]; [4; 12]] 0 1 = entry [[2; 6]; [4; 12]] 1 0).
  { apply H; [vm_compute; reflexivity | simpl; lia | simpl; lia]. }
  vm_compute in E. apply (f_equal (fun x => x <? 5)) in E. vm_compute in E.
  discriminate.
Qed.

(** C10.  Whenever the covariance stage succeeds -- in particular on every
    input on which [LIM] returns, where its [c0] is the returned one --
    [c0] is symmetric as an equality of binary64 values, not up to a
    tolerance: entries [(i,j)] and [(j,i)] reduce the same list of
    products.  The lagged matrix [cT] has no such property. *)
Theorem c0_exactly_symmetric (X : ndarray) (lag : Z) (c0 cT : matrix float) :
  covariances X lag = Ok (c0, cT) ->
  (forall np out, LIM np X lag = Ok out -> out_c0 out = c0) /\
  (forall i j, i < nrow X -> j < nrow X -> entry c0 i j = entry c0 j i) /\
  ~ (forall X' lag' c0' cT' i j,
        covariances X' lag' = Ok (c0', cT') -> i < nrow X' -> j < nrow X' ->
        entry cT' i j = entry cT' j i).
Proof.
  intros Hcov. split; [| split].
  - intros np out Hout. apply LIM_covariances in Hout.
    rewrite Hcov in Hout. now inversion Hout.
  - intros i j Hi Hj. exact (c0_entry_sym X lag c0 cT i j Hcov Hi Hj).
  - exact cT_not_symmetric.
Qed.

Lemma c0_exactly_symmetric_witness :
  let X := of_rows 3 [[1; 2; nan]; [nan; 1; 3]] in
  let c0 := [[2.5; 2]; [2; 5]] in
  let cT := [[2; nan]; [3.5; 3]] in
  covariances X 1 = Ok (c0, cT) /\
  (forall np out, LIM np X 1 = Ok out -> out_c0 out = c0) /\
  (forall i j, i < nrow X -> j < nrow X -> entry c0 i j = entry c0 j i) /\
  ~ (forall X' lag' c0' cT' i j,
        covariances X' lag' = Ok (c0', cT') -> i < nrow X' -> j < nrow X' ->
        entry cT' i j = entry cT' j i).
Proof.
  intros X c0 cT.
  assert (Hcov : covariances X 1 = Ok (c0, cT)) by (vm_compute; reflexivity).
  split; [exact Hcov |].
  exact (c0_exactly_symmetric X 1 c0 cT Hcov).
Defined.

Lemma LA_eig_not_finite (np : numpy) (a : matrix float) :
  all_finite a = false -> LA_eig np a = Raise (LinAlgError NotFinite).
Proof. unfold LA_eig. now intros ->. Qed.

Lemma LIM_not_finite_G (np : numpy) (X : ndarray) (lag : Z)
    (c0 cT ic0 : matrix float) :
  covariances X lag = Ok (c0, cT) -> inv_d np c0 = Ok ic0 ->
  all_finite (np_dot np cT ic0) = false ->
  LIM np X lag = Raise (LinAlgError NotFinite).
Proof.
  intros Hcov Hinv HG.
  rewrite LIM_from_covariances by exact (covariances_lag_bound X lag _ Hcov).
  rewrite Hcov. simpl. rewrite Hinv. simpl.
  unfold eigenmodes. now rewrite (LA_eig_not_finite np _ HG).
Qed.

(** The claim C6 as the specification states it fails on the row
    [[NaN; NaN]] at lag 1: the only pair has no finite sample, yet the
    covariance stage returns [c0 = cT = [[NaN]]] without raising, the
    inversion and the product [G = cT . inv(c0)] are computed on it, and the
    run ends only in [LA.eig]'s own finiteness check, with a [LinAlgError]
    and not a domain error of the covariance stage. *)
Lemma missing_pair_counterexample :
  let X := of_rows 2 [[nan; nan]] in
  no_overlap (ncol X) (cell X 0) (cell X 0) /\
  covariances X 1 = Ok ([[nan]], [[nan]]) /\
  inv_d ref_numpy [[nan]] = Ok [[nan]] /\
  LIM ref_numpy X 1 = Raise (LinAlgError NotFinite).
Proof.
  intros X. split; [| repeat split; vm_compute; reflexivity].
  intros t Ht. simpl in Ht. destruct t as [| [| t]]; [reflexivity | reflexivity | lia].
Qed.

(** C6, amended.  On a valid input with [0 < lag < T] the covariance stage
    never raises.  A pair of series with no jointly finite sample gets a
    NaN entry (0/0) in [c0], and a pair with none at the given lag gets a
    NaN entry in [cT]; the computation then goes on to invert that [c0].
    It stops only if a later library call refuses its argument: when the
    NaN reaches [G], [LA.eig] raises [LinAlgError]. *)
Theorem missing_pair_gives_nan (X : ndarray) (lag : Z) :
  real_or_missing X -> valid_lag X lag ->
  exists c0 cT,
    covariances X lag = Ok (c0, cT) /\
    (forall i j, i < nrow X -> j < nrow X ->
       (no_overlap (ncol X) (cell X i) (cell X j) -> entry c0 i j = nan) /\
       (no_overlap (ncol X - Z.to_nat lag)
                   (shifted (Z.to_nat lag) (cell X i)) (cell X j) ->
        entry cT i j = nan)) /\
    (forall np,
       LIM np X lag =
       (ic0 <- inv_d np c0 ;;
        m <- eigenmodes np (np_dot np cT ic0) lag ;;
        reconstruct np (nrow X) (np_dot np cT ic0) c0 cT (decay_sort np m))) /\
    (forall np ic0,
       inv_d np c0 = Ok ic0 -> all_finite (np_dot np cT ic0) = false ->
       LIM np X lag = Raise (LinAlgError NotFinite)).
Proof.
  intros Hreal Hlag.
  destruct (covariances_no_overlap X lag Hreal Hlag) as [c0 [cT [Hcov Hent]]].
  exists c0, cT. split; [exact Hcov | split; [exact Hent | split]].
  - intros np.
    rewrite LIM_from_covariances by exact (covariances_lag_bound X lag _ Hcov).
    rewrite Hcov. reflexivity.
  - intros np ic0. now apply LIM_not_finite_G.
Qed.

(** Rows [[1; NaN]] and [[NaN; 1]] never overlap, at lag 0 or at lag 1. *)
Lemma missing_pair_gives_nan_witness :
  let X := of_rows 2 [[1; nan]; [nan; 1]] in
  real_or_missing X /\ valid_lag X 1 /\
  exists c0 cT,
    covariances X 1 = Ok (c0, cT) /\
    (forall i j, i < nrow X -> j < nrow X ->
       (no_overlap (ncol X) (cell X i) (cell X j) -> entry c0 i j = nan) /\
       (no_overlap (ncol X - Z.to_nat 1)
                   (shifted (Z.to_nat 1) (cell X i)) (cell X j) ->
        entry cT i j = nan)) /\
    (forall np,
       LIM np X 1 =
       (ic0 <- inv_d np c0 ;;
        m <- eigenmodes np (np_dot np cT ic0) 1 ;;
        reconstruct np (nrow X) (np_dot np cT ic0) c0 cT (decay_sort np m))) /\
    (forall np ic0,
       inv_d np c0 = Ok ic0 -> all_finite (np_dot np cT ic0) = false ->
       LIM np X 1 = Raise (LinAlgError NotFinite)).
Proof.
  intros X.
  assert (Hreal : real_or_missing X).
  { intros i t Hi Ht. simpl in Hi, Ht.
    destruct i as [| [| i]]; [| | lia];
      (destruct t as [| [| t]]; [| | lia]); reflexivity. }
  assert (Hlag : valid_lag X 1) by (unfold valid_lag; simpl; lia).
  split; [exact Hreal | split; [exact Hlag |]].
  exact (missing_pair_gives_nan X 1 Hreal Hlag).
Defined.

(** * 15. Sorting *)

Section InsertionArgsort.
Variable below : nat -> nat -> bool.
Hypothesis below_asym : forall i j, below i j = true -> below j i = false.
Hypothesis below_negtrans :
  forall i j k, below j i = false -> below k j = false -> below k i = false.

Let ordered (i j : nat) : Prop := below j i = false.

Lemma insert_index_perm (k : nat) (idx : list nat) :
  Permutation (insert_index below k idx) (k :: idx).
Proof.
  induction idx as [| h t IH]; simpl; [apply Permutation_refl |].
  destruct (below h k).
  - eapply perm_trans; [apply perm_skip, IH | apply perm_swap].
  - apply Permutation_refl.
Qed.

Lemma insert_index_sorted (k : nat) (idx : list nat) :
  StronglySorted ordered idx -> StronglySorted ordered (insert_index below k idx).
Proof.
  induction idx as [| h t IH]; simpl; intros Hs.
  - constructor; constructor.
  - inversion Hs as [| ? ? Ht Hh]; subst. destruct (below h k) eqn:E.
    + constructor; [apply IH, Ht |].
      apply Forall_forall. intros x Hx.
      apply (Permutation_in _ (insert_index_perm k t)) in Hx.
      destruct Hx as [<- | Hx].
      * apply below_asym, E.
      * exact (proj1 (Forall_forall _ _) Hh x Hx).
    + constructor; [exact Hs |].
      constructor; [exact E |].
      apply Forall_forall. intros x Hx.
      pose proof (proj1 (Forall_forall _ _) Hh x Hx) as Hhx.
      unfold ordered in *. exact (below_negtrans k h x E Hhx).
Qed.

Lemma fold_insert_perm (l : list nat) :
  Permutation (fold_right (insert_index below) [] l) l.
Proof.
  induction l as [| k l IH]; simpl; [constructor |].
  eapply perm_trans; [apply insert_index_perm | now apply perm_skip].
Qed.

Lemma fold_insert_sorted (l : list nat) :
  StronglySorted ordered (fold_right (insert_index below) [] l).
Proof.
  induction l as [| k l IH]; simpl; [constructor |].
  apply insert_index_sorted, IH.
Qed.
End InsertionArgsort.

Lemma StronglySorted_map {A B : Type} (R : B -> B -> Prop) (f : A -> B)
    (l : list A) :
  StronglySorted (fun a b => R (f a) (f b)) l -> StronglySorted R (map f l).
Proof.
  induction 1 as [| a l Hs IH Hall]; simpl; constructor; [exact IH |].
  apply Forall_forall. intros y Hy. apply in_map_iff in Hy.
  destruct Hy as [x [<- Hx]]. exact (proj1 (Forall_forall _ _) Hall x Hx).
Qed.

Lemma StronglySorted_app {A : Type} (R : A -> A -> Prop) (l1 l2 : list A) :
  StronglySorted R l1 -> StronglySorted R l2 ->
  (forall x y, In x l1 -> In y l2 -> R x y) ->
  StronglySorted R (l1 ++ l2).
Proof.
  induction 1 as [| a l Hs IH Hall]; simpl; intros H2 Hx; [exact H2 |].
  constructor.
  - apply IH; [exact H2 | intros x y Hin; apply Hx; now right].
  - apply Forall_forall. intros y Hy. apply in_app_or in Hy.
    destruct Hy as [Hy | Hy].
    + exact (proj1 (Forall_forall _ _) Hall y Hy).
    + apply Hx; [now left | exact Hy].
Qed.

Lemma StronglySorted_rev {A : Type} (R : A -> A -> Prop) (l : list A) :
  StronglySorted R l -> StronglySorted (fun a b => R b a) (rev l).
Proof.
  induction 1 as [| a l Hs IH Hall]; simpl; [constructor |].
  apply StronglySorted_app; [exact IH | repeat constructor |].
  intros x y Hx [<- | []]. apply in_rev in Hx.
  exact (proj1 (Forall_forall _ _) Hall x Hx).
Qed.

Lemma ascending_rev (l : list float) : ascending l -> non_increasing (rev l).
Proof. apply StronglySorted_rev. Qed.

Lemma take_rev {A : Type} `{Scalar A} (idx : list nat) (l : list A) :
  take (rev idx) l = rev (take idx l).
Proof. unfold take. apply map_rev. Qed.

(** The reference [argsort] meets the documented contract. *)
Lemma argsort_by_perm {A : Type} `{Scalar A} (less : A -> A -> bool) (l : list A) :
  Permutation (argsort_by less l) (seq 0 (length l)).
Proof. apply fold_insert_perm. Qed.

Lemma argsort_by_np_less_sorted (l : list float) :
  ascending (take (argsort_by np_less l) l).
Proof.
  unfold ascending, take. apply StronglySorted_map.
  apply (fold_insert_sorted
           (fun i j => np_less (nth i l s_nan) (nth j l s_nan))).
  - intros i j. apply np_less_asym.
  - intros i j k. apply np_less_negtrans.
Qed.

Lemma ref_numpy_argsort_permutes : argsort_permutes ref_numpy.
Proof. split; intros l; apply argsort_by_perm. Qed.

Lemma ref_numpy_argsort_sorts : argsort_sorts ref_numpy.
Proof. intros l. apply argsort_by_np_less_sorted. Qed.

Lemma is_shape_diag_matrix {A : Type} `{Scalar A} (vals : list A) :
  is_shape (length vals) (length vals) (diag_matrix vals).
Proof.
  unfold diag_matrix. split; [now rewrite length_map, length_seq |].
  apply Forall_forall. intros r Hin. apply in_map_iff in Hin.
  destruct Hin as [i [<- _]]. now rewrite length_map, length_seq.
Qed.

Lemma diagonal_of_length {A : Type} `{Scalar A} (M : matrix A) :
  length (diagonal_of M) = length M.
Proof. unfold diagonal_of. now rewrite length_map, length_seq. Qed.

Lemma is_shape_diag_of {A B : Type} `{Scalar A} `{Scalar B} (f : A -> B)
    (n : nat) (M : matrix A) :
  length M = n -> is_shape n n (diag_matrix (map f (diagonal_of M))).
Proof.
  intros <-.
  pose proof (is_shape_diag_matrix (map f (diagonal_of M))) as Hs.
  now rewrite length_map, diagonal_of_length in Hs.
Qed.

Lemma ref_numpy_inv_keeps_shape : inv_keeps_shape ref_numpy.
Proof.
  split; intros n M M' [Hn _] H; simpl in H.
  - unfold ref_inv_d in H.
    destruct (is_diagonal _ M); [| discriminate].
    destruct (existsb _ (diagonal_of M)); [discriminate |].
    inversion H. now apply is_shape_diag_of.
  - unfold ref_inv_z in H.
    destruct (is_diagonal _ M); [| discriminate].
    destruct (existsb _ (diagonal_of M)); [discriminate |].
    inversion H. now apply is_shape_diag_of.
Qed.

Lemma ref_numpy_geev_shapes : geev_shapes ref_numpy.
Proof.
  intros n M w vt [Hn _] H. simpl in H. unfold ref_geev in H.
  destruct (is_diagonal _ M); [| discriminate].
  inversion H. split.
  - now rewrite length_map, diagonal_of_length.
  - now apply is_shape_diag_of.
Qed.

(** * 16. Shapes *)

Lemma mat_ncols_square {A : Type} (n : nat) (M : matrix A) :
  is_shape n n M -> mat_ncols M = n.
Proof.
  intros [Hn Hr]. destruct M as [| r M]; simpl in *; [exact Hn |].
  now inversion Hr.
Qed.

Lemma is_shape_map {A B : Type} (f : A -> B) (n m : nat) (M : matrix A) :
  is_shape n m M -> is_shape n m (map (map f) M).
Proof.
  intros [Hn Hr]. split; [now rewrite length_map |].
  apply Forall_forall. intros r Hin. apply in_map_iff in Hin.
  destruct Hin as [r' [<- Hr']]. rewrite length_map.
  exact (proj1 (Forall_forall _ _) Hr r' Hr').
Qed.

Lemma is_shape_rows {C B : Type} (f : C -> list B) (n k : nat) (M : list C) :
  length M = n -> (forall r, In r M -> length (f r) = k) ->
  is_shape n k (map f M).
Proof.
  intros Hn Hf. split; [now rewrite length_map |].
  apply Forall_forall. intros r Hin. apply in_map_iff in Hin.
  destruct Hin as [r' [<- Hr']]. now apply Hf.
Qed.

Lemma is_shape_transpose {A : Type} `{Scalar A} (n : nat) (M : matrix A) :
  is_shape n n M -> is_shape n n (mat_transpose M).
Proof.
  intros Hs. unfold mat_transpose. rewrite (mat_ncols_square n M Hs).
  apply (is_shape_rows _ n n).
  - apply length_seq.
  - intros j _. unfold mat_col. rewrite length_map. apply Hs.
Qed.

Lemma is_shape_np_dot (np : numpy) (n : nat) (M1 M2 : matrix float) :
  is_shape n n M1 -> is_shape n n M2 -> is_shape n n (np_dot np M1 M2).
Proof.
  intros H1 H2. unfold np_dot. rewrite (mat_ncols_square n M2 H2).
  apply (is_shape_rows _ n n); [rewrite length_seq; apply H1 |].
  intros r _. now rewrite length_map, length_seq.
Qed.

Lemma is_shape_np_dot_z (np : numpy) (n : nat) (M1 M2 : matrix complex) :
  is_shape n n M1 -> is_shape n n M2 -> is_shape n n (np_dot_z np M1 M2).
Proof.
  intros H1 H2. unfold np_dot_z. rewrite (mat_ncols_square n M2 H2).
  apply (is_shape_rows _ n n); [rewrite length_seq; apply H1 |].
  intros r _. now rewrite length_map, length_seq.
Qed.

Lemma is_shape_take_cols {A : Type} `{Scalar A} (n m : nat) (idx : list nat)
    (M : matrix A) :
  is_shape n m M -> is_shape n (length idx) (take_cols idx M).
Proof.
  intros H1. unfold take_cols. apply (is_shape_rows _ n (length idx)); [apply H1 |].
  intros r _. unfold take. apply length_map.
Qed.

Lemma is_shape_fill_diagonal (n : nat) (vals : list complex) :
  is_shape n n (fill_diagonal n vals).
Proof.
  unfold fill_diagonal. split; [now rewrite length_map, length_seq |].
  apply Forall_forall. intros r Hin. apply in_map_iff in Hin.
  destruct Hin as [i [<- _]]. now rewrite length_map, length_seq.
Qed.

Lemma is_shape_mat_add (n m : nat) (M1 M2 : matrix complex) :
  is_shape n m M1 -> is_shape n m M2 -> is_shape n m (mat_add M1 M2).
Proof.
  intros [H1 R1] [H2 R2]. unfold mat_add. split.
  - rewrite length_map, length_combine. lia.
  - apply Forall_forall. intros r Hin. apply in_map_iff in Hin.
    destruct Hin as [[r1 r2] [<- Hp]]. simpl.
    rewrite length_map, length_combine.
    pose proof (proj1 (Forall_forall _ _) R1 r1 (in_combine_l _ _ _ _ Hp)) as L1.
    pose proof (proj1 (Forall_forall _ _) R2 r2 (in_combine_r _ _ _ _ Hp)) as L2.
    cbv beta in L1, L2. lia.
Qed.

Lemma dm_shape_complex (n m : nat) (M : dmat) :
  dm_shape n m M -> is_shape n m (dm_complex M).
Proof. destruct M; simpl; [apply is_shape_map | auto]. Qed.

Lemma dm_shape_dot (np : numpy) (n : nat) (M1 M2 : dmat) :
  dm_shape n n M1 -> dm_shape n n M2 -> dm_shape n n (dm_dot np M1 M2).
Proof.
  intros H1 H2.
  destruct M1 as [A | A], M2 as [B | B]; simpl in *;
    first [apply is_shape_np_dot | apply is_shape_np_dot_z];
    try assumption; now apply is_shape_map.
Qed.

Lemma dm_shape_transpose (n : nat) (M : dmat) :
  dm_shape n n M -> dm_shape n n (dm_transpose M).
Proof. destruct M; simpl; apply is_shape_transpose. Qed.

Lemma dm_shape_take_cols (n m : nat) (idx : list nat) (M : dmat) :
  dm_shape n m M -> dm_shape n (length idx) (dm_take_cols idx M).
Proof. destruct M; simpl; apply is_shape_take_cols. Qed.

Lemma dv_length_take (idx : list nat) (a : dvec) :
  dv_length (dv_take idx a) = length idx.
Proof. destruct a; simpl; unfold take; apply length_map. Qed.

Lemma dv_argsort_length (np : numpy) (a : dvec) :
  argsort_permutes np -> length (dv_argsort np a) = dv_length a.
Proof.
  intros [Hd Hz]. destruct a as [l | l]; simpl.
  - rewrite (Permutation_length (Hd l)). apply length_seq.
  - rewrite (Permutation_length (Hz l)). apply length_seq.
Qed.

Lemma dm_inv_shape (np : numpy) (n : nat) (M M' : dmat) :
  inv_keeps_shape np -> dm_shape n n M -> dm_inv np M = Ok M' -> dm_shape n n M'.
Proof.
  intros [Hd Hz] Hs H. destruct M as [A | A]; simpl in *;
    apply bind_ok_inv in H; destruct H as [A' [HA H]]; inversion H; subst; simpl.
  - exact (Hd n A A' Hs HA).
  - exact (Hz n A A' Hs HA).
Qed.

Lemma LA_eig_shapes (np : numpy) (n : nat) (a : matrix float) (w : dvec) (vt : dmat) :
  geev_shapes np -> is_shape n n a -> LA_eig np a = Ok (w, vt) ->
  dv_length w = n /\ dm_shape n n vt.
Proof.
  intros Hg Hs H. unfold LA_eig in H.
  destruct (all_finite a); [| discriminate].
  apply bind_ok_inv in H. destruct H as [[w0 vt0] [H0 H]].
  destruct (Hg n a w0 vt0 Hs H0) as [Hw Hv].
  destruct (forallb (fun z => im z =? 0) w0); injection H as <- <-; simpl.
  - split; [now rewrite length_map | now apply is_shape_map].
  - split; assumption.
Qed.

Lemma dv_length_log_div (np : numpy) (a : dvec) (lag : Z) :
  dv_length (dv_div_int (dv_log np a) lag) = dv_length a.
Proof. destruct a; simpl; now rewrite !length_map. Qed.

Lemma eigenmodes_shapes (np : numpy) (n : nat) (G : matrix float) (lag : Z)
    (m : modes) :
  geev_shapes np -> argsort_permutes np -> is_shape n n G ->
  eigenmodes np G lag = Ok m ->
  dv_length (m_g m) = n /\ dm_shape n n (m_u m) /\
  dm_shape n n (m_v m) /\ dv_length (m_b m) = n.
Proof.
  intros Hg Hp Hs H. unfold eigenmodes in H.
  apply bind_ok_inv in H. destruct H as [[g u] [H1 H]].
  apply bind_ok_inv in H. destruct H as [[gT v] [H2 H]].
  inversion H. subst m. clear H. simpl.
  destruct (LA_eig_shapes np n G g u Hg Hs H1) as [Lg Su].
  destruct (LA_eig_shapes np n _ gT v Hg (is_shape_transpose n G Hs) H2) as [LgT Sv].
  assert (Li : length (rev (dv_argsort np g)) = n)
    by now rewrite length_rev, dv_argsort_length.
  assert (LiT : length (rev (dv_argsort np gT)) = n)
    by now rewrite length_rev, dv_argsort_length.
  repeat split.
  - now rewrite dv_length_take.
  - rewrite <- Li at 2. now apply dm_shape_take_cols with (m := n).
  - rewrite <- LiT at 2. now apply dm_shape_take_cols with (m := n).
  - now rewrite dv_length_log_div, dv_length_take.
Qed.

Lemma decay_time_length (b : dvec) : length (decay_time b) = dv_length b.
Proof. unfold decay_time. destruct b; simpl; now rewrite !length_map. Qed.

Lemma periods_of_length (b : dvec) : length (periods_of b) = dv_length b.
Proof. unfold periods_of. destruct b; simpl; now rewrite !length_map. Qed.

Lemma iSort2_length (np : numpy) (m : modes) :
  argsort_permutes np -> length (iSort2 np m) = dv_length (m_b m).
Proof.
  intros [Hd _]. unfold iSort2.
  rewrite length_rev, (Permutation_length (Hd _)), length_seq.
  apply decay_time_length.
Qed.

Lemma decay_sort_shapes (np : numpy) (n : nat) (m : modes) :
  argsort_permutes np ->
  dv_length (m_g m) = n /\ dm_shape n n (m_u m) /\
  dm_shape n n (m_v m) /\ dv_length (m_b m) = n ->
  let ms := decay_sort np m in
  dv_length (m_g ms) = n /\ dm_shape n n (m_u ms) /\
  dm_shape n n (m_v ms) /\ dv_length (m_b ms) = n.
Proof.
  intros Hp [Lg [Su [Sv Lb]]]. simpl.
  pose proof (iSort2_length np m Hp) as Li. rewrite Lb in Li.
  repeat split.
  - now rewrite dv_length_take.
  - rewrite <- Li at 2. now apply dm_shape_take_cols with (m := n).
  - rewrite <- Li at 2. now apply dm_shape_take_cols with (m := n).
  - now rewrite dv_length_take.
Qed.

(** * 17. Entries of the computed matrices *)

Lemma is_shape_row {A : Type} (n m : nat) (M : matrix A) (i : nat) :
  is_shape n m M -> i < n -> length (nth i M []) = m.
Proof.
  intros [Hn Hr] Hi. rewrite Forall_forall in Hr. apply Hr, nth_In. lia.
Qed.

Lemma entry_np_dot (np : numpy) (M1 M2 : matrix float) (i j : nat) :
  i < length M1 -> j < mat_ncols M2 ->
  entry (np_dot np M1 M2) i j = dot_d np M1 M2 i j.
Proof.
  intros Hi Hj. unfold entry, np_dot.
  rewrite (nth_map_seq _ _ i [] Hi). now rewrite nth_map_seq.
Qed.

Lemma entry_np_dot_z (np : numpy) (M1 M2 : matrix complex) (i j : nat) :
  i < length M1 -> j < mat_ncols M2 ->
  entry (np_dot_z np M1 M2) i j = dot_z np M1 M2 i j.
Proof.
  intros Hi Hj. unfold entry, np_dot_z.
  rewrite (nth_map_seq _ _ i [] Hi). now rewrite nth_map_seq.
Qed.

Lemma np_dot_is_dot_d (np : numpy) (M1 M2 : matrix float) :
  is_dot_d np M1 M2 (np_dot np M1 M2).
Proof.
  split; [| intros i j; apply entry_np_dot].
  unfold np_dot. apply is_shape_rows; [apply length_seq |].
  intros r _. now rewrite length_map, length_seq.
Qed.

Lemma np_dot_z_is_dot_z (np : numpy) (M1 M2 : matrix complex) :
  is_dot_z np M1 M2 (np_dot_z np M1 M2).
Proof.
  split; [| intros i j; apply entry_np_dot_z].
  unfold np_dot_z. apply is_shape_rows; [apply length_seq |].
  intros r _. now rewrite length_map, length_seq.
Qed.

Lemma dm_dot_is_dm_dot (np : numpy) (M1 M2 : dmat) :
  is_dm_dot np M1 M2 (dm_dot np M1 M2).
Proof.
  destruct M1, M2; simpl;
    first [apply np_dot_is_dot_d | apply np_dot_z_is_dot_z].
Qed.

Lemma entry_cast (n m : nat) (M : matrix float) (i j : nat) :
  is_shape n m M -> i < n -> j < m ->
  entry (cast M) i j = to_c (entry M i j).
Proof.
  intros Hs Hi Hj. pose proof (is_shape_row n m M i Hs Hi) as Hr.
  unfold entry, cast.
  rewrite (nth_map_in_range (map to_c) M i [] []) by (destruct Hs; lia).
  apply nth_map_in_range. lia.
Qed.

Lemma entry_mat_transpose {A : Type} `{Scalar A} (n : nat) (M : matrix A)
    (i j : nat) :
  is_shape n n M -> i < n -> j < n ->
  entry (mat_transpose M) i j = entry M j i.
Proof.
  intros Hs Hi Hj. unfold entry, mat_transpose.
  rewrite (mat_ncols_square n M Hs), (nth_map_seq _ _ i [] Hi).
  unfold mat_col.
  apply (nth_map_in_range (fun r => nth i r s_nan) M j [] s_nan).
  destruct Hs; lia.
Qed.

Lemma mat_transpose_is_transpose (n : nat) (M : matrix complex) :
  is_shape n n M -> is_transpose n M (mat_transpose M).
Proof.
  intros Hs. split; [now apply is_shape_transpose |].
  intros i j Hi Hj. now apply (entry_mat_transpose n).
Qed.

Lemma dm_transpose_is_transpose (n : nat) (M : dmat) :
  dm_shape n n M ->
  is_transpose n (dm_complex M) (dm_complex (dm_transpose M)).
Proof.
  intros Hs. destruct M as [M | M]; simpl in *.
  - split; [apply is_shape_map; now apply is_shape_transpose |].
    intros i j Hi Hj.
    rewrite (entry_cast n n _ i j (is_shape_transpose n M Hs) Hi Hj).
    rewrite (entry_cast n n M j i Hs Hj Hi).
    now rewrite (entry_mat_transpose n M i j Hs Hi Hj).
  - now apply mat_transpose_is_transpose.
Qed.

Lemma fill_diagonal_is_diagonal_of (n : nat) (b : dvec) :
  dv_length b = n -> is_diagonal_of n b (fill_diagonal n (dv_complex b)).
Proof.
  intros Hb. split; [apply is_shape_fill_diagonal |].
  assert (Hl : length (dv_complex b) = n)
    by (destruct b; simpl in *; now rewrite ?length_map).
  intros i j Hi Hj. unfold entry, fill_diagonal.
  rewrite (nth_map_seq _ _ i [] Hi), (nth_map_seq _ _ j _ Hj).
  destruct (Nat.eqb i j); [| reflexivity].
  unfold dv_nth. destruct (dv_complex b) as [| z l] eqn:E; [simpl in Hl; lia |].
  rewrite Hl, Nat.mod_small by exact Hi.
  apply nth_indep. lia.
Qed.

Lemma entry_mat_add (n : nat) (M1 M2 : matrix complex) (i j : nat) :
  is_shape n n M1 -> is_shape n n M2 -> i < n -> j < n ->
  entry (mat_add M1 M2) i j = cadd (entry M1 i j) (entry M2 i j).
Proof.
  intros [L1 R1] [L2 R2] Hi Hj. rewrite Forall_forall in R1, R2.
  assert (A1 : length (nth i M1 []) = n) by (apply R1, nth_In; lia).
  assert (A2 : length (nth i M2 []) = n) by (apply R2, nth_In; lia).
  unfold entry, mat_add.
  rewrite (nth_map_in_range _ (combine M1 M2) i ([], []) [])
    by (rewrite length_combine; lia).
  rewrite combine_nth by congruence. simpl.
  rewrite (nth_map_in_range (fun q => cadd (fst q) (snd q)) _ j
             (Cx nan nan, Cx nan nan) (Cx nan nan))
    by (rewrite length_combine; lia).
  rewrite combine_nth by congruence. reflexivity.
Qed.

Lemma entry_mat_neg (M : matrix complex) (i j : nat) :
  entry (mat_neg M) i j = cneg (entry M i j).
Proof. unfold entry, mat_neg. exact (nth_map_map cneg M i j s_nan). Qed.

Lemma dv_imag_nth (b : dvec) (k : nat) :
  k < dv_length b -> nth k (dv_imag b) nan = im (dv_nth b k).
Proof.
  intros Hk. unfold dv_nth. destruct b as [l | l]; simpl in *.
  - rewrite (nth_map_in_range (fun _ => 0) l k nan nan Hk).
    now rewrite (nth_map_in_range to_c l k nan _ Hk).
  - exact (map_nth im l (Cx nan nan) k).
Qed.

Lemma dv_real_nth (b : dvec) (k : nat) :
  k < dv_length b -> nth k (dv_real b) nan = re (dv_nth b k).
Proof.
  intros Hk. unfold dv_nth. destruct b as [l | l]; simpl in *.
  - now rewrite (nth_map_in_range to_c l k nan _ Hk).
  - exact (map_nth re l (Cx nan nan) k).
Qed.

Lemma periods_of_nth (b : dvec) (k : nat) :
  k < dv_length b ->
  nth k (periods_of b) nan = (2 * np_pi) / im (dv_nth b k).
Proof.
  intros Hk. unfold periods_of.
  rewrite (nth_map_nan (fun y => (2 * np_pi) / y)) by reflexivity.
  now rewrite dv_imag_nth.
Qed.

Lemma decay_time_nth (b : dvec) (k : nat) :
  k < dv_length b ->
  nth k (decay_time b) nan = (-1) / re (dv_nth b k).
Proof.
  intros Hk. unfold decay_time.
  rewrite (nth_map_nan (fun x => (-1) / x)) by reflexivity.
  now rewrite dv_real_nth.
Qed.

Lemma mul_not_finite_l (x y : float) :
  is_finite x = false -> is_finite (x * y) = false.
Proof.
  rewrite !is_finite_spec, mul_spec. unfold SF64mul, SFmul.
  destruct (Prim2SF x) as [a | a | | a m e]; simpl; try discriminate;
    intros _; destruct (Prim2SF y); reflexivity.
Qed.

Lemma combine_nth_In {A B : Type} (r : list A) (c : list B) (k : nat)
    (da : A) (db : B) :
  k < length r -> k < length c -> In (nth k r da, nth k c db) (combine r c).
Proof.
  revert c k. induction r as [| x r IH]; intros [| y c] [| k]; simpl;
    intros Hr Hc; try lia.
  - now left.
  - right. apply IH; lia.
Qed.

(** A NaN or an infinity in [cT] makes [G = cT . inv(c0)] fail the
    finiteness check of [LA.eig]. *)
Lemma np_dot_not_finite (np : numpy) (n : nat) (cT ic0 : matrix float)
    (i k : nat) :
  dot_spreads_non_finite np ->
  is_shape n n cT -> is_shape n n ic0 -> i < n -> k < n ->
  is_finite (entry cT i k) = false ->
  all_finite (np_dot np cT ic0) = false.
Proof.
  intros Hdot ST SI Hi Hk Hnf.
  pose proof (is_shape_np_dot np n cT ic0 ST SI) as [LG RG].
  pose proof (mat_ncols_square n ic0 SI) as Hcols.
  destruct (all_finite (np_dot np cT ic0)) eqn:E; [| reflexivity].
  exfalso. unfold all_finite in E. rewrite forallb_forall in E.
  assert (Hrow : In (nth i (np_dot np cT ic0) []) (np_dot np cT ic0))
    by (apply nth_In; lia).
  specialize (E _ Hrow). rewrite forallb_forall in E.
  rewrite Forall_forall in RG. specialize (RG _ Hrow).
  assert (Hent : is_finite (entry (np_dot np cT ic0) i 0) = true).
  { apply E. unfold entry. apply nth_In. lia. }
  rewrite entry_np_dot in Hent by (destruct ST; lia).
  rewrite (Hdot n cT ic0 i O k ST SI Hi ltac:(lia) Hk Hnf) in Hent.
  discriminate.
Qed.

(** The reference product meets the contract: a product with a
    non-finite factor is not finite, and it is one of the terms added. *)
Lemma ref_numpy_dot_spreads_non_finite : dot_spreads_non_finite ref_numpy.
Proof.
  intros n M1 M2 i j k S1 S2 Hi Hj Hk Hnf. simpl. unfold ref_dot, ref_inner.
  pose proof (is_shape_row n n M1 i S1 Hi) as Lr.
  assert (Lc : length (mat_col M2 j) = n)
    by (unfold mat_col; rewrite length_map; apply S2).
  assert (Hin : In (entry M1 i k * nth k (mat_col M2 j) nan)
                   (map (fun p => s_mul (fst p) (snd p))
                        (combine (nth i M1 []) (mat_col M2 j)))).
  { apply in_map_iff. exists (entry M1 i k, nth k (mat_col M2 j) nan).
    split; [reflexivity |]. unfold entry. apply combine_nth_In; lia. }
  destruct (map (fun p => s_mul (fst p) (snd p))
                (combine (nth i M1 []) (mat_col M2 j))) as [| p ps];
    [destruct Hin |].
  apply (float_sum_not_finite (p :: ps)).
  - exact (float_sum_fold ps [p] p (fs_one p)).
  - eexists. split; [exact Hin | now apply mul_not_finite_l].
Qed.

(** [Q] entry by entry. *)
Lemma Q_entries (np : numpy) (n : nat) (L : matrix complex) (c0 : matrix float) :
  is_shape n n L -> is_shape n n c0 ->
  exists Lt A B,
    is_transpose n L Lt /\
    is_dot_z np L (cast c0) A /\
    is_dot_z np (cast c0) Lt B /\
    is_shape n n A /\ is_shape n n B /\
    forall i j, i < n -> j < n ->
      entry (mat_neg (Q_negative np L c0)) i j =
      cneg (cadd (entry A i j) (entry B i j)).
Proof.
  intros HL Hc.
  assert (Hcc : is_shape n n (cast c0)) by now apply is_shape_map.
  pose proof (is_shape_transpose n L HL) as HLt.
  assert (SA : is_shape n n (np_dot_z np L (cast c0)))
    by now apply is_shape_np_dot_z.
  assert (SB : is_shape n n (np_dot_z np (cast c0) (mat_transpose L)))
    by now apply is_shape_np_dot_z.
  exists (mat_transpose L), (np_dot_z np L (cast c0)),
         (np_dot_z np (cast c0) (mat_transpose L)).
  split; [now apply mat_transpose_is_transpose |].
  split; [apply np_dot_z_is_dot_z |]. split; [apply np_dot_z_is_dot_z |].
  split; [exact SA |]. split; [exact SB |].
  intros i j Hi Hj. unfold Q_negative.
  now rewrite entry_mat_neg, (entry_mat_add n).
Qed.

(** * 18. The returned tuple (claim C9) *)

Lemma LIM_shapes (np : numpy) (X : ndarray) (lag : Z)
    (c0 cT ic0 : matrix float) (m : modes) (invNorm : dmat) :
  inv_keeps_shape np -> geev_shapes np -> argsort_permutes np ->
  covariances X lag = Ok (c0, cT) -> inv_d np c0 = Ok ic0 ->
  eigenmodes np (np_dot np cT ic0) lag = Ok m ->
  dm_inv np (norm_factors np (decay_sort np m)) = Ok invNorm ->
  let n := nrow X in
  let ms := decay_sort np m in
  let normU := dm_dot np (m_u ms) invNorm in
  let L := L_matrix np n normU ms in
  is_shape n n c0 /\ is_shape n n cT /\ is_shape n n (np_dot np cT ic0) /\
  dv_length (m_g ms) = n /\ dv_length (m_b ms) = n /\
  dm_shape n n (m_u ms) /\
  dm_shape n n (m_v ms) /\ dm_shape n n normU /\
  is_shape n n L /\ is_shape n n (Q_negative np L c0).
Proof.
  intros Hinv Hg Hp Hcov Hic0 Hm Hnorm n ms normU L.
  destruct (covariances_inv X lag c0 cT Hcov) as [_ [_ [S0 [ST _]]]].
  fold n in S0, ST.
  assert (Sic0 : is_shape n n ic0) by exact (proj1 Hinv n c0 ic0 S0 Hic0).
  assert (SG : is_shape n n (np_dot np cT ic0)) by now apply is_shape_np_dot.
  pose proof (eigenmodes_shapes np n _ lag m Hg Hp SG Hm) as Sm.
  destruct (decay_sort_shapes np n m Hp Sm) as [Lg [Su [Sv Lb]]].
  fold ms in Lg, Su, Sv, Lb.
  assert (Snf : dm_shape n n (norm_factors np ms)).
  { apply dm_shape_dot; [now apply dm_shape_transpose | exact Sv]. }
  assert (Sin : dm_shape n n invNorm) by exact (dm_inv_shape np n _ _ Hinv Snf Hnorm).
  assert (SnU : dm_shape n n normU) by now apply dm_shape_dot.
  assert (SL : is_shape n n L).
  { unfold L, L_matrix. apply is_shape_np_dot_z; [now apply dm_shape_complex |].
    apply is_shape_np_dot_z; [apply is_shape_fill_diagonal |].
    now apply dm_shape_complex, dm_shape_transpose. }
  assert (SQ : is_shape n n (Q_negative np L c0)).
  { apply is_shape_mat_add; apply is_shape_np_dot_z;
      try assumption; try (now apply is_shape_map); now apply is_shape_transpose. }
  exact (conj S0 (conj ST (conj SG (conj Lg (conj Lb (conj Su (conj Sv
          (conj SnU (conj SL SQ))))))))).
Qed.

(** C9.  Every successful call returns the eleven fields
    [(b_alpha, L, Q, G, c0, cT, normU, v, g, periods, decayT)] in that
    order.  With [N] the number of input rows, [b_alpha], [g], [periods]
    and [decayT] have length [N] and the seven matrices are [N x N].  Each
    slot holds the quantity of that name: [c0] and [cT] are the two
    covariance matrices of the input; [G] is the product [cT . inv(c0)];
    [g], [v] and [b_alpha] are the decay-sorted eigenvalues, adjoint modes
    and rates of [G]; [normU = u . inv(u^T . v)]; [L] is
    [normU . (diag(b_alpha) . v^T)]; [Q] is the negated sum of [L . c0] and
    [c0 . L^T]; [periods] and [decayT] are [2 pi / Im(b_alpha)] and
    [-1 / Re(b_alpha)].  The shapes are those numpy documents for the
    outputs of [LA.inv], [LA.eig] and [argsort]. *)
Theorem LIM_returns_eleven_fields (np : numpy) (X : ndarray) (lag : Z)
    (out : lim_output) :
  inv_keeps_shape np -> geev_shapes np -> argsort_permutes np ->
  LIM np X lag = Ok out ->
  let n := nrow X in
  (dv_length (out_b_alpha out) = n /\ dv_length (out_g out) = n /\
   length (out_periods out) = n /\ length (out_decayT out) = n /\
   is_shape n n (out_L out) /\ is_shape n n (out_Q out) /\
   is_shape n n (out_G out) /\ is_shape n n (out_c0 out) /\
   is_shape n n (out_cT out) /\
   dm_shape n n (out_normU out) /\ dm_shape n n (out_v out)) /\
  covariances X lag = Ok (out_c0 out, out_cT out) /\
  (exists ic0,
     inv_d np (out_c0 out) = Ok ic0 /\
     is_dot_d np (out_cT out) ic0 (out_G out)) /\
  (exists m u normFactors invNorm,
     eigenmodes np (out_G out) lag = Ok m /\
     out_g out = m_g (decay_sort np m) /\
     u = m_u (decay_sort np m) /\
     out_v out = m_v (decay_sort np m) /\
     out_b_alpha out = m_b (decay_sort np m) /\
     is_dm_dot np (dm_transpose u) (out_v out) normFactors /\
     dm_inv np normFactors = Ok invNorm /\
     is_dm_dot np u invNorm (out_normU out)) /\
  (exists beta vT B,
     is_diagonal_of n (out_b_alpha out) beta /\
     is_transpose n (dm_complex (out_v out)) vT /\
     is_dot_z np beta vT B /\
     is_dot_z np (dm_complex (out_normU out)) B (out_L out)) /\
  (exists Lt A B,
     is_transpose n (out_L out) Lt /\
     is_dot_z np (out_L out) (cast (out_c0 out)) A /\
     is_dot_z np (cast (out_c0 out)) Lt B /\
     forall i j, i < n -> j < n ->
       entry (out_Q out) i j = cneg (cadd (entry A i j) (entry B i j))) /\
  (forall k, k < n ->
     nth k (out_periods out) nan = (2 * np_pi) / im (dv_nth (out_b_alpha out) k) /\
     nth k (out_decayT out) nan = (-1) / re (dv_nth (out_b_alpha out) k)).
Proof.
  intros Hinv Hg Hp H n.
  destruct (LIM_inv np X lag out H)
    as [c0 [cT [ic0 [m [invNorm [Hcov [Hic0 [Hm [Hnorm Hout]]]]]]]]].
  destruct (LIM_shapes np X lag c0 cT ic0 m invNorm Hinv Hg Hp Hcov Hic0 Hm Hnorm)
    as [S0 [ST [SG [Lg [Lb [Su [Sv [SnU [SL SQ]]]]]]]]].
  simpl in Hout. subst out. simpl.
  fold n in S0, ST, SG, Lg, Lb, Su, Sv, SnU, SL, SQ.
  split; [| split; [exact Hcov | split; [| split; [| split; [| split]]]]].
  - split; [exact Lb |]. split; [exact Lg |].
    split; [now rewrite periods_of_length |].
    split; [now rewrite decay_time_length |].
    split; [exact SL |].
    split; [exact (is_shape_map cneg _ _ _ SQ) |].
    split; [exact SG |]. split; [exact S0 |]. split; [exact ST |].
    split; [exact SnU | exact Sv].
  - exists ic0. split; [exact Hic0 | apply np_dot_is_dot_d].
  - exists m, (m_u (decay_sort np m)), (norm_factors np (decay_sort np m)), invNorm.
    split; [exact Hm |]. repeat (split; [reflexivity |]).
    split; [apply dm_dot_is_dm_dot |].
    split; [exact Hnorm | apply dm_dot_is_dm_dot].
  - eexists _, _, _.
    split; [exact (fill_diagonal_is_diagonal_of n _ Lb) |].
    split; [exact (dm_transpose_is_transpose n _ Sv) |].
    split; apply np_dot_z_is_dot_z.
  - destruct (Q_entries np n _ c0 SL S0) as [Lt [A [B [H1 [H2 [H3 [_ [_ H4]]]]]]]].
    exists Lt, A, B. repeat split; try assumption; apply H1 || apply H2 || apply H3.
  - intros k Hk. split.
    + apply periods_of_nth.
      change (k < dv_length (m_b (decay_sort np m))). now rewrite Lb.
    + apply decay_time_nth.
      change (k < dv_length (m_b (decay_sort np m))). now rewrite Lb.
Qed.

(** Two variables, seven samples, lag 1: [c0 = diag(2, 1)],
    [cT = diag(1, 1)] and [G = diag(1/2, 1)]; every returned value is
    finite except the decay time [-inf] and the periods [inf]. *)
Lemma LIM_returns_eleven_fields_witness :
  let X := of_rows 7 [[0; 1; 2; 1; -2; -2; 0]; [1; 1; 1; 1; 1; 1; 1]] in
  let n := 2%nat in
  inv_keeps_shape ref_numpy /\ geev_shapes ref_numpy /\
  argsort_permutes ref_numpy /\
  exists out,
    LIM ref_numpy X 1 = Ok out /\
    out_c0 out = [[2; 0]; [0; 1]] /\ out_cT out = [[1; 0]; [0; 1]] /\
    out_G out = [[0.5; 0]; [0; 1]] /\
    out_g out = VR [0.5; 1] /\ out_b_alpha out = VR [- ln2; 0] /\
    (dv_length (out_b_alpha out) = n /\ dv_length (out_g out) = n /\
     length (out_periods out) = n /\ length (out_decayT out) = n /\
     is_shape n n (out_L out) /\ is_shape n n (out_Q out) /\
     is_shape n n (out_G out) /\ is_shape n n (out_c0 out) /\
     is_shape n n (out_cT out) /\
     dm_shape n n (out_normU out) /\ dm_shape n n (out_v out)) /\
    covariances X 1 = Ok (out_c0 out, out_cT out) /\
    (exists ic0,
       inv_d ref_numpy (out_c0 out) = Ok ic0 /\
       is_dot_d ref_numpy (out_cT out) ic0 (out_G out)) /\
    (exists m u normFactors invNorm,
       eigenmodes ref_numpy (out_G out) 1 = Ok m /\
       out_g out = m_g (decay_sort ref_numpy m) /\
       u = m_u (decay_sort ref_numpy m) /\
       out_v out = m_v (decay_sort ref_numpy m) /\
       out_b_alpha out = m_b (decay_sort ref_numpy m) /\
       is_dm_dot ref_numpy (dm_transpose u) (out_v out) normFactors /\
       dm_inv ref_numpy normFactors = Ok invNorm /\
       is_dm_dot ref_numpy u invNorm (out_normU out)) /\
    (exists beta vT B,
       is_diagonal_of n (out_b_alpha out) beta /\
       is_transpose n (dm_complex (out_v out)) vT /\
       is_dot_z ref_numpy beta vT B /\
       is_dot_z ref_numpy (dm_complex (out_normU out)) B (out_L out)) /\
    (exists Lt A B,
       is_transpose n (out_L out) Lt /\
       is_dot_z ref_numpy (out_L out) (cast (out_c0 out)) A /\
       is_dot_z ref_numpy (cast (out_c0 out)) Lt B /\
       forall i j, i < n -> j < n ->
         entry (out_Q out) i j = cneg (cadd (entry A i j) (entry B i j))) /\
    (forall k, k < n ->
       nth k (out_periods out) nan = (2 * np_pi) / im (dv_nth (out_b_alpha out) k) /\
       nth k (out_decayT out) nan = (-1) / re (dv_nth (out_b_alpha out) k)).
Proof.
  intros X n.
  split; [exact ref_numpy_inv_keeps_shape |].
  split; [exact ref_numpy_geev_shapes |].
  split; [exact ref_numpy_argsort_permutes |].
  eexists. split; [vm_compute; reflexivity |].
  do 5 (split; [vm_compute; reflexivity |]).
  refine (LIM_returns_eleven_fields ref_numpy X 1 _ ref_numpy_inv_keeps_shape
            ref_numpy_geev_shapes ref_numpy_argsort_permutes _).
  vm_compute. reflexivity.
Defined.

(** * 19. The decay-time ordering (claim C4) *)

Lemma leb_rank (a b : float) :
  is_nan a = false -> is_nan b = false ->
  (b <=? a) = negb (lex_ltb (rank (Prim2SF a)) (rank (Prim2SF b))).
Proof.
  rewrite leb_spec, !is_nan_SF. unfold SFleb.
  destruct (Prim2SF a) as [s | s | | s m e], (Prim2SF b) as [t | t | | t n f];
    simpl; try discriminate; intros _ _;
    try (destruct s); try (destruct t); try reflexivity.
  all: unfold lex_ltb; rewrite Pos.compare_cont_spec; simpl;
    change (Pos.compare n m) with (Z.compare (Z.pos n) (Z.pos m));
    destruct (Z.compare_spec f e), (Z.compare_spec (Z.pos n) (Z.pos m)); simpl;
    repeat match goal with
           | |- context [Z.ltb ?a ?b] => destruct (Z.ltb_spec a b)
           | |- context [Z.eqb ?a ?b] => destruct (Z.eqb_spec a b)
           end; simpl; try reflexivity; try lia.
Qed.

Lemma np_less_false_leb (a b : float) :
  np_less a b = false -> is_nan a = false -> is_nan b = false ->
  (b <=? a) = true.
Proof.
  intros H Ha Hb. rewrite (leb_rank a b Ha Hb), <- np_less_rank, H. reflexivity.
Qed.

Lemma StronglySorted_nth {A : Type} (R : A -> A -> Prop) (l : list A) (d : A) :
  StronglySorted R l ->
  forall i j, i < j -> j < length l -> R (nth i l d) (nth j l d).
Proof.
  induction 1 as [| a l Hs IH Hall]; simpl; intros i j Hij Hj; [lia |].
  destruct j as [| j]; [lia |]. destruct i as [| i].
  - apply (proj1 (Forall_forall _ _) Hall). apply nth_In. lia.
  - apply IH; lia.
Qed.

(** In IEEE terms: later entries of a [non_increasing] list are [<=]
    earlier ones, NaNs apart (numpy sorts NaN as the largest value). *)
Lemma non_increasing_leb (l : list float) :
  non_increasing l ->
  forall i j, i < j -> j < length l ->
    is_nan (nth i l nan) = false -> is_nan (nth j l nan) = false ->
    (nth j l nan <=? nth i l nan) = true.
Proof.
  intros Hs i j Hij Hj Hi Hn. apply np_less_false_leb; try assumption.
  exact (StronglySorted_nth _ l nan Hs i j Hij Hj).
Qed.

Lemma dv_real_take (idx : list nat) (b : dvec) :
  dv_real (dv_take idx b) = take idx (dv_real b).
Proof.
  destruct b as [l | l]; simpl; [reflexivity |].
  unfold take. rewrite map_map. apply map_ext. intros k.
  change (@s_nan float Scalar_float) with (re (@s_nan complex Scalar_complex)).
  now rewrite map_nth.
Qed.

Lemma decay_time_take (idx : list nat) (b : dvec) :
  decay_time (dv_take idx b) = take idx (decay_time b).
Proof.
  unfold decay_time. rewrite dv_real_take. unfold take.
  rewrite map_map. apply map_ext. intros k. symmetry.
  apply (nth_map_nan (fun x => (-1) / x)). reflexivity.
Qed.

Lemma iSort2_permutation (np : numpy) (m : modes) :
  argsort_permutes np ->
  Permutation (iSort2 np m) (seq 0 (dv_length (m_b m))).
Proof.
  intros [Hd _]. unfold iSort2.
  eapply perm_trans; [apply Permutation_sym, Permutation_rev |].
  rewrite <- decay_time_length. apply Hd.
Qed.

Lemma iSort2_sorts (np : numpy) (m : modes) :
  argsort_sorts np ->
  non_increasing (take (iSort2 np m) (decay_time (m_b m))).
Proof.
  intros Hs. unfold iSort2. rewrite take_rev. apply ascending_rev, Hs.
Qed.

Lemma nth_take {A : Type} `{Scalar A} (idx : list nat) (l : list A) (k : nat) :
  k < length idx -> nth k (take idx l) s_nan = nth (nth k idx O) l s_nan.
Proof.
  intros Hk. unfold take.
  exact (nth_map_in_range (fun i => nth i l s_nan) idx k O s_nan Hk).
Qed.

Lemma dv_nth_take (idx : list nat) (a : dvec) (k : nat) :
  k < length idx -> nth k idx O < dv_length a ->
  dv_nth (dv_take idx a) k = dv_nth a (nth k idx O).
Proof.
  intros Hk Hp. unfold dv_nth. destruct a as [l | l]; simpl in *.
  - rewrite (nth_map_in_range to_c (take idx l) k nan)
      by (unfold take; now rewrite length_map).
    rewrite (nth_map_in_range to_c l _ nan _ Hp). f_equal.
    exact (nth_take idx l k Hk).
  - exact (nth_take idx l k Hk).
Qed.

Lemma entry_take_cols {A : Type} `{Scalar A} (n m : nat) (idx : list nat)
    (M : matrix A) (r k : nat) :
  is_shape n m M -> r < n -> k < length idx ->
  entry (take_cols idx M) r k = entry M r (nth k idx O).
Proof.
  intros [Hn _] Hr Hk. unfold entry, take_cols.
  rewrite (nth_map_in_range (take idx) M r [] []) by lia.
  now apply nth_take.
Qed.

Lemma dm_entry_take_cols (n : nat) (idx : list nat) (M : dmat) (r k : nat) :
  dm_shape n n M -> r < n -> k < length idx -> nth k idx O < n ->
  dm_entry (dm_take_cols idx M) r k = dm_entry M r (nth k idx O).
Proof.
  intros Hs Hr Hk Hp. unfold dm_entry. destruct M as [M | M]; simpl in *.
  - rewrite (entry_cast n (length idx) _ r k
               (is_shape_take_cols n n idx M Hs) Hr Hk).
    rewrite (entry_cast n n M r _ Hs Hr Hp).
    now rewrite (entry_take_cols n n idx M r k Hs Hr Hk).
  - exact (entry_take_cols n n idx M r k Hs Hr Hk).
Qed.

(** C4.  In the returned outputs one permutation [idx] of the modes --
    the reversed ascending [argsort] of the key
    [sortVal = -1/Re(b_alpha)], that is the key in decreasing order -- has
    been applied to [g], [b_alpha] and the columns of [u] and [v]: entry
    [k] of each returned array is entry [idx[k]] of the array before the
    sort, and the dtypes are kept.  [normU] is formed from the [u] and [v] so permuted, and
    [periods] and [decayT] from the permuted [b_alpha].  Hence [decayT[k]]
    is [sortVal[idx[k]]], [decayT] is non-increasing, and all outputs list
    the modes in the same order.  The ordering is the one numpy documents
    for [argsort] (ascending, NaN last). *)
Theorem modes_sorted_by_decay_time (np : numpy) (X : ndarray) (lag : Z)
    (out : lim_output) :
  inv_keeps_shape np -> geev_shapes np ->
  argsort_permutes np -> argsort_sorts np ->
  LIM np X lag = Ok out ->
  let n := nrow X in
  exists (m : modes) (idx : list nat) (u normFactors invNorm : dmat),
    eigenmodes np (out_G out) lag = Ok m /\
    let sortVal := map (fun x => (-1) / x) (dv_real (m_b m)) in
    idx = rev (argsort_d np sortVal) /\
    Permutation idx (seq 0 n) /\
    (forall k, k < n ->
       let p := nth k idx O in
       p < n /\
       dv_nth (out_g out) k = dv_nth (m_g m) p /\
       dv_nth (out_b_alpha out) k = dv_nth (m_b m) p /\
       (forall r, r < n ->
          dm_entry u r k = dm_entry (m_u m) r p /\
          dm_entry (out_v out) r k = dm_entry (m_v m) r p) /\
       nth k (out_periods out) nan =
         (2 * np_pi) / im (dv_nth (out_b_alpha out) k) /\
       nth k (out_decayT out) nan = (-1) / re (dv_nth (out_b_alpha out) k) /\
       nth k (out_decayT out) nan = nth p sortVal nan) /\
    dv_length (out_g out) = n /\ dv_length (out_b_alpha out) = n /\
    dm_shape n n u /\ dm_shape n n (out_v out) /\
    dv_is_real (out_g out) = dv_is_real (m_g m) /\
    dv_is_real (out_b_alpha out) = dv_is_real (m_b m) /\
    dm_is_real u = dm_is_real (m_u m) /\
    dm_is_real (out_v out) = dm_is_real (m_v m) /\
    length (out_periods out) = n /\ length (out_decayT out) = n /\
    is_dm_dot np (dm_transpose u) (out_v out) normFactors /\
    dm_inv np normFactors = Ok invNorm /\
    is_dm_dot np u invNorm (out_normU out) /\
    non_increasing (out_decayT out) /\
    forall i j, i < j -> j < n ->
      is_nan (nth i (out_decayT out) nan) = false ->
      is_nan (nth j (out_decayT out) nan) = false ->
      (nth j (out_decayT out) nan <=? nth i (out_decayT out) nan) = true.
Proof.
  intros Hinv Hg Hp Hs H n.
  destruct (LIM_inv np X lag out H)
    as [c0 [cT [ic0 [m [invNorm [Hcov [Hic0 [Hm [Hnorm Hout]]]]]]]]].
  destruct (LIM_shapes np X lag c0 cT ic0 m invNorm Hinv Hg Hp Hcov Hic0 Hm Hnorm)
    as [S0 [ST [SG [Lg [Lb [Su [Sv [SnU [SL SQ]]]]]]]]].
  fold n in S0, ST, SG, Lg, Lb, Su, Sv, SnU, SL, SQ.
  destruct (eigenmodes_shapes np n _ lag m Hg Hp SG Hm) as [Lg0 [Su0 [Sv0 Lb0]]].
  pose proof (iSort2_permutation np m Hp) as Hperm. rewrite Lb0 in Hperm.
  pose proof (iSort2_sorts np m Hs) as Hsorted.
  assert (Hlen : length (iSort2 np m) = n)
    by (rewrite (Permutation_length Hperm); apply length_seq).
  assert (Hrange : forall k, k < n -> nth k (iSort2 np m) O < n).
  { intros k Hk.
    assert (Hin : In (nth k (iSort2 np m) O) (seq 0 n))
      by (apply (Permutation_in _ Hperm), nth_In; lia).
    apply in_seq in Hin. lia. }
  assert (Hd : decay_time (dv_take (iSort2 np m) (m_b m)) =
               take (iSort2 np m) (decay_time (m_b m)))
    by apply decay_time_take.
  simpl in Hout. subst out.
  exists m, (iSort2 np m), (dm_take_cols (iSort2 np m) (m_u m)),
         (norm_factors np (decay_sort np m)), invNorm.
  cbn [out_G out_g out_b_alpha out_v out_normU out_periods out_decayT].
  split; [exact Hm |]. cbv zeta.
  split; [reflexivity |]. split; [exact Hperm |].
  split.
  { intros k Hk. pose proof (Hrange k Hk) as Hpk.
    split; [exact Hpk |].
    split; [apply dv_nth_take; lia |].
    split; [apply dv_nth_take; lia |].
    split.
    { intros r Hr.
      split; apply (dm_entry_take_cols n); try assumption; lia. }
    split; [apply periods_of_nth; rewrite dv_length_take; lia |].
    split; [apply decay_time_nth; rewrite dv_length_take; lia |].
    rewrite Hd. refine (nth_take (iSort2 np m) (decay_time (m_b m)) k _). lia. }
  split; [exact Lg |]. split; [exact Lb |].
  split; [exact Su |]. split; [exact Sv |].
  split; [now destruct (m_g m) |]. split; [now destruct (m_b m) |].
  split; [now destruct (m_u m) |]. split; [now destruct (m_v m) |].
  split; [rewrite periods_of_length; exact Lb |].
  split; [rewrite decay_time_length; exact Lb |].
  split; [apply dm_dot_is_dm_dot |].
  split; [exact Hnorm |].
  split; [apply dm_dot_is_dm_dot |].
  rewrite Hd. split; [exact Hsorted |].
  intros i j Hij Hj. apply non_increasing_leb; [exact Hsorted | exact Hij |].
  unfold take. rewrite length_map. lia.
Qed.

(** Two variables, seven samples, lag 1: [LA.eig] lists the eigenvalues
    as [1; 1/2] after the first sort, with rates [0; -ln 2] and keys
    [-inf; 1/ln 2]; the final sort exchanges the two modes. *)
Lemma modes_sorted_by_decay_time_witness :
  let X := of_rows 7 [[0; 1; 2; 1; -2; -2; 0]; [1; 1; 1; 1; 1; 1; 1]] in
  let n := 2%nat in
  inv_keeps_shape ref_numpy /\ geev_shapes ref_numpy /\
  argsort_permutes ref_numpy /\ argsort_sorts ref_numpy /\
  exists out,
    LIM ref_numpy X 1 = Ok out /\
    out_g out = VR [0.5; 1] /\
    out_decayT out = [0x1.71547652b82fep+0; neg_infinity] /\
    exists (m : modes) (idx : list nat) (u normFactors invNorm : dmat),
      m_g m = VR [1; 0.5] /\ idx = [1%nat; O] /\
      eigenmodes ref_numpy (out_G out) 1 = Ok m /\
      let sortVal := map (fun x => (-1) / x) (dv_real (m_b m)) in
      idx = rev (argsort_d ref_numpy sortVal) /\
      Permutation idx (seq 0 n) /\
      (forall k, k < n ->
         let p := nth k idx O in
         p < n /\
         dv_nth (out_g out) k = dv_nth (m_g m) p /\
         dv_nth (out_b_alpha out) k = dv_nth (m_b m) p /\
         (forall r, r < n ->
            dm_entry u r k = dm_entry (m_u m) r p /\
            dm_entry (out_v out) r k = dm_entry (m_v m) r p) /\
         nth k (out_periods out) nan =
           (2 * np_pi) / im (dv_nth (out_b_alpha out) k) /\
         nth k (out_decayT out) nan = (-1) / re (dv_nth (out_b_alpha out) k) /\
         nth k (out_decayT out) nan = nth p sortVal nan) /\
      dv_length (out_g out) = n /\ dv_length (out_b_alpha out) = n /\
      dm_shape n n u /\ dm_shape n n (out_v out) /\
      dv_is_real (out_g out) = dv_is_real (m_g m) /\
      dv_is_real (out_b_alpha out) = dv_is_real (m_b m) /\
      dm_is_real u = dm_is_real (m_u m) /\
      dm_is_real (out_v out) = dm_is_real (m_v m) /\
      length (out_periods out) = n /\ length (out_decayT out) = n /\
      is_dm_dot ref_numpy (dm_transpose u) (out_v out) normFactors /\
      dm_inv ref_numpy normFactors = Ok invNorm /\
      is_dm_dot ref_numpy u invNorm (out_normU out) /\
      non_increasing (out_decayT out) /\
      forall i j, i < j -> j < n ->
        is_nan (nth i (out_decayT out) nan) = false ->
        is_nan (nth j (out_decayT out) nan) = false ->
        (nth j (out_decayT out) nan <=? nth i (out_decayT out) nan) = true.
Proof.
  intros X n.
  split; [exact ref_numpy_inv_keeps_shape |].
  split; [exact ref_numpy_geev_shapes |].
  split; [exact ref_numpy_argsort_permutes |].
  split; [exact ref_numpy_argsort_sorts |].
  eexists. split; [vm_compute; reflexivity |].
  split; [vm_compute; reflexivity |].
  split; [vm_compute; reflexivity |].
  match goal with
  | |- context [out_G ?o] =>
      assert (H : LIM ref_numpy X 1 = Ok o) by (vm_compute; reflexivity);
      destruct (modes_sorted_by_decay_time ref_numpy X 1 o
                  ref_numpy_inv_keeps_shape ref_numpy_geev_shapes
                  ref_numpy_argsort_permutes ref_numpy_argsort_sorts H)
        as [m [idx [u [nf [invNorm [Hm [Hidx Hrest]]]]]]]
  end.
  exists m, idx, u, nf, invNorm.
  assert (Em : m = Modes (VR [1; 0.5])
                 (MR [[0; 1]; [1; 0]]) (MR [[0; 1]; [1; 0]]) (VR [0; - ln2])).
  { vm_compute in Hm. injection Hm as <-. reflexivity. }
  split; [rewrite Em; reflexivity |].
  split; [rewrite Hidx, Em; vm_compute; reflexivity |].
  split; [exact Hm |]. split; [exact Hidx | exact Hrest].
Defined.

(** * 20. The noise covariance [Q] (claim C2) *)

Lemma cadd_cneg (a : complex) : cadd a (cneg a) = cancelled a.
Proof.
  unfold cadd, cneg, cancelled. simpl.
  destruct (is_finite (re a)) eqn:Er, (is_finite (im a)) eqn:Ei;
    rewrite ?(add_opp_diag _ Er), ?(add_opp_diag _ Ei),
            ?(add_opp_not_finite _ Er), ?(add_opp_not_finite _ Ei);
    reflexivity.
Qed.

(** The claim C2 as stated fails on the series [[1; 0]] at lag 1: the
    lagged covariance is 0, so [G = 0], [b_alpha = log(0) = -inf], and the
    returned [L] and [Q] are NaN; [L.c0 + c0.L^T + Q] is then NaN, not 0. *)
Lemma fluctuation_dissipation_counterexample :
  let X := of_rows 2 [[1; 0]] in
  exists out,
    LIM ref_numpy X 1 = Ok out /\
    out_G out = [[0]] /\ out_b_alpha out = VR [neg_infinity] /\
    out_L out = [[Cx nan nan]] /\ out_Q out = [[Cx nan nan]] /\
    mat_add (Q_negative ref_numpy (out_L out) (out_c0 out)) (out_Q out)
      = [[Cx nan nan]] /\
    mat_add (Q_negative ref_numpy (out_L out) (out_c0 out)) (out_Q out)
      <> [[Cx 0 0]].
Proof.
  intros X. eexists. split; [vm_compute; reflexivity |].
  repeat split; try (vm_compute; reflexivity).
  intros E. apply (f_equal (fun M => is_nan (re (entry M 0 0)))) in E.
  vm_compute in E. discriminate.
Qed.

(** C2, amended.  On every input on which the computation returns, [Q] is
    [N x N] and each of its entries is the negation, part by part, of the
    entry of [L.c0 + c0.L^T] for the returned [L] and [c0], the two
    products being the ones [np.dot] computes.  Hence every entry of
    [L.c0 + c0.L^T + Q] is exactly [+0] in each real or imaginary part
    where [L.c0 + c0.L^T] is finite and NaN where it is infinite or NaN;
    it is zero wherever the entry of [L.c0 + c0.L^T] is finite. *)
Theorem fluctuation_dissipation (np : numpy) (X : ndarray) (lag : Z)
    (out : lim_output) :
  inv_keeps_shape np -> geev_shapes np -> argsort_permutes np ->
  LIM np X lag = Ok out ->
  let n := nrow X in
  exists Lt LC CL : matrix complex,
    is_transpose n (out_L out) Lt /\
    is_dot_z np (out_L out) (cast (out_c0 out)) LC /\
    is_dot_z np (cast (out_c0 out)) Lt CL /\
    is_shape n n (out_Q out) /\
    forall i j, i < n -> j < n ->
      let s := cadd (entry LC i j) (entry CL i j) in
      entry (out_Q out) i j = Cx (- re s) (- im s) /\
      cadd s (entry (out_Q out) i j) = cancelled s /\
      (is_finite (re s) && is_finite (im s) = true ->
       cadd s (entry (out_Q out) i j) = Cx 0 0).
Proof.
  intros Hinv Hg Hp H n.
  destruct (LIM_inv np X lag out H)
    as [c0 [cT [ic0 [m [invNorm [Hcov [Hic0 [Hm [Hnorm Hout]]]]]]]]].
  destruct (LIM_shapes np X lag c0 cT ic0 m invNorm Hinv Hg Hp Hcov Hic0 Hm Hnorm)
    as [S0 [_ [_ [_ [_ [_ [_ [_ [SL SQ]]]]]]]]].
  fold n in S0, SL, SQ.
  destruct (Q_entries np n _ c0 SL S0) as [Lt [A [B [H1 [H2 [H3 [_ [_ H4]]]]]]]].
  cbv zeta in Hout. subst out.
  cbn [out_L out_c0 out_Q]. fold n.
  exists Lt, A, B.
  split; [exact H1 |]. split; [exact H2 |]. split; [exact H3 |].
  split; [exact (is_shape_map cneg _ _ _ SQ) |].
  intros i j Hi Hj. cbv zeta. rewrite (H4 i j Hi Hj).
  split; [reflexivity |]. split; [apply cadd_cneg |].
  intros Hfin. rewrite cadd_cneg. unfold cancelled.
  apply andb_true_iff in Hfin. destruct Hfin as [-> ->]. reflexivity.
Qed.

(** Two variables, seven samples, lag 1: [L = diag(-ln 2, 0)] and
    [Q[0,0] = 4 ln 2]; every entry is finite and the balance is exact. *)
Lemma fluctuation_dissipation_witness :
  let X := of_rows 7 [[0; 1; 2; 1; -2; -2; 0]; [1; 1; 1; 1; 1; 1; 1]] in
  let n := 2%nat in
  inv_keeps_shape ref_numpy /\ geev_shapes ref_numpy /\
  argsort_permutes ref_numpy /\
  exists out,
    LIM ref_numpy X 1 = Ok out /\
    out_c0 out = [[2; 0]; [0; 1]] /\
    re (entry (out_L out) 0 0) = - ln2 /\
    re (entry (out_Q out) 0 0) = 0x1.62e42fefa39efp+1 /\
    exists Lt LC CL : matrix complex,
      is_transpose n (out_L out) Lt /\
      is_dot_z ref_numpy (out_L out) (cast (out_c0 out)) LC /\
      is_dot_z ref_numpy (cast (out_c0 out)) Lt CL /\
      is_shape n n (out_Q out) /\
      forall i j, i < n -> j < n ->
        let s := cadd (entry LC i j) (entry CL i j) in
        entry (out_Q out) i j = Cx (- re s) (- im s) /\
        cadd s (entry (out_Q out) i j) = cancelled s /\
        (is_finite (re s) && is_finite (im s) = true ->
         cadd s (entry (out_Q out) i j) = Cx 0 0).
Proof.
  intros X n.
  split; [exact ref_numpy_inv_keeps_shape |].
  split; [exact ref_numpy_geev_shapes |].
  split; [exact ref_numpy_argsort_permutes |].
  eexists. split; [vm_compute; reflexivity |].
  do 3 (split; [vm_compute; reflexivity |]).
  refine (fluctuation_dissipation ref_numpy X 1 _ ref_numpy_inv_keeps_shape
            ref_numpy_geev_shapes ref_numpy_argsort_permutes _).
  vm_compute. reflexivity.
Defined.

(** * 21. Singular matrices (claim C5) *)











(** An error raised by either call of [LA.inv] ends the run: nothing is
    returned in its place. *)
Lemma inversion_failure_aborts (np : numpy) (X : ndarray) (lag : Z)
    (c0 cT : matrix float) (e : exc) :
  covariances X lag = Ok (c0, cT) ->
  inv_d np c0 = Raise e \/
  (exists ic0 m,
     inv_d np c0 = Ok ic0 /\ eigenmodes np (np_dot np cT ic0) lag = Ok m /\
     dm_inv np (norm_factors np (decay_sort np m)) = Raise e) ->
  LIM np X lag = Raise e.
Proof.
  intros Hcov H.
  rewrite LIM_from_covariances by exact (covariances_lag_bound X lag _ Hcov).
  rewrite Hcov. simpl. destruct H as [Hinv | [ic0 [m [Hinv [Hm Hn]]]]].
  - now rewrite Hinv.
  - rewrite Hinv. simpl. rewrite Hm. simpl. unfold reconstruct. now rewrite Hn.
Qed.




(** * 22. Rates, periods and decay times (claim C8) *)

Lemma eigenmodes_rates (np : numpy) (G : matrix float) (lag : Z) (m : modes) :
  eigenmodes np G lag = Ok m -> m_b m = dv_div_int (dv_log np (m_g m)) lag.
Proof.
  unfold eigenmodes. intros H.
  apply bind_ok_inv in H. destruct H as [[g u] [_ H]].
  apply bind_ok_inv in H. destruct H as [[gT v] [_ H]].
  inversion H. reflexivity.
Qed.

Lemma take_map_in_range {A B : Type} `{Scalar A} `{Scalar B} (f : A -> B)
    (idx : list nat) (l : list A) :
  (forall k, In k idx -> k < length l) ->
  take idx (map f l) = map f (take idx l).
Proof.
  intros Hr. unfold take. rewrite map_map. apply map_ext_in. intros k Hk.
  rewrite (nth_indep (map f l) s_nan (f s_nan)) by (rewrite length_map; auto).
  apply map_nth.
Qed.

Lemma dv_take_rates (np : numpy) (lag : Z) (idx : list nat) (g : dvec) :
  (forall k, In k idx -> k < dv_length g) ->
  dv_take idx (dv_div_int (dv_log np g) lag) =
  dv_div_int (dv_log np (dv_take idx g)) lag.
Proof.
  intros Hr. destruct g as [l | l]; simpl in *; f_equal.
  - rewrite <- !take_map_in_range; auto. now rewrite length_map.
  - rewrite <- !take_map_in_range; auto. now rewrite length_map.
Qed.

Lemma div_by_zero_infinite (c y : float) :
  is_finite c = true -> (c =? 0) = false -> (y =? 0) = true ->
  is_infinity (c / y) = true.
Proof.
  intros Hc Hnz Hy. unfold is_infinity.
  rewrite FloatAxioms.eqb_spec, abs_spec, div_spec.
  change (Prim2SF infinity) with (S754_infinity false).
  rewrite FloatAxioms.eqb_spec in Hnz, Hy. rewrite is_finite_spec in Hc.
  change (Prim2SF 0) with (S754_zero false) in Hnz, Hy.
  unfold SFeqb in *. unfold SF64div.
  destruct (Prim2SF c) as [s | s | | s m e]; simpl in Hc, Hnz; try discriminate;
    destruct (Prim2SF y) as [t | t | | t n f]; simpl in Hy; try discriminate;
    try (destruct t; discriminate); reflexivity.
Qed.

(** The claim C8 as stated fails on the series [[1; -1]] at lag 1: the one
    eigenvalue is [g = -1], real, so [np.log] runs its float64 loop and
    [b_alpha] is NaN with decay time NaN and period [inf], where the
    principal complex logarithm gives [b_alpha = 0 + pi j]. *)
Lemma principal_log_counterexample :
  let X := of_rows 2 [[1; -1]] in
  exists out,
    LIM ref_numpy X 1 = Ok out /\
    out_g out = VR [-1] /\
    out_b_alpha out = VR [nan] /\
    out_periods out = [infinity] /\ out_decayT out = [nan] /\
    principal_log_rates ref_numpy 1 (out_g out) = [Cx 0 np_pi] /\
    dv_complex (out_b_alpha out) <> principal_log_rates ref_numpy 1 (out_g out).
Proof.
  intros X. eexists. split; [vm_compute; reflexivity |].
  repeat split; try (vm_compute; reflexivity).
  intros E.
  apply (f_equal (fun l => is_nan (re (nth 0 l (Cx 0 0))))) in E.
  vm_compute in E. discriminate.
Qed.

(** C8, amended.  For every mode of the returned outputs,
    [b_alpha = log(g) / lag] where [log] is numpy's logarithm at the dtype
    of [g]: the principal complex logarithm when [LA.eig] returned complex
    eigenvalues, the float64 logarithm (NaN for a negative eigenvalue)
    when all eigenvalues are real.  [periods = 2 pi / Im(b_alpha)] and
    [decayT = -1 / Re(b_alpha)]; where [Im(b_alpha)] or [Re(b_alpha)] is
    zero the period or decay time is an infinity, returned like any other
    value. *)
Theorem rates_periods_decay_times (np : numpy) (X : ndarray) (lag : Z)
    (out : lim_output) :
  argsort_permutes np ->
  LIM np X lag = Ok out ->
  match out_g out with
  | VR g => out_b_alpha out = VR (map (fun x => np_log np x / float_of_Z lag) g)
  | VC g => out_b_alpha out =
            VC (map (fun z => cdiv (np_clog np z) (to_c (float_of_Z lag))) g)
  end /\
  out_periods out = map (fun y => (2 * np_pi) / y) (dv_imag (out_b_alpha out)) /\
  out_decayT out = map (fun x => (-1) / x) (dv_real (out_b_alpha out)) /\
  (forall k, k < dv_length (out_b_alpha out) ->
     (nth k (dv_imag (out_b_alpha out)) nan =? 0) = true ->
     is_infinity (nth k (out_periods out) nan) = true) /\
  (forall k, k < dv_length (out_b_alpha out) ->
     (nth k (dv_real (out_b_alpha out)) nan =? 0) = true ->
     is_infinity (nth k (out_decayT out) nan) = true).
Proof.
  intros Hp H.
  destruct (LIM_inv np X lag out H)
    as [c0 [cT [ic0 [m [invNorm [Hcov [Hic0 [Hm [Hnorm Hout]]]]]]]]].
  simpl in Hout. subst out. simpl.
  assert (Hb : dv_take (iSort2 np m) (m_b m) =
               dv_div_int (dv_log np (dv_take (iSort2 np m) (m_g m))) lag).
  { rewrite (eigenmodes_rates np _ lag m Hm) at 1. apply dv_take_rates.
    intros k Hk.
    apply (Permutation_in _ (iSort2_permutation np m Hp)) in Hk.
    apply in_seq in Hk.
    rewrite (eigenmodes_rates np _ lag m Hm), dv_length_log_div in Hk. lia. }
  split; [| split; [reflexivity | split; [reflexivity | split]]].
  - rewrite Hb. destruct (dv_take (iSort2 np m) (m_g m));
      simpl; now rewrite map_map.
  - intros k Hk Hz. unfold periods_of.
    rewrite (nth_map_nan (fun y => (2 * np_pi) / y)) by reflexivity.
    apply div_by_zero_infinite; [reflexivity | reflexivity | exact Hz].
  - intros k Hk Hz. unfold decay_time.
    rewrite (nth_map_nan (fun x => (-1) / x)) by reflexivity.
    apply div_by_zero_infinite; [reflexivity | reflexivity | exact Hz].
Qed.

(** The series [[1; 1]] at lag 1 has [g = 1] and [b_alpha = 0]: both the
    period and the decay time are infinite, and the call returns. *)
Lemma rates_periods_decay_times_witness :
  let X := of_rows 2 [[1; 1]] in
  argsort_permutes ref_numpy /\
  exists out,
    LIM ref_numpy X 1 = Ok out /\
    out_periods out = [infinity] /\ out_decayT out = [neg_infinity] /\
    match out_g out with
    | VR g => out_b_alpha out =
              VR (map (fun x => np_log ref_numpy x / float_of_Z 1) g)
    | VC g => out_b_alpha out =
              VC (map (fun z => cdiv (np_clog ref_numpy z) (to_c (float_of_Z 1))) g)
    end /\
    out_periods out = map (fun y => (2 * np_pi) / y) (dv_imag (out_b_alpha out)) /\
    out_decayT out = map (fun x => (-1) / x) (dv_real (out_b_alpha out)) /\
    (forall k, k < dv_length (out_b_alpha out) ->
       (nth k (dv_imag (out_b_alpha out)) nan =? 0) = true ->
       is_infinity (nth k (out_periods out) nan) = true) /\
    (forall k, k < dv_length (out_b_alpha out) ->
       (nth k (dv_real (out_b_alpha out)) nan =? 0) = true ->
       is_infinity (nth k (out_decayT out) nan) = true).
Proof.
  intros X.
  split; [exact ref_numpy_argsort_permutes |].
  eexists. split; [vm_compute; reflexivity |].
  split; [vm_compute; reflexivity |].
  split; [vm_compute; reflexivity |].
  match goal with
  | |- context [out_decayT ?o = map _ _] =>
      assert (H : LIM ref_numpy X 1 = Ok o) by (vm_compute; reflexivity);
      exact (rates_periods_decay_times ref_numpy X 1 o ref_numpy_argsort_permutes H)
  end.
Defined.

(** * 23. Lags outside [0 < lag < T] (claim C7) *)

Lemma mapM_total {A B : Type} (f : A -> result B) (l : list A) :
  (forall a, In a l -> exists b, f a = Ok b) -> exists bs, mapM f l = Ok bs.
Proof.
  induction l as [| a l IH]; simpl; intros H; [now exists [] |].
  destruct (H a (or_introl eq_refl)) as [b Hb].
  destruct IH as [bs Hbs]; [intros x Hx; apply H; now right |].
  exists (b :: bs). now rewrite Hb, Hbs.
Qed.

Lemma lagged_shape (X xl : ndarray) (lag : Z) :
  lagged X lag = Ok xl ->
  nrow xl = nrow X /\ ncol xl = Z.to_nat (Z.of_nat (ncol X) - lag).
Proof.
  unfold lagged. destruct (Z.of_nat (ncol X) - lag <? 0)%Z; [discriminate |].
  intros H. apply bind_ok_inv in H. destruct H as [cols [Hc H]].
  inversion H. simpl. split; [reflexivity |].
  rewrite (mapM_length _ _ _ Hc). apply length_seq.
Qed.

Lemma lagged_total (X : ndarray) (lag : Z) :
  (- Z.of_nat (ncol X) <= lag <= Z.of_nat (ncol X))%Z ->
  exists xl, lagged X lag = Ok xl.
Proof.
  intros Hlag. unfold lagged.
  destruct (Z.ltb_spec (Z.of_nat (ncol X) - lag) 0) as [H | _]; [lia |].
  destruct (mapM_total (fun iT => py_index (ncol X) (Z.of_nat iT + lag))
              (seq 0 (Z.to_nat (Z.of_nat (ncol X) - lag)))) as [cols Hc].
  - intros t Ht. apply in_seq in Ht. unfold py_index.
    destruct ((0 <=? Z.of_nat t + lag) && (Z.of_nat t + lag <? Z.of_nat (ncol X)))%Z
      eqn:E1; [eexists; reflexivity |].
    destruct ((- Z.of_nat (ncol X) <=? Z.of_nat t + lag) && (Z.of_nat t + lag <? 0))%Z
      eqn:E2; [eexists; reflexivity |].
    apply andb_false_iff in E1, E2.
    rewrite Z.leb_gt, Z.ltb_ge in E1. rewrite Z.leb_gt, Z.ltb_ge in E2. lia.
  - rewrite Hc. simpl. eexists. reflexivity.
Qed.

Lemma lag_above_T (np : numpy) (X : ndarray) (lag : Z) :
  (Z.of_nat (ncol X) < lag)%Z -> LIM np X lag = Raise ValueError.
Proof.
  intros H. rewrite LIM_from_covariances by lia. unfold covariances, lagged.
  destruct (Z.ltb_spec (Z.of_nat (ncol X) - lag) 0); [reflexivity | lia].
Qed.

(** Below [-T] the outcome is decided by line 48, and by the first copy
    when the allocation goes through. *)
Lemma lag_below_minus_T (np : numpy) (X : ndarray) (lag : Z) :
  (lag < - Z.of_nat (ncol X))%Z ->
  LIM np X lag =
  Raise (if (2 ^ 63 - 1 <?
             8 * Z.max 1 (Z.of_nat (nrow X)) * (Z.of_nat (ncol X) - lag))%Z
         then ValueError
         else if can_allocate np (nrow X) (Z.of_nat (ncol X) - lag)
              then IndexError else MemoryError).
Proof.
  intros H. unfold LIM, np_full_room. cbv zeta.
  destruct (Z.leb_spec (Z.of_nat (ncol X) - lag) (2 * Z.of_nat (ncol X)));
    [lia |].
  change max_intp with (2 ^ 63 - 1)%Z.
  destruct (2 ^ 63 - 1 <?
            8 * Z.max 1 (Z.of_nat (nrow X)) * (Z.of_nat (ncol X) - lag))%Z;
    [reflexivity |].
  destruct (can_allocate np (nrow X) (Z.of_nat (ncol X) - lag)); [| reflexivity].
  simpl. unfold covariances. now rewrite lagged_below_minus_T.
Qed.

Lemma np_multiply_mismatch (a b : list float) :
  length a <> length b -> length a <> 1%nat -> length b <> 1%nat ->
  np_multiply a b = Raise ValueError.
Proof.
  intros Hab Ha Hb. unfold np_multiply.
  destruct (Nat.eqb_spec (length a) (length b)); [contradiction |].
  destruct a as [| x [| x' a]]; simpl in *; try contradiction;
    destruct b as [| y [| y' b]]; simpl in *; try contradiction; reflexivity.
Qed.

Lemma row_length (X : ndarray) (i : nat) : length (row X i) = ncol X.
Proof. unfold row. now rewrite length_map, length_seq. Qed.

Lemma covariances_first_cell (X xl : ndarray) (lag : Z) (e : exc) :
  1 <= nrow X -> lagged X lag = Ok xl ->
  cov_cell X (np_transpose X) xl lag 0 0 = Raise e ->
  covariances X lag = Raise e.
Proof.
  intros HN Hxl Hc. unfold covariances. rewrite Hxl. simpl.
  destruct (nrow X) as [| n] eqn:E; [lia |]. simpl. now rewrite Hc.
Qed.

Lemma lagged_product_mismatch (np : numpy) (X : ndarray) (lag : Z) :
  1 <= nrow X ->
  ((lag = 0 /\ 2 <= Z.of_nat (ncol X)) \/ (- Z.of_nat (ncol X) <= lag <= -2))%Z ->
  LIM np X lag = Raise ValueError.
Proof.
  intros HN Hlag.
  destruct (lagged_total X lag ltac:(lia)) as [xl Hxl].
  destruct (lagged_shape X xl lag Hxl) as [_ Hc].
  rewrite LIM_from_covariances by lia.
  rewrite (covariances_first_cell X xl lag ValueError HN Hxl); [reflexivity |].
  unfold cov_cell. rewrite column_transpose. unfold row at 1 2.
  rewrite np_multiply_same. simpl.
  rewrite np_multiply_mismatch; [reflexivity | | |];
    rewrite ?length_firstn, ?row_length, ?Hc; unfold slice_stop;
    destruct (Z.ltb_spec (- lag) 0); lia.
Qed.

Lemma empty_lagged_product (X xl : ndarray) (lag : Z) (i j : nat) :
  (lag = Z.of_nat (ncol X) \/ (lag = 0 /\ ncol X = 1%nat))%Z ->
  lagged X lag = Ok xl ->
  np_multiply (row xl i) (firstn (slice_stop (ncol X) (- lag)) (row X j)) = Ok [].
Proof.
  intros Hlag Hxl. destruct (lagged_shape X xl lag Hxl) as [_ Hc].
  assert (Hs : slice_stop (ncol X) (- lag) = 0%nat).
  { unfold slice_stop. destruct (Z.ltb_spec (- lag) 0); lia. }
  rewrite Hs. simpl. unfold np_multiply.
  pose proof (row_length xl i) as Hl. rewrite Hc in Hl.
  destruct (row xl i) as [| x [| x' r]]; simpl in *; try reflexivity. lia.
Qed.

Lemma all_nan_cT_aborts (np : numpy) (X : ndarray) (lag : Z) :
  1 <= nrow X -> inv_keeps_shape np -> dot_spreads_non_finite np ->
  (lag = Z.of_nat (ncol X) \/ (lag = 0 /\ ncol X = 1%nat))%Z ->
  exists c0 cT,
    covariances X lag = Ok (c0, cT) /\
    (forall i j, i < nrow X -> j < nrow X -> entry cT i j = nan) /\
    ((exists e, inv_d np c0 = Raise e /\ LIM np X lag = Raise e) \/
     LIM np X lag = Raise (LinAlgError NotFinite)).
Proof.
  intros HN Hinv Hdot Hlag.
  destruct (lagged_total X lag ltac:(lia)) as [xl Hxl].
  assert (Hcc : forall i j,
            cov_cell X (np_transpose X) xl lag i j =
            Ok (nan_mean (products (ncol X) (cell X i) (cell X j)), nan)).
  { intros i j. unfold cov_cell. rewrite column_transpose. unfold row at 1 2.
    rewrite np_multiply_same. simpl.
    now rewrite (empty_lagged_product X xl lag i j Hlag Hxl). }
  assert (Hcov : exists c0 cT, covariances X lag = Ok (c0, cT)).
  { unfold covariances. rewrite Hxl. simpl.
    rewrite (mapM_ok _ (fun i => map (fun j =>
              (nan_mean (products (ncol X) (cell X i) (cell X j)), nan))
              (seq 0 (nrow X)))).
    - simpl. eexists. eexists. reflexivity.
    - intros i _. apply mapM_ok. intros j _. apply Hcc. }
  destruct Hcov as [c0 [cT Hcov]]. exists c0, cT. split; [exact Hcov |].
  destruct (covariances_inv X lag c0 cT Hcov) as [xl' [Hxl' [S0 [ST Hent]]]].
  rewrite Hxl in Hxl'. inversion Hxl'. subst xl'.
  assert (Hnan : forall i j, i < nrow X -> j < nrow X -> entry cT i j = nan).
  { intros i j Hi Hj. specialize (Hent i j Hi Hj). rewrite Hcc in Hent.
    injection Hent as _ E. now symmetry. }
  split; [exact Hnan |].
  destruct (inv_d np c0) as [ic0 | e] eqn:Ei.
  - right. apply (LIM_not_finite_G np X lag c0 cT ic0 Hcov Ei).
    apply (np_dot_not_finite np (nrow X) cT ic0 O O Hdot ST);
      [exact (proj1 Hinv _ _ _ S0 Ei) | lia | lia |].
    rewrite Hnan by lia. reflexivity.
  - left. exists e. split; [reflexivity |].
    apply (inversion_failure_aborts np X lag c0 cT); [exact Hcov | now left].
Qed.

Lemma np_multiply_scalar_r (a : list float) (y : float) :
  exists p, np_multiply a [y] = Ok p.
Proof.
  unfold np_multiply. destruct (length a =? length [y])%nat; [eexists; reflexivity |].
  destruct a as [| x [| x' a]]; eexists; reflexivity.
Qed.

Lemma lag_minus_one_accepted (X : ndarray) :
  1 <= ncol X -> exists c0 cT, covariances X (-1) = Ok (c0, cT).
Proof.
  intros HT. destruct (lagged_total X (-1) ltac:(lia)) as [xl Hxl].
  unfold covariances. rewrite Hxl. simpl.
  destruct (mapM_total
              (fun iR => mapM (fun iC => cov_cell X (np_transpose X) xl (-1) iR iC)
                              (seq 0 (nrow X)))
              (seq 0 (nrow X))) as [cells Hcells].
  - intros i _. apply mapM_total. intros j _.
    unfold cov_cell. rewrite column_transpose. unfold row at 1 2.
    rewrite np_multiply_same. simpl.
    assert (Hs : slice_stop (ncol X) 1 = 1%nat).
    { unfold slice_stop. change (1 <? 0)%Z with false.
      change (Z.to_nat 1) with 1%nat. cbv iota. lia. }
    rewrite Hs.
    pose proof (row_length X j) as Hl.
    destruct (row X j) as [| y r]; simpl in Hl; [lia |]. simpl.
    destruct (np_multiply_scalar_r (row xl i) y) as [p Hp]. rewrite Hp. simpl.
    eexists. reflexivity.
  - rewrite Hcells. simpl. eexists. eexists. reflexivity.
Qed.

(** The claim C7 as stated fails for [lag = -1]: on the series [[1; 1]]
    nothing is rejected; [xLagged] wraps around to [[1; 1; 1]], the slice
    [xDat_T[:1]] broadcasts against it, and a full result is returned. *)
Lemma negative_lag_counterexample :
  let X := of_rows 2 [[1; 1]] in
  exists out,
    LIM ref_numpy X (-1) = Ok out /\
    out_c0 out = [[1]] /\ out_cT out = [[1]] /\ out_G out = [[1]] /\
    out_g out = VR [1] /\ out_decayT out = [infinity].
Proof.
  intros X. eexists. split; [vm_compute; reflexivity |].
  repeat split; vm_compute; reflexivity.
Qed.

(** C7, amended.  The code has no shape check of its own and raises no
    ShapeError; what happens for a lag outside [0 < lag < T] is decided by
    the numpy calls it reaches.  With [T] columns: [lag > T] aborts at once
    with ValueError (a negative dimension for [xLagged]).  [lag < -T] never
    gets past the first column of [xLagged]: the allocation of its
    [T - lag] columns is refused with ValueError when its size in bytes
    exceeds the index range, fails with MemoryError when the memory is not
    there, and otherwise the first copy raises IndexError.  With at least
    one row, [lag = 0] (for [T >= 2]) and [-T <= lag <= -2] abort with
    ValueError at the first lagged product, whose operands do not
    broadcast; [lag = T] (and [lag = 0] for [T = 1]) is not stopped in the
    covariance stage at all -- [cT] comes out all NaN -- and aborts only
    in [LA.inv] or in [LA.eig] (LinAlgError), given that [LA.inv] returns
    a matrix of the shape of its argument and that a NaN factor makes the
    entries of [np.dot] it takes part in non-finite.  [lag = -1] with
    [T >= 1] is not rejected: the covariance stage completes.  No result
    is returned in the aborting cases.  Inputs that are not 2-D are outside
    this model. *)
Theorem lag_outside_range (np : numpy) (X : ndarray) (lag : Z) :
  let T := Z.of_nat (ncol X) in
  ((T < lag)%Z -> LIM np X lag = Raise ValueError) /\
  ((lag < - T)%Z ->
   LIM np X lag =
   Raise (if (2 ^ 63 - 1 <? 8 * Z.max 1 (Z.of_nat (nrow X)) * (T - lag))%Z
          then ValueError
          else if can_allocate np (nrow X) (T - lag)
               then IndexError else MemoryError)) /\
  (1 <= nrow X -> ((lag = 0 /\ 2 <= T) \/ (- T <= lag <= -2))%Z ->
   LIM np X lag = Raise ValueError) /\
  (1 <= nrow X -> inv_keeps_shape np -> dot_spreads_non_finite np ->
   (lag = T \/ (lag = 0 /\ ncol X = 1%nat))%Z ->
   exists c0 cT,
     covariances X lag = Ok (c0, cT) /\
     (forall i j, i < nrow X -> j < nrow X -> entry cT i j = nan) /\
     ((exists e, inv_d np c0 = Raise e /\ LIM np X lag = Raise e) \/
      LIM np X lag = Raise (LinAlgError NotFinite))) /\
  (lag = (-1)%Z -> 1 <= ncol X -> exists c0 cT, covariances X lag = Ok (c0, cT)).
Proof.
  intros T. split; [apply lag_above_T |].
  split; [apply lag_below_minus_T |].
  split; [apply lagged_product_mismatch |].
  split; [apply all_nan_cT_aborts |].
  intros ->. apply lag_minus_one_accepted.
Qed.

(** The cases on the series [[1; 1]] (T = 2): lags 3, -3, -2^40, -2^62,
    0, 2 and -1.  At lag [-2^62] the array asked for at line 48 would
    take more than [2^63 - 1] bytes. *)
Lemma lag_outside_range_witness :
  let X := of_rows 2 [[1; 1]] in
  LIM ref_numpy X 3 = Raise ValueError /\
  LIM ref_numpy X (-3) = Raise IndexError /\
  LIM ref_numpy X (- 2 ^ 40) = Raise MemoryError /\
  LIM ref_numpy X (- 2 ^ 62) = Raise ValueError /\
  LIM ref_numpy X 0 = Raise ValueError /\
  (exists c0 cT,
     covariances X 2 = Ok (c0, cT) /\
     (forall i j, i < nrow X -> j < nrow X -> entry cT i j = nan) /\
     ((exists e, inv_d ref_numpy c0 = Raise e /\ LIM ref_numpy X 2 = Raise e) \/
      LIM ref_numpy X 2 = Raise (LinAlgError NotFinite))) /\
  (exists c0 cT, covariances X (-1) = Ok (c0, cT)).
Proof.
  intros X.
  split; [apply (proj1 (lag_outside_range ref_numpy X 3)); simpl; lia |].
  split; [exact (proj1 (proj2 (lag_outside_range ref_numpy X (-3)))
                   ltac:(simpl; lia)) |].
  split; [exact (proj1 (proj2 (lag_outside_range ref_numpy X (- 2 ^ 40)))
                   ltac:(simpl; lia)) |].
  split; [exact (proj1 (proj2 (lag_outside_range ref_numpy X (- 2 ^ 62)))
                   ltac:(simpl; lia)) |].
  split; [apply (proj1 (proj2 (proj2 (lag_outside_range ref_numpy X 0))));
          simpl; lia |].
  split.
  - apply (proj1 (proj2 (proj2 (proj2 (lag_outside_range ref_numpy X 2)))));
      [simpl; lia | exact ref_numpy_inv_keeps_shape
       | exact ref_numpy_dot_spreads_non_finite | left; reflexivity].
  - apply (proj2 (proj2 (proj2 (proj2 (lag_outside_range ref_numpy X (-1))))));
      [reflexivity | simpl; lia].
Defined.

(** * 24. Worked examples *)

(** [np.nansum] drops NaN only: an infinite sample is outside the valid
    inputs of C1, and there the code's ratio is not the pairwise-complete
    moment: the product [inf * inf] enters the sum, while the only
    complete pair is the last one, with product 1. *)
Example infinite_sample_enters_sum :
  let X := of_rows 2 [[infinity; 1]] in
  covariances X 1 = Ok ([[infinity]], [[infinity]]) /\
  complete_products 2 (cell X 0) (cell X 0) = [1].
Proof. split; vm_compute; reflexivity. Qed.

(** The order of the additions matters from 8 products on.  The squares
    of [2^27; 1; 1; 1; 1; 1; 1; 1] are [2^54] and seven ones: numpy adds
    them as [((2^54 + 1) + (1 + 1)) + ((1 + 1) + (1 + 1)) = 2^54 + 4],
    where adding them one after the other gives [2^54]. *)
Example unrolled_sum_order :
  let X := of_rows 8 [[0x1p27; 1; 1; 1; 1; 1; 1; 1]] in
  covariances X 1 = Ok ([[0x1.0000000000001p+51]], [[19173962]]) /\
  np_sum (products 8 (cell X 0) (cell X 0)) = 0x1.0000000000001p+54 /\
  fold_left PrimFloat.add (products 8 (cell X 0) (cell X 0)) 0 = 0x1p+54.
Proof. repeat split; vm_compute; reflexivity. Qed.

(** The joint sort on a table of three real modes with decay times
    [2; NaN; 4]: the indices come out as [1; 2; 0] (NaN first, then 4,
    then 2) and every column of the table follows. *)
Example decay_sort_three_modes :
  let m := Modes (VR [10; 20; 30])
                 (MR [[1; 2; 3]; [4; 5; 6]; [7; 8; 9]])
                 (MR [[11; 12; 13]; [14; 15; 16]; [17; 18; 19]])
                 (VR [-0.5; nan; -0.25]) in
  decay_time (m_b m) = [2; nan; 4] /\
  iSort2 ref_numpy m = [1; 2; 0]%nat /\
  decay_sort ref_numpy m =
    Modes (VR [20; 30; 10])
          (MR [[2; 3; 1]; [5; 6; 4]; [8; 9; 7]])
          (MR [[12; 13; 11]; [15; 16; 14]; [18; 19; 17]])
          (VR [nan; -0.25; -0.5]).
Proof. repeat split; vm_compute; reflexivity. Qed.

(** * 25. The normalisation of the modes *)

(** The normalisation of lines 103-104, as the code performs it:
    [normU = u . inv(u^T . v)] for the sorted modes.  Whether
    [normU^T . v] is then the identity depends on the accuracy of the
    library's eigenvectors and inverse; on the two-mode series below it
    is exactly the identity. *)
Lemma normU_definition (np : numpy) (X : ndarray) (lag : Z) (out : lim_output) :
  LIM np X lag = Ok out ->
  exists (ms : modes) (invNorm : dmat),
    dm_inv np (dm_dot np (dm_transpose (m_u ms)) (m_v ms)) = Ok invNorm /\
    out_normU out = dm_dot np (m_u ms) invNorm /\
    out_v out = m_v ms.
Proof.
  intros H.
  destruct (LIM_inv np X lag out H)
    as [c0 [cT [ic0 [m [invNorm [_ [_ [_ [Hnorm Hout]]]]]]]]].
  simpl in Hout. subst out. exists (decay_sort np m), invNorm.
  split; [exact Hnorm | split; reflexivity].
Qed.

Example biorthogonal_two_modes :
  exists out,
    LIM ref_numpy (of_rows 5 [[1; 1; 1; 1; 1]; [0; 1; 0; -1; 0]]) 1 = Ok out /\
    dm_dot ref_numpy (dm_transpose (out_normU out)) (out_v out)
      = MR [[1; 0]; [0; 1]].
Proof.
  eexists. split; vm_compute; reflexivity.
Qed.

(** * 26. More binary64 facts *)

(** Negating both factors leaves a product unchanged, bit for bit. *)
Lemma mul_opp_opp (x y : float) : (- x) * (- y) = x * y.
Proof.
  apply Prim2SF_inj. rewrite !mul_spec, !opp_spec. unfold SF64mul, SFmul.
  destruct (Prim2SF x) as [a | a | | a m e], (Prim2SF y) as [b | b | | b n f];
    simpl; try reflexivity; destruct a, b; reflexivity.
Qed.

Lemma mul_self_not_neg (x : float) : SF_not_neg (Prim2SF (x * x)) = true.
Proof.
  rewrite mul_spec. unfold SF64mul, SFmul.
  destruct (Prim2SF x) as [a | a | | a m e]; simpl;
    [destruct a; reflexivity | destruct a; reflexivity | reflexivity |].
  pose proof (binary_round_aux_sign (xorb a a) (Z.pos (m * m)) (e + e) loc_Exact
                ltac:(lia)) as H.
  destruct (binary_round_aux prec emax (xorb a a) (Z.pos (m * m)) (e + e) loc_Exact);
    simpl; try reflexivity; rewrite H; destruct a; reflexivity.
Qed.

(** * 27. Further properties of [LIM] *)

(** ** The lagged copy of the data (lines 48-50) *)

Lemma py_index_mod (n : nat) (k : Z) :
  (- Z.of_nat n <= k < Z.of_nat n)%Z ->
  py_index n k = Ok (Z.to_nat (k mod Z.of_nat n)).
Proof.
  intros Hk. unfold py_index.
  destruct ((0 <=? k) && (k <? Z.of_nat n))%Z eqn:E1.
  - apply andb_true_iff in E1. destruct E1 as [A B].
    apply Z.leb_le in A. apply Z.ltb_lt in B.
    now rewrite Z.mod_small by lia.
  - assert (Hneg : (k < 0)%Z).
    { apply andb_false_iff in E1. destruct E1 as [A | B].
      - apply Z.leb_gt in A. lia.
      - apply Z.ltb_ge in B. lia. }
    replace ((- Z.of_nat n <=? k) && (k <? 0))%Z with true.
    + f_equal. f_equal.
      rewrite <- (Z_mod_plus_full k 1 (Z.of_nat n)).
      rewrite Z.mod_small by lia. lia.
    + symmetry. apply andb_true_iff. split; [apply Z.leb_le | apply Z.ltb_lt]; lia.
Qed.

(** The source columns of the copy loop, and the array it fills. *)
Lemma lagged_columns (X : ndarray) (lag : Z) :
  (- Z.of_nat (ncol X) <= lag <= Z.of_nat (ncol X))%Z ->
  let src := map (fun iT => Z.to_nat ((Z.of_nat iT + lag) mod Z.of_nat (ncol X)))
                 (seq 0 (Z.to_nat (Z.of_nat (ncol X) - lag))) in
  lagged X lag =
  Ok (NdArray (nrow X) (length src) (fun i iT => cell X i (nth iT src O))).
Proof.
  intros Hlag src. unfold lagged.
  replace (Z.of_nat (ncol X) - lag <? 0)%Z with false
    by (symmetry; apply Z.ltb_ge; lia).
  rewrite (mapM_ok _ (fun iT => Z.to_nat ((Z.of_nat iT + lag) mod Z.of_nat (ncol X)))).
  - reflexivity.
  - intros iT Hin. apply in_seq in Hin. apply py_index_mod. lia.
Qed.

Lemma lagged_cell (X xl : ndarray) (lag : Z) :
  (- Z.of_nat (ncol X) <= lag <= Z.of_nat (ncol X))%Z ->
  lagged X lag = Ok xl ->
  nrow xl = nrow X /\
  ncol xl = Z.to_nat (Z.of_nat (ncol X) - lag) /\
  forall i t, t < ncol xl ->
    cell xl i t =
    cell X i (Z.to_nat ((Z.of_nat t + lag) mod Z.of_nat (ncol X))).
Proof.
  intros Hlag H. rewrite (lagged_columns X lag Hlag) in H.
  cbv zeta in H. injection H as <-. simpl.
  rewrite length_map, length_seq.
  split; [reflexivity | split; [reflexivity |]].
  intros i t Ht. f_equal.
  exact (nth_map_seq
           (fun iT => Z.to_nat ((Z.of_nat iT + lag) mod Z.of_nat (ncol X)))
           _ t O Ht).
Qed.

(** X1.  For every lag from [-T] to [T] the allocation and the copy loop
    of lines 48-50 succeed: [xLagged] has the rows of [xDat] and [T - lag]
    columns, and its column [t] is column [(t + lag) mod T] of [xDat].  For
    a negative lag the first [-lag] columns are therefore read from the
    end of the record. *)
Theorem lagged_wraps_around (X : ndarray) (lag : Z) :
  (- Z.of_nat (ncol X) <= lag <= Z.of_nat (ncol X))%Z ->
  exists xl,
    lagged X lag = Ok xl /\
    nrow xl = nrow X /\
    ncol xl = Z.to_nat (Z.of_nat (ncol X) - lag) /\
    forall i t, t < ncol xl ->
      cell xl i t =
      cell X i (Z.to_nat ((Z.of_nat t + lag) mod Z.of_nat (ncol X))).
Proof.
  intros Hlag. destruct (lagged_total X lag Hlag) as [xl Hxl].
  exists xl. split; [exact Hxl |]. exact (lagged_cell X xl lag Hlag Hxl).
Qed.

Lemma lagged_wraps_around_witness :
  let X := of_rows 3 [[1; 2; 3]] in
  exists xl,
    lagged X (-1) = Ok xl /\ nrow xl = 1%nat /\ ncol xl = 4%nat /\
    row xl 0 = [3; 1; 2; 3] /\
    forall i t, t < ncol xl ->
      cell xl i t = cell X i (Z.to_nat ((Z.of_nat t + -1) mod 3)).
Proof.
  intros X.
  destruct (lagged_wraps_around X (-1)) as [xl [H [Hr [Hc Hcell]]]].
  - simpl. lia.
  - exists xl. split; [exact H |].
    assert (E : lagged X (-1) = Ok xl) by exact H.
    vm_compute in E. injection E as <-.
    split; [reflexivity | split; [reflexivity | split; [vm_compute; reflexivity |]]].
    exact Hcell.
Defined.

(** ** What [LA.eig] lets through (lines 67-70) *)

(** X2.  [LIM] never returns a Green function with a NaN or an infinite
    entry: the only validation on the way is the finiteness check at the
    head of [LA.eig], and a run that passes it returns the checked [G]
    unchanged. *)
Theorem returned_G_is_finite (np : numpy) (X : ndarray) (lag : Z)
    (out : lim_output) :
  LIM np X lag = Ok out ->
  all_finite (out_G out) = true /\
  all_finite (mat_transpose (out_G out)) = true /\
  forall r x, In r (out_G out) -> In x r -> is_finite x = true.
Proof.
  intros H.
  destruct (LIM_inv np X lag out H)
    as [c0 [cT [ic0 [m [invNorm [_ [_ [Heig [_ Hout]]]]]]]]].
  simpl in Hout. subst out. unfold out_G.
  unfold eigenmodes in Heig.
  apply bind_ok_inv in Heig. destruct Heig as [[g u] [H1 Heig]].
  apply bind_ok_inv in Heig. destruct Heig as [[gT v] [H2 _]].
  unfold LA_eig in H1, H2.
  destruct (all_finite (np_dot np cT ic0)) eqn:E1; [| discriminate].
  destruct (all_finite (mat_transpose (np_dot np cT ic0))) eqn:E2; [| discriminate].
  split; [reflexivity | split; [reflexivity |]].
  intros r x Hr Hx. unfold all_finite in E1.
  rewrite forallb_forall in E1. specialize (E1 r Hr).
  rewrite forallb_forall in E1. exact (E1 x Hx).
Qed.

Lemma returned_G_is_finite_witness :
  exists out,
    LIM ref_numpy (of_rows 5 [[1; 1; 1; 1; 1]; [0; 1; 0; -1; 0]]) 1 = Ok out /\
    out_G out = [[1; 0]; [0; 0]] /\
    all_finite (out_G out) = true /\
    all_finite (mat_transpose (out_G out)) = true /\
    forall r x, In r (out_G out) -> In x r -> is_finite x = true.
Proof.
  eexists. split; [vm_compute; reflexivity |].
  split; [vm_compute; reflexivity |].
  refine (returned_G_is_finite ref_numpy
            (of_rows 5 [[1; 1; 1; 1; 1]; [0; 1; 0; -1; 0]]) 1 _ _).
  vm_compute. reflexivity.
Defined.

(** ** The dtype of the spectrum (lines 70, 85-86, 117) *)

Lemma dv_take_real_inv (idx : list nat) (a : dvec) (l : list float) :
  dv_take idx a = VR l -> exists l0, a = VR l0 /\ l = take idx l0.
Proof.
  destruct a as [l0 | l0]; simpl; intros E; [| discriminate].
  exists l0. split; [reflexivity |]. congruence.
Qed.

Lemma map_const_repeat {A B : Type} (c : B) (l : list A) :
  map (fun _ => c) l = repeat c (length l).
Proof. induction l as [| a l IH]; simpl; [reflexivity | now rewrite IH]. Qed.

(** X3.  When [LA.eig] returns a float64 spectrum, the rates stay float64
    through [np.log] and the division by the lag, their imaginary part is
    an array of zeros, and [LIM] reports the period [2 pi / 0 = +inf] for
    every mode: a real spectrum never carries a finite period, not even
    for a negative eigenvalue. *)
Theorem real_spectrum_has_no_period (np : numpy) (X : ndarray) (lag : Z)
    (out : lim_output) (g : list float) :
  LIM np X lag = Ok out ->
  out_g out = VR g ->
  (exists b, out_b_alpha out = VR b /\ length b = length g) /\
  out_periods out = repeat infinity (length g).
Proof.
  intros H Hg.
  destruct (LIM_inv np X lag out H)
    as [c0 [cT [ic0 [m [invNorm [_ [_ [Heig [_ Hout]]]]]]]]].
  simpl in Hout. subst out. unfold out_g in Hg. unfold out_b_alpha, out_periods.
  apply eigenmodes_rates in Heig.
  unfold decay_sort in *. simpl in *.
  apply dv_take_real_inv in Hg. destruct Hg as [g0 [Hg0 ->]].
  rewrite Heig, Hg0. simpl. unfold take. rewrite !length_map.
  split.
  - eexists. split; [reflexivity |]. now rewrite length_map.
  - unfold periods_of. simpl. rewrite !map_map.
    rewrite <- (map_const_repeat infinity (iSort2 np m)).
    apply map_ext. intros _. vm_compute. reflexivity.
Qed.

Lemma real_spectrum_has_no_period_witness :
  exists out,
    LIM ref_numpy (of_rows 5 [[1; 1; 1; 1; 1]; [0; 1; 0; -1; 0]]) 1 = Ok out /\
    out_g out = VR [0; 1] /\
    (exists b, out_b_alpha out = VR b /\ length b = 2%nat) /\
    out_periods out = [infinity; infinity].
Proof.
  eexists. split; [vm_compute; reflexivity |].
  split; [vm_compute; reflexivity |].
  refine (real_spectrum_has_no_period ref_numpy
            (of_rows 5 [[1; 1; 1; 1; 1]; [0; 1; 0; -1; 0]]) 1 _ [0; 1] _ _);
    vm_compute; reflexivity.
Defined.

(** ** Modes whose decay time is NaN (lines 89-95, 118) *)

(** X4.  The reversed ascending sort of line 91 puts NaN first: in the
    returned [decayT] every NaN comes before every number, so the modes
    whose rate has a NaN real part (a negative eigenvalue in a float64
    spectrum, for one) head the returned table. *)
Theorem nan_decay_times_come_first (np : numpy) (X : ndarray) (lag : Z)
    (out : lim_output) :
  argsort_sorts np ->
  LIM np X lag = Ok out ->
  nan_first (out_decayT out).
Proof.
  intros Hsort H.
  destruct (LIM_inv np X lag out H)
    as [c0 [cT [ic0 [m [invNorm [_ [_ [_ [_ Hout]]]]]]]]].
  simpl in Hout. subst out. unfold out_decayT.
  unfold decay_sort. simpl. rewrite decay_time_take.
  pose proof (iSort2_sorts np m Hsort) as Hs.
  intros i j Hij Hj Hnan.
  pose proof (StronglySorted_nth _ _ nan Hs i j Hij Hj) as Hless.
  cbv beta in Hless. unfold np_less in Hless.
  apply orb_false_iff in Hless. destruct Hless as [_ Hless].
  rewrite Hnan in Hless. simpl in Hless.
  now apply negb_false_iff in Hless.
Qed.

(** An alternating series has [G = -1], a float64 eigenvalue whose
    logarithm is NaN; its mode is returned before the one with [G = 0]. *)
Lemma nan_decay_times_come_first_witness :
  exists out,
    LIM ref_numpy (of_rows 5 [[1; -1; 1; -1; 1]; [0; 1; 0; -1; 0]]) 1 = Ok out /\
    out_g out = VR [-1; 0] /\ out_decayT out = [nan; 0] /\
    nan_first (out_decayT out).
Proof.
  eexists. split; [vm_compute; reflexivity |].
  split; [vm_compute; reflexivity |].
  split; [vm_compute; reflexivity |].
  refine (nan_decay_times_come_first ref_numpy
            (of_rows 5 [[1; -1; 1; -1; 1]; [0; 1; 0; -1; 0]]) 1 _
            ref_numpy_argsort_sorts _).
  vm_compute. reflexivity.
Defined.

(** ** The eigenvalues are only reordered (lines 70-74, 91-94) *)

Lemma take_seq_all {A : Type} `{Scalar A} (l : list A) :
  take (seq 0 (length l)) l = l.
Proof.
  unfold take. apply (nth_ext _ _ s_nan s_nan).
  - now rewrite length_map, length_seq.
  - intros k Hk. rewrite length_map, length_seq in Hk.
    rewrite (nth_indep _ s_nan (nth O l s_nan)) by now rewrite length_map, length_seq.
    rewrite (map_nth (fun k => nth k l s_nan) (seq 0 (length l)) O k).
    now rewrite seq_nth.
Qed.

Lemma take_permutation {A : Type} `{Scalar A} (idx : list nat) (l : list A) :
  Permutation idx (seq 0 (length l)) -> Permutation (take idx l) l.
Proof.
  intros Hp. rewrite <- (take_seq_all l) at 2.
  unfold take. now apply Permutation_map.
Qed.

Lemma dv_take_permutation (idx : list nat) (a : dvec) :
  Permutation idx (seq 0 (dv_length a)) ->
  Permutation (dv_complex (dv_take idx a)) (dv_complex a) /\
  dv_length (dv_take idx a) = dv_length a.
Proof.
  intros Hp. destruct a as [l | l]; simpl in *.
  - split.
    + apply Permutation_map. now apply take_permutation.
    + unfold take. rewrite length_map.
      apply Permutation_length in Hp. now rewrite length_seq in Hp.
  - split.
    + now apply take_permutation.
    + unfold take. rewrite length_map.
      apply Permutation_length in Hp. now rewrite length_seq in Hp.
Qed.

(** X5.  The returned eigenvalues are the eigenvalues [LA.eig] computed
    for the returned [G], each exactly once: the two sorts (by eigenvalue
    at lines 72-73, by decay time at lines 91-94) only reorder them, given
    that [argsort] returns a permutation of the indices. *)
Theorem eigenvalues_only_reordered (np : numpy) (X : ndarray) (lag : Z)
    (out : lim_output) :
  argsort_permutes np ->
  LIM np X lag = Ok out ->
  exists (w : dvec) (vr : dmat),
    LA_eig np (out_G out) = Ok (w, vr) /\
    Permutation (dv_complex (out_g out)) (dv_complex w) /\
    dv_length (out_g out) = dv_length w.
Proof.
  intros Hperm H.
  destruct (LIM_inv np X lag out H)
    as [c0 [cT [ic0 [m [invNorm [_ [_ [Heig [_ Hout]]]]]]]]].
  simpl in Hout. subst out. unfold out_G, out_g.
  pose proof (iSort2_permutation np m Hperm) as Hp2.
  pose proof (eigenmodes_rates np _ lag m Heig) as Hb.
  unfold eigenmodes in Heig.
  apply bind_ok_inv in Heig. destruct Heig as [[g u] [H1 Heig]].
  apply bind_ok_inv in Heig. destruct Heig as [[gT v] [H2 Heig]].
  injection Heig as <-. simpl in *.
  exists g, u. split; [exact H1 |].
  assert (Hp1 : Permutation (rev (dv_argsort np g)) (seq 0 (dv_length g))).
  { rewrite <- Permutation_rev.
    destruct Hperm as [Pd Pz]. destruct g as [l | l]; simpl; [apply Pd | apply Pz]. }
  destruct (dv_take_permutation _ _ Hp1) as [Q1 L1].
  assert (Hlen : dv_length
            (dv_div_int (dv_log np (dv_take (rev (dv_argsort np g)) g)) lag)
          = dv_length (dv_take (rev (dv_argsort np g)) g)).
  { destruct (dv_take (rev (dv_argsort np g)) g); simpl; now rewrite !length_map. }
  rewrite Hlen in Hp2.
  destruct (dv_take_permutation _ _ Hp2) as [Q2 L2].
  split.
  - eapply Permutation_trans; [exact Q2 | exact Q1].
  - now rewrite L2, L1.
Qed.

Lemma eigenvalues_only_reordered_witness :
  exists out,
    LIM ref_numpy (of_rows 5 [[1; 1; 1; 1; 1]; [0; 1; 0; -1; 0]]) 1 = Ok out /\
    out_g out = VR [0; 1] /\
    exists (w : dvec) (vr : dmat),
      LA_eig ref_numpy (out_G out) = Ok (w, vr) /\
      Permutation (dv_complex (out_g out)) (dv_complex w) /\
      dv_length (out_g out) = dv_length w.
Proof.
  eexists. split; [vm_compute; reflexivity |].
  split; [vm_compute; reflexivity |].
  refine (eigenvalues_only_reordered ref_numpy
            (of_rows 5 [[1; 1; 1; 1; 1]; [0; 1; 0; -1; 0]]) 1 _
            ref_numpy_argsort_permutes _).
  vm_compute. reflexivity.
Defined.

(** ** [c0] does not depend on the lag (line 60) *)

Lemma matrix_ext (n m : nat) (A B : matrix float) :
  is_shape n m A -> is_shape n m B ->
  (forall i j, i < n -> j < m -> entry A i j = entry B i j) ->
  A = B.
Proof.
  intros [LA FA] [LB FB] Hent.
  apply (nth_ext _ _ [] []); [congruence |].
  intros i Hi. rewrite LA in Hi.
  rewrite Forall_forall in FA, FB.
  assert (La : length (nth i A []) = m) by (apply FA, nth_In; lia).
  assert (Lb : length (nth i B []) = m) by (apply FB, nth_In; lia).
  apply (nth_ext _ _ nan nan); [congruence |].
  intros j Hj. rewrite La in Hj. exact (Hent i j Hi Hj).
Qed.

(** X6.  The contemporaneous matrix is computed from [xDat] alone: two
    lags on which the covariance loop completes give the same [c0], entry
    for entry and bit for bit. *)
Theorem c0_ignores_lag (X : ndarray) (lag lag' : Z)
    (c0 cT c0' cT' : matrix float) :
  covariances X lag = Ok (c0, cT) ->
  covariances X lag' = Ok (c0', cT') ->
  c0 = c0'.
Proof.
  intros H H'.
  destruct (covariances_inv X lag c0 cT H) as [xl [_ [S0 [_ Hc]]]].
  destruct (covariances_inv X lag' c0' cT' H') as [xl' [_ [S0' [_ Hc']]]].
  apply (matrix_ext _ _ _ _ S0 S0'). intros i j Hi Hj.
  destruct (cov_cell_inv _ _ _ _ _ _ _ (Hc i j Hi Hj)) as [-> _].
  destruct (cov_cell_inv _ _ _ _ _ _ _ (Hc' i j Hi Hj)) as [-> _].
  reflexivity.
Qed.

Lemma c0_ignores_lag_witness :
  let X := of_rows 4 [[1; 2; 3; 4]; [1; 0; nan; 2]] in
  exists c0 cT c0' cT',
    covariances X 1 = Ok (c0, cT) /\ covariances X 3 = Ok (c0', cT') /\
    c0 = c0'.
Proof.
  intros X. do 4 eexists.
  split; [vm_compute; reflexivity |].
  split; [vm_compute; reflexivity |].
  refine (c0_ignores_lag X 1 3 _ _ _ _ _ _); vm_compute; reflexivity.
Defined.

(** ** The sign of the data (lines 48-62) *)

Lemma mapM_ext {A B : Type} (f g : A -> result B) (l : list A) :
  (forall a, f a = g a) -> mapM f l = mapM g l.
Proof.
  intros E. induction l as [| a l IH]; simpl; [reflexivity |].
  now rewrite E, IH.
Qed.

Lemma combine_opp_products (a b : list float) :
  map (fun p => fst p * snd p) (combine (map PrimFloat.opp a) (map PrimFloat.opp b))
  = map (fun p => fst p * snd p) (combine a b).
Proof.
  revert b. induction a as [| x a IH]; intros [| y b]; simpl; try reflexivity.
  now rewrite mul_opp_opp, IH.
Qed.

Lemma np_multiply_opp (a b : list float) :
  np_multiply (map PrimFloat.opp a) (map PrimFloat.opp b) = np_multiply a b.
Proof.
  unfold np_multiply. rewrite !length_map, combine_opp_products.
  destruct (Nat.eqb (length a) (length b)); [reflexivity |].
  destruct a as [| x [| x' a]], b as [| y [| y' b]]; simpl; rewrite ?map_map;
    repeat match goal with
           | |- Ok _ = Ok _ => f_equal
           | |- _ :: _ = _ :: _ => f_equal
           | |- (- _) * (- _) = _ => apply mul_opp_opp
           | |- map _ ?l = map _ ?l => apply map_ext; intros z; apply mul_opp_opp
           | |- _ => reflexivity
           end.
Qed.

Lemma row_neg_array (X : ndarray) (i : nat) :
  row (neg_array X) i = map PrimFloat.opp (row X i).
Proof. unfold row. now rewrite map_map. Qed.

Lemma column_neg_array (X : ndarray) (j : nat) :
  column (np_transpose (neg_array X)) j
  = map PrimFloat.opp (column (np_transpose X) j).
Proof. unfold column. now rewrite map_map. Qed.

Lemma lagged_neg_array (X : ndarray) (lag : Z) :
  lagged (neg_array X) lag = (xl <- lagged X lag ;; Ok (neg_array xl)).
Proof.
  unfold lagged. simpl.
  destruct (Z.of_nat (ncol X) - lag <? 0)%Z; [reflexivity |].
  destruct (mapM _ _); reflexivity.
Qed.

Lemma cov_cell_neg_array (X xl : ndarray) (lag : Z) (i j : nat) :
  cov_cell (neg_array X) (np_transpose (neg_array X)) (neg_array xl) lag i j
  = cov_cell X (np_transpose X) xl lag i j.
Proof.
  unfold cov_cell.
  rewrite !row_neg_array, column_neg_array, firstn_map, !np_multiply_opp.
  reflexivity.
Qed.

Lemma covariances_neg_array (X : ndarray) (lag : Z) :
  covariances (neg_array X) lag = covariances X lag.
Proof.
  unfold covariances. rewrite lagged_neg_array.
  destruct (lagged X lag) as [xl | e]; [| reflexivity].
  simpl. f_equal.
  apply mapM_ext. intros i. apply mapM_ext. intros j.
  apply cov_cell_neg_array.
Qed.

(** X7.  [LIM] cannot tell a data set from its negative: every sample
    enters through a product of two samples, and [(-x) * (-y)] is [x * y]
    bit for bit, so [c0], [cT] and with them every returned field and
    every raised exception are the same for [xDat] and [-xDat]. *)
Theorem sign_flip_invariance (np : numpy) (X : ndarray) (lag : Z) :
  covariances (neg_array X) lag = covariances X lag /\
  LIM np (neg_array X) lag = LIM np X lag.
Proof.
  split; [apply covariances_neg_array |].
  unfold LIM. rewrite covariances_neg_array. reflexivity.
Qed.

(** ** The diagonal of [c0] (line 60) *)

Lemma SF_not_neg_plus (s : spec_float) :
  SF_not_neg s = true -> SF_nan s = false -> SF_plus s = true.
Proof. destruct s; simpl; congruence. Qed.

Lemma mul_self_nan (x : float) : is_nan (x * x) = is_nan x.
Proof.
  rewrite !is_nan_SF, mul_spec. unfold SF64mul, SFmul.
  destruct (Prim2SF x) as [a | a | | a m e]; simpl; try reflexivity.
  pose proof (binary_round_aux_sign (xorb a a) (Z.pos (m * m)) (e + e) loc_Exact
                ltac:(lia)) as H.
  destruct (binary_round_aux prec emax (xorb a a) (Z.pos (m * m)) (e + e) loc_Exact);
    simpl; tauto.
Qed.

Lemma replace_nan_square_plus (x : float) :
  SF_plus (Prim2SF (replace_nan (x * x))) = true.
Proof.
  unfold replace_nan. destruct (is_nan (x * x)) eqn:E; [reflexivity |].
  apply SF_not_neg_plus; [apply mul_self_not_neg | now rewrite <- is_nan_SF].
Qed.

Lemma binary_normalize_pos_plus (m : positive) (e : Z) :
  SF_plus (binary_normalize prec emax (Z.pos m) e false) = true.
Proof.
  unfold binary_normalize, binary_round.
  destruct (shl_align m e (fexp prec emax (Z.pos (digits2_pos m) + e))) as [mz ez].
  pose proof (binary_round_aux_sign false (Z.pos mz) ez loc_Exact ltac:(lia)) as H.
  destruct (binary_round_aux prec emax false (Z.pos mz) ez loc_Exact);
    simpl; try tauto; now rewrite H.
Qed.

Lemma add_plus (x y : float) :
  SF_plus (Prim2SF x) = true -> SF_plus (Prim2SF y) = true ->
  SF_plus (Prim2SF (x + y)) = true.
Proof.
  rewrite add_spec. unfold SF64add, SFadd.
  destruct (Prim2SF x) as [a | a | | a m e], (Prim2SF y) as [b | b | | b n f];
    simpl; try discriminate; intros Ha Hb;
    apply negb_true_iff in Ha; apply negb_true_iff in Hb; subst; simpl;
    try reflexivity.
  apply binary_normalize_pos_plus.
Qed.

(** The sum of squares of a row, NaNs dropped, is [+0], a positive number
    or [+inf], in whatever order the squares are added. *)
Lemma nansum_squares_plus (T : nat) (x : nat -> float) :
  SF_plus (Prim2SF (np_nansum (products T x x))) = true.
Proof.
  unfold np_nansum.
  apply (float_sum_closed (fun s => SF_plus (Prim2SF s) = true)
           (map replace_nan (products T x x)));
    [reflexivity | apply add_plus | apply np_sum_float_sum |].
  intros y Hy. unfold products in Hy. rewrite map_map in Hy.
  apply in_map_iff in Hy. destruct Hy as [t [<- _]].
  apply replace_nan_square_plus.
Qed.

Lemma div_core_nonneg (mx my : positive) (ex ey : Z) :
  let '(mz, _, _) := SFdiv_core_binary prec emax (Z.pos mx) ex (Z.pos my) ey in
  (0 <= mz)%Z.
Proof.
  unfold SFdiv_core_binary.
  set (e' := Z.min _ _). set (s := (ex - ey - e')%Z).
  set (m' := match s with
             | Z.pos _ => Z.shiftl (Z.pos mx) s
             | Z0 => Z.pos mx
             | Z.neg _ => Z0
             end).
  assert (Hm : (0 <= m')%Z).
  { unfold m'. destruct s as [| p | p]; try lia.
    apply Z.shiftl_nonneg. lia. }
  pose proof (Z_div_mod m' (Z.pos my) ltac:(lia)) as Hd.
  destruct (Z.div_eucl m' (Z.pos my)) as [q r].
  destruct Hd as [Hq Hr]. nia.
Qed.

Lemma div_plus_count (a : float) (n : nat) :
  SF_plus (Prim2SF a) = true ->
  SF_not_neg (Prim2SF (a / float_of_count n)) = true.
Proof.
  intros Ha. rewrite div_spec.
  pose proof (float_of_count_spec n) as Hc. unfold SF64div, SFdiv.
  destruct (Prim2SF a) as [s | s | | s m e]; simpl in Ha; try discriminate;
    apply negb_true_iff in Ha; subst s;
    destruct (Prim2SF (float_of_count n)) as [c | c | | c k f]; simpl;
    try tauto; subst c; try reflexivity.
  pose proof (div_core_nonneg m k e f) as Hq.
  destruct (SFdiv_core_binary prec emax (Z.pos m) e (Z.pos k) f) as [[mz ez] lz].
  pose proof (binary_round_aux_sign false mz ez lz Hq) as H.
  destruct (binary_round_aux prec emax false mz ez lz); simpl; try tauto;
    now rewrite H.
Qed.

Lemma not_neg_ltb_zero (x : float) :
  SF_not_neg (Prim2SF x) = true -> (x <? 0) = false.
Proof.
  rewrite ltb_spec. change (Prim2SF 0) with (S754_zero false).
  unfold SFltb, SFcompare.
  destruct (Prim2SF x) as [s | s | | s m e]; simpl; try reflexivity;
    intros H; apply negb_true_iff in H; subst s; reflexivity.
Qed.

Lemma plus_not_finite_infinity (x : float) :
  SF_plus (Prim2SF x) = true -> is_finite x = false -> x = infinity.
Proof.
  rewrite is_finite_spec. intros Hp Hf. apply Prim2SF_inj.
  change (Prim2SF infinity) with (S754_infinity false).
  destruct (Prim2SF x) as [s | s | | s m e]; simpl in *; try discriminate.
  apply negb_true_iff in Hp. now subst s.
Qed.

Lemma c0_diagonal_entry (X : ndarray) (lag : Z) (c0 cT : matrix float) (i : nat) :
  covariances X lag = Ok (c0, cT) -> i < nrow X ->
  entry c0 i i = nan_mean (products (ncol X) (cell X i) (cell X i)).
Proof.
  intros H Hi.
  destruct (covariances_inv X lag c0 cT H) as [xl [_ [_ [_ Hc]]]].
  now destruct (cov_cell_inv _ _ _ _ _ _ _ (Hc i i Hi Hi)) as [-> _].
Qed.

(** X8.  A diagonal entry of [c0] is never negative: whatever the row
    holds (NaN, infinities, numbers whose square overflows), [c0[i,i]] is
    [+0], a positive number, [+inf] or NaN, and never [-0]. *)
Theorem c0_diagonal_not_negative (X : ndarray) (lag : Z) (c0 cT : matrix float)
    (i : nat) :
  covariances X lag = Ok (c0, cT) -> i < nrow X ->
  (entry c0 i i <? 0) = false /\
  SF_not_neg (Prim2SF (entry c0 i i)) = true.
Proof.
  intros H Hi. rewrite (c0_diagonal_entry X lag c0 cT i H Hi).
  assert (Hn : SF_not_neg (Prim2SF (nan_mean (products (ncol X) (cell X i) (cell X i))))
               = true).
  { unfold nan_mean. apply div_plus_count, nansum_squares_plus. }
  split; [now apply not_neg_ltb_zero | exact Hn].
Qed.

Lemma c0_diagonal_not_negative_witness :
  let X := of_rows 3 [[-1; nan; 0x1p600]; [nan; nan; nan]; [-0; 0; -0]] in
  exists c0 cT,
    covariances X 1 = Ok (c0, cT) /\
    diagonal_of c0 = [infinity; nan; 0] /\
    (entry c0 0 0 <? 0) = false /\
    SF_not_neg (Prim2SF (entry c0 0 0)) = true.
Proof.
  intros X. do 2 eexists.
  split; [vm_compute; reflexivity |].
  split; [vm_compute; reflexivity |].
  match goal with
  | |- (entry ?c _ _ <? _) = _ /\ _ =>
      refine (c0_diagonal_not_negative X 1 c _ O _ _)
  end; [vm_compute; reflexivity | simpl; lia].
Defined.

(** X9.  Infinities are not treated as missing values.  A sample that is
    not NaN and whose square is not finite (an infinite sample, or a
    number beyond about [1.3e154]) is left out of the count of line 60 but
    not out of the sum, so the variance entry of its row is exactly
    [+inf]. *)
Theorem overflowing_sample_gives_infinite_variance (X : ndarray) (lag : Z)
    (c0 cT : matrix float) (i t : nat) :
  covariances X lag = Ok (c0, cT) -> i < nrow X -> t < ncol X ->
  is_nan (cell X i t) = false ->
  is_finite (cell X i t * cell X i t) = false ->
  entry c0 i i = infinity.
Proof.
  intros H Hi Ht Hnan Hinf. rewrite (c0_diagonal_entry X lag c0 cT i H Hi).
  unfold nan_mean.
  assert (Hs : is_finite (np_nansum (products (ncol X) (cell X i) (cell X i))) = false).
  { unfold np_nansum. apply np_sum_not_finite.
    exists (cell X i t * cell X i t). split; [| exact Hinf].
    apply in_map_iff. exists (cell X i t * cell X i t). split.
    - unfold replace_nan. now rewrite mul_self_nan, Hnan.
    - unfold products. apply in_map_iff. exists t. split; [reflexivity |].
      apply in_seq. lia. }
  rewrite (div_count_not_finite _ _ Hs).
  apply plus_not_finite_infinity; [apply nansum_squares_plus | exact Hs].
Qed.

Lemma overflowing_sample_gives_infinite_variance_witness :
  let X := of_rows 3 [[1; 0x1p600; 2]; [1; neg_infinity; nan]] in
  exists c0 cT,
    covariances X 1 = Ok (c0, cT) /\
    entry c0 0 0 = infinity /\ entry c0 1 1 = infinity.
Proof.
  intros X. do 2 eexists.
  split; [vm_compute; reflexivity |].
  split.
  - refine (overflowing_sample_gives_infinite_variance X 1 _ _ 0 1 _ _ _ _ _);
      [vm_compute; reflexivity | simpl; lia | simpl; lia
      | vm_compute; reflexivity | vm_compute; reflexivity].
  - vm_compute. reflexivity.
Defined.

(** ** The lag [-1] (lines 48-50, 62) *)

Lemma np_multiply_broadcast_r (a : list float) (y : float) :
  np_multiply a [y] = Ok (map (fun x => x * y) a).
Proof. destruct a as [| x [| x' a]]; reflexivity. Qed.

Lemma lag_minus_one_products (X : ndarray) (c0 cT : matrix float)
    (i j : nat) :
  1 <= ncol X ->
  covariances X (-1) = Ok (c0, cT) -> i < nrow X -> j < nrow X ->
  entry cT i j =
  nan_mean (map (fun t =>
                   cell X i (Z.to_nat ((Z.of_nat t - 1) mod Z.of_nat (ncol X)))
                   * cell X j 0)
                (seq 0 (S (ncol X)))).
Proof.
  intros HT H Hi Hj.
  destruct (covariances_inv X (-1) c0 cT H) as [xl [Hxl [_ [_ Hc]]]].
  destruct (cov_cell_inv _ _ _ _ _ _ _ (Hc i j Hi Hj)) as [_ [pT [Hp ->]]].
  destruct (lagged_cell X xl (-1) ltac:(lia) Hxl) as [_ [Hcol Hcell]].
  assert (Hn : ncol xl = S (ncol X)) by lia.
  assert (Hs : slice_stop (ncol X) (- -1) = 1%nat).
  { unfold slice_stop. change (- -1 <? 0)%Z with false.
    change (Z.to_nat (- -1)) with 1%nat. cbv iota. lia. }
  rewrite Hs in Hp.
  assert (Hf : firstn 1 (row X j) = [cell X j 0]).
  { rewrite firstn_row by exact HT. reflexivity. }
  rewrite Hf in Hp.
  rewrite np_multiply_broadcast_r in Hp.
  injection Hp as <-. f_equal. unfold row. rewrite map_map, Hn.
  apply map_ext_in. intros t Ht. apply in_seq in Ht.
  rewrite Hcell by lia. reflexivity.
Qed.

(** X11.  What the code computes for [lag = -1], which it accepts:
    [xLagged] has [T + 1] columns, the slice [xDat_T[:1, iC]] has one
    entry, and broadcasting multiplies the whole wrapped row [iR] by the
    single sample [xDat[iC, 0]].  The returned [cT[iR, iC]] is a binary64
    sum of those of the [T + 1] products that are not NaN, divided by the
    number of finite ones: not a covariance at any lag. *)
Theorem lag_minus_one_uses_first_sample (X : ndarray) (c0 cT : matrix float)
    (i j : nat) :
  1 <= ncol X ->
  covariances X (-1) = Ok (c0, cT) -> i < nrow X -> j < nrow X ->
  let p := map (fun t =>
                  cell X i (Z.to_nat ((Z.of_nat t - 1) mod Z.of_nat (ncol X)))
                  * cell X j 0)
               (seq 0 (S (ncol X))) in
  exists s,
    is_float_sum (filter (fun v => negb (is_nan v)) p) s /\
    entry cT i j = s / float_of_count (length (filter is_finite p)).
Proof.
  intros HT H Hi Hj p.
  rewrite (lag_minus_one_products X c0 cT i j HT H Hi Hj). fold p.
  exists (np_nansum p). split; [apply np_nansum_float_sum | reflexivity].
Qed.

(** Seven samples, hence eight products: [7; 1; 2; 3; 4; 5; 6; 7] times
    10, with mean 43.75. *)
Lemma lag_minus_one_uses_first_sample_witness :
  let X := of_rows 7 [[1; 2; 3; 4; 5; 6; 7]; [10; 20; 30; 40; 50; 60; 70]] in
  exists c0 cT,
    covariances X (-1) = Ok (c0, cT) /\
    entry cT 0 1 = 43.75 /\
    let p := map (fun t => cell X 0 (Z.to_nat ((Z.of_nat t - 1) mod 7)) * cell X 1 0)
                 (seq 0 8) in
    p = [70; 10; 20; 30; 40; 50; 60; 70] /\
    exists s,
      is_float_sum (filter (fun v => negb (is_nan v)) p) s /\
      entry cT 0 1 = s / float_of_count (length (filter is_finite p)).
Proof.
  intros X.
  destruct (covariances X (-1)) as [[c0 cT] | e] eqn:E;
    [| vm_compute in E; discriminate].
  exists c0, cT. split; [reflexivity |].
  pose proof (lag_minus_one_uses_first_sample X c0 cT 0 1
                ltac:(simpl; lia) E ltac:(simpl; lia) ltac:(simpl; lia)) as H.
  split; [vm_compute in E; injection E as <- <-; vm_compute; reflexivity |].
  split; [vm_compute; reflexivity |].
  exact H.
Defined.

(** ** Negative eigenvalues in a float64 spectrum (lines 85-95, 117-118) *)

Lemma LIM_rates (np : numpy) (X : ndarray) (lag : Z) (out : lim_output) :
  argsort_permutes np -> LIM np X lag = Ok out ->
  out_b_alpha out = dv_div_int (dv_log np (out_g out)) lag /\
  out_periods out = periods_of (out_b_alpha out) /\
  out_decayT out = decay_time (out_b_alpha out).
Proof.
  intros Hp H.
  destruct (LIM_inv np X lag out H)
    as [c0 [cT [ic0 [m [invNorm [_ [_ [Hm [_ Hout]]]]]]]]].
  simpl in Hout. subst out. simpl.
  split; [| split; reflexivity].
  rewrite (eigenmodes_rates np _ lag m Hm) at 1. apply dv_take_rates.
  intros k Hk.
  apply (Permutation_in _ (iSort2_permutation np m Hp)) in Hk.
  apply in_seq in Hk.
  rewrite (eigenmodes_rates np _ lag m Hm), dv_length_log_div in Hk. lia.
Qed.

Lemma div_nan_l (x y : float) : is_nan x = true -> is_nan (x / y) = true.
Proof.
  rewrite !is_nan_SF, div_spec. unfold SF64div, SFdiv.
  destruct (Prim2SF x); simpl; try discriminate. reflexivity.
Qed.

Lemma div_nan_r (x y : float) : is_nan y = true -> is_nan (x / y) = true.
Proof.
  rewrite !is_nan_SF, div_spec. unfold SF64div, SFdiv.
  destruct (Prim2SF y); simpl; try discriminate.
  destruct (Prim2SF x); reflexivity.
Qed.

(** X12.  No check for Nyquist modes: when the spectrum is float64 and an
    eigenvalue is negative, [np.log] takes the real branch and returns
    NaN, so that mode is returned with a NaN rate, a NaN decay time and
    the period [+inf], where the complex logarithm would give the period
    [2 lag]. *)
Theorem negative_eigenvalue_has_nan_rate (np : numpy) (X : ndarray) (lag : Z)
    (out : lim_output) (g : list float) (k : nat) :
  argsort_permutes np -> real_log_of_negative np ->
  LIM np X lag = Ok out -> out_g out = VR g ->
  k < length g -> (nth k g nan <? 0) = true ->
  is_nan (nth k (dv_real (out_b_alpha out)) nan) = true /\
  is_nan (nth k (out_decayT out) nan) = true /\
  nth k (out_periods out) nan = infinity.
Proof.
  intros Hp Hlog H Hg Hk Hneg.
  destruct (LIM_rates np X lag out Hp H) as [Hb [Hper Hdec]].
  rewrite Hper, Hdec, Hb, Hg. simpl. unfold decay_time, periods_of. simpl.
  rewrite !map_map.
  rewrite (nth_map_in_range (fun x => np_log np x / float_of_Z lag) g k nan nan Hk).
  rewrite (nth_map_in_range (fun x => -1 / (np_log np x / float_of_Z lag))
             g k nan nan Hk).
  pose proof (div_nan_l _ (float_of_Z lag) (Hlog _ Hneg)) as Hn.
  split; [exact Hn | split; [now apply div_nan_r |]].
  rewrite (nth_map_in_range _ g k nan nan Hk).
  vm_compute. reflexivity.
Qed.

Lemma ref_numpy_real_log_of_negative : real_log_of_negative ref_numpy.
Proof.
  intros x Hx. simpl. unfold ref_log.
  destruct (is_nan x); [reflexivity |]. now rewrite Hx.
Qed.

(** The alternating series [1; -1; 1; -1; 1] has [G = -1]. *)
Lemma negative_eigenvalue_has_nan_rate_witness :
  exists out,
    LIM ref_numpy (of_rows 5 [[1; -1; 1; -1; 1]; [0; 1; 0; -1; 0]]) 1 = Ok out /\
    out_g out = VR [-1; 0] /\
    is_nan (nth 0 (dv_real (out_b_alpha out)) nan) = true /\
    is_nan (nth 0 (out_decayT out) nan) = true /\
    nth 0 (out_periods out) nan = infinity.
Proof.
  eexists. split; [vm_compute; reflexivity |].
  split; [vm_compute; reflexivity |].
  refine (negative_eigenvalue_has_nan_rate ref_numpy
            (of_rows 5 [[1; -1; 1; -1; 1]; [0; 1; 0; -1; 0]]) 1 _ [-1; 0] 0
            ref_numpy_argsort_permutes ref_numpy_real_log_of_negative _ _ _ _);
    [vm_compute; reflexivity | vm_compute; reflexivity | simpl; lia
    | vm_compute; reflexivity].
Defined.

(** ** A NaN or an infinity in [cT] (lines 67-70) *)

(** X13.  A NaN or an infinity anywhere in [cT] (the NaN stored for a
    pair of variables with no common finite product, for one) prevents a
    return: it spreads over a whole row of [G = cT . inv(c0)], and the
    call ends in the exception of [LA.inv] or in the [LinAlgError] of the
    finiteness check of [LA.eig]. *)
Theorem non_finite_cT_prevents_return (np : numpy) (X : ndarray) (lag : Z)
    (c0 cT : matrix float) (i k : nat) :
  inv_keeps_shape np -> dot_spreads_non_finite np ->
  covariances X lag = Ok (c0, cT) -> i < nrow X -> k < nrow X ->
  is_finite (entry cT i k) = false ->
  ((exists e, inv_d np c0 = Raise e /\ LIM np X lag = Raise e) \/
   LIM np X lag = Raise (LinAlgError NotFinite)) /\
  forall out, LIM np X lag <> Ok out.
Proof.
  intros Hinv Hdot Hcov Hi Hk Hnf.
  destruct (covariances_inv X lag c0 cT Hcov) as [xl [_ [S0 [ST _]]]].
  assert (Hres : (exists e, inv_d np c0 = Raise e /\ LIM np X lag = Raise e) \/
                 LIM np X lag = Raise (LinAlgError NotFinite)).
  { destruct (inv_d np c0) as [ic0 | e] eqn:Ei.
    - right. apply (LIM_not_finite_G np X lag c0 cT ic0 Hcov Ei).
      apply (np_dot_not_finite np (nrow X) cT ic0 i k Hdot ST); try assumption.
      exact (proj1 Hinv _ _ _ S0 Ei).
    - left. exists e. split; [reflexivity |].
      apply (inversion_failure_aborts np X lag c0 cT); [exact Hcov | now left]. }
  split; [exact Hres |].
  intros out Hout. destruct Hres as [[e [_ He]] | He]; congruence.
Qed.

Lemma non_finite_cT_prevents_return_witness :
  let X := of_rows 2 [[nan; 1]] in
  exists c0 cT,
    covariances X 1 = Ok (c0, cT) /\ c0 = [[1]] /\ cT = [[nan]] /\
    LIM ref_numpy X 1 = Raise (LinAlgError NotFinite) /\
    ((exists e, inv_d ref_numpy c0 = Raise e /\ LIM ref_numpy X 1 = Raise e) \/
      LIM ref_numpy X 1 = Raise (LinAlgError NotFinite)) /\
    forall out, LIM ref_numpy X 1 <> Ok out.
Proof.
  intros X. do 2 eexists.
  split; [vm_compute; reflexivity |].
  split; [reflexivity |]. split; [reflexivity |].
  split; [vm_compute; reflexivity |].
  refine (non_finite_cT_prevents_return ref_numpy X 1 [[1]] [[nan]] 0 0
            ref_numpy_inv_keeps_shape ref_numpy_dot_spreads_non_finite _ _ _ _);
    [vm_compute; reflexivity | simpl; lia | simpl; lia | vm_compute; reflexivity].
Defined.

